(** * obamify-web: the assignment solvers, the Voronoi rasterizer and the
    morph simulation, as Rocq functions

    The TypeScript sources compute on IEEE doubles.  The embedding keeps
    integers as [Z] (every integer quantity of the solvers: indices, colour
    channels, heuristic values; exact for doubles below 2^53) and the
    positions, velocities and crop parameters of the simulation and of the
    image kernel as rationals [Q].  Where a property depends on the rounding
    of a double (the state of the seeded generator, the distances the
    rasterizer compares, the integration step of a cell) the rounding is
    written out with [JS.toDouble] and [JS.double]; the properties of the
    other functions are stated where the exact value decides them. *)

From Stdlib Require Import ZArith QArith Qround Qminmax Qabs Qpower Lia Lqa.
From Stdlib Require Import String Ascii.
From stdpp Require Import prelude gmap.

Local Open Scope Z_scope.

(* ===================================================================== *)
(** ** JavaScript number primitives *)
(* ===================================================================== *)

Module JS.

(** [ToInt32] and [ToUint32] of an integer-valued double. *)
Definition toUint32 (z : Z) : Z := z mod 2 ^ 32.

Definition toInt32 (z : Z) : Z := (z + 2 ^ 31) mod 2 ^ 32 - 2 ^ 31.

(** [a >>> k]: shift of the unsigned reading. *)
Definition ushr (a k : Z) : Z := Z.shiftr (toUint32 a) k.

(** [a ^ b] and [a | b] on the signed 32-bit readings. *)
Definition xor32 (a b : Z) : Z := Z.lxor (toInt32 a) (toInt32 b).

Definition or32 (a b : Z) : Z := Z.lor (toInt32 a) (toInt32 b).

Definition and32 (a b : Z) : Z := Z.land (toInt32 a) (toInt32 b).

(** [a << k] for [0 <= k < 32]. *)
Definition shl32 (a k : Z) : Z := toInt32 (Z.shiftl (toInt32 a) k).

(** [Math.imul]. *)
Definition imul (a b : Z) : Z := toInt32 (toInt32 a * toInt32 b).

(** The double nearest to a non-negative integer (round to nearest, ties to
    even, 53 significant bits).  Integers below 2^53 are doubles. *)
Definition toDouble (z : Z) : Z :=
  if z <? 2 ^ 53 then z
  else
    let e := Z.log2 z - 52 in
    let q := Z.shiftr z e in
    let r := z - Z.shiftl q e in
    let half := Z.shiftl 1 (e - 1) in
    let q' :=
      if r <? half then q
      else if half <? r then q + 1
      else if Z.even q then q else q + 1 in
    Z.shiftl q' e.

(** [2^e] for an integer exponent. *)
Definition pow2 (e : Z) : Q :=
  if 0 <=? e then inject_Z (2 ^ e) else 1 # Z.to_pos (2 ^ (- e)).

(** The binary exponent of a positive rational: the [e] with
    [2^e <= q < 2^(e+1)]. *)
Definition exponent (q : Q) : Z :=
  let e := Z.log2 (Qnum q) - Z.log2 (Z.pos (Qden q)) in
  if Qle_bool (pow2 e) q then e else e - 1.

(** The integer nearest to a rational, a half going to the even
    neighbour. *)
Definition nearestEven (q : Q) : Z :=
  let f := Qfloor q in
  match (q - inject_Z f ?= 1 # 2)%Q with
  | Lt => f
  | Gt => f + 1
  | Eq => if Z.even f then f else f + 1
  end.

(** The result of an arithmetic operation on doubles: the binary64 value
    nearest to the exact result [q] (round to nearest, ties to even; 53
    significant bits, least exponent -1022, so that below 2^-1022 the
    values are the multiples of 2^-1074).  The exponent is not bounded
    above here: a result of magnitude 2^1024 or more stands for the
    [Infinity] of its sign, see [finite]. *)
Definition double (q : Q) : Q :=
  if Qeq_bool q 0 then 0%Q
  else
    let a := Qabs q in
    let ulp := pow2 (Z.max (exponent a) (-1022) - 52) in
    let m := inject_Z (nearestEven (a / ulp)) in
    Qred (if Qle_bool 0 q then m * ulp else - (m * ulp))%Q.

(** Whether a rounded result is a finite double. *)
Definition finite (d : Q) : bool := negb (Qle_bool (pow2 1024) (Qabs d)).

(** [Math.max(lo, Math.min(hi, v))] on integers and on rationals. *)
Definition clampZ (value lo hi : Z) : Z := Z.max lo (Z.min hi value).

Definition clampQ (value lo hi : Q) : Q := Qmax lo (Qmin hi value).

(** [Math.round]: the nearest integer, halves upwards. *)
Definition round (x : Q) : Z := Qfloor (x + (1 # 2))%Q.

(** [arr[i]] for an integer index: [undefined] outside the array. *)
Definition index {A} (l : list A) (i : Z) : option A :=
  if i <? 0 then None else l !! Z.to_nat i.

End JS.

(* ===================================================================== *)
(** ** utils/math.ts *)
(* ===================================================================== *)

Definition Point : Type := Z * Z.
Definition RGB : Type := Z * Z * Z.

(** [heuristic(apos, bpos, a, b, colorWeight, spatialWeight)]. *)
Definition heuristic (apos bpos : Point) (a b : RGB)
    (colorWeight spatialWeight : Z) : Z :=
  let '(ax, ay) := apos in
  let '(bx, by_) := bpos in
  let '(a0, a1, a2) := a in
  let '(b0, b1, b2) := b in
  let spatial := (ax - bx) ^ 2 + (ay - by_) ^ 2 in
  let color := (a0 - b0) ^ 2 + (a1 - b1) ^ 2 + (a2 - b2) ^ 2 in
  color * colorWeight + (spatial * spatialWeight) ^ 2.

(** [hashCode(str)] over the UTF-16 code units of the string. *)
Definition hashStep (hash char : Z) : Z :=
  let hash1 := JS.shl32 hash 5 - hash + char in
  JS.and32 hash1 hash1.

Definition hashCodeUnits (units : list Z) : Z :=
  Z.abs (fold_left hashStep units 0).

Definition codeUnits (s : string) : list Z :=
  map (fun c => Z.of_nat (nat_of_ascii c)) (list_ascii_of_string s).

Definition hashCode (s : string) : Z := hashCodeUnits (codeUnits s).

Module SeededRNG.

(** The generator is its [state] field, a double that is only ever added
    to. *)
Definition t : Type := Z.

Definition new (seed : Z) : t := seed.

(** The 32 output bits of [next()] from the updated state. *)
Definition mix (state : Z) : Z :=
  let t0 := state in
  let t1 := JS.imul (JS.xor32 t0 (JS.ushr t0 15)) (JS.or32 t0 1) in
  let t2 := JS.xor32 t1 (t1 + JS.imul (JS.xor32 t1 (JS.ushr t1 7)) (JS.or32 t1 61)) in
  JS.ushr (JS.xor32 t2 (JS.ushr t2 14)) 0.

(** [next()]: the new state and the numerator of the result over 2^32. *)
Definition next (g : t) : t * Z :=
  let s := JS.toDouble (g + 0x6d2b79f5) in
  (s, mix s).

(** [range(min, max) = Math.floor(next() * (max - min)) + min]; the product
    is the double nearest to [u * (max - min) / 2^32]. *)
Definition range (g : t) (min max : Z) : t * Z :=
  let '(g', u) := next g in
  (g', JS.toDouble (u * (max - min)) / 2 ^ 32 + min).

End SeededRNG.

(* ===================================================================== *)
(** ** types/index.ts *)
(* ===================================================================== *)

Record UnprocessedPreset := {
  name : string;
  width : Z;
  height : Z;
  sourceImg : list Z            (* Uint8Array, RGB *)
}.

Record Preset := {
  inner : UnprocessedPreset;
  assignments : list Z
}.

Module CropScale.
Record t := { scale : Q; x : Q; y : Q }.
End CropScale.

Inductive Algorithm := Optimal | Genetic.

Record GenerationSettings := {
  id : string;
  settingsName : string;
  proximityImportance : Z;
  algorithm : Algorithm;
  sidelen : Z;
  customTarget : option UnprocessedPreset;
  targetCropScale : CropScale.t;
  sourceCropScale : CropScale.t
}.

(** The two requests the page sends the algorithm worker. *)
Inductive WorkerMessage :=
  | ProcessRequest (source : UnprocessedPreset) (settings : GenerationSettings)
  | CancelRequest.

Inductive ProgressMsg :=
  | Progress (value : Q)
  | UpdatePreview (w h : Z) (data : list Z)
  | UpdateAssignments (assignments : list Z)
  | Done (preset : Preset)
  | Error
  | Cancelled.

(* ===================================================================== *)
(** ** utils/image.ts *)
(* ===================================================================== *)

(** A typed array of [n] elements filled from the front of [l]: writes past
    the end are dropped, unwritten slots stay 0. *)
Definition typedArray (n : Z) (l : list Z) : list Z :=
  take (Z.to_nat n) (l ++ replicate (Z.to_nat n - length l) 0).

(** [extractRGB]: one triple per three bytes.  The buffers of this program
    are whole triples; the channels JavaScript would leave [undefined] at a
    ragged tail are read as 0 here. *)
Fixpoint extractRGB (data : list Z) : list RGB :=
  match data with
  | r :: g :: b :: rest => (r, g, b) :: extractRGB rest
  | [r; g] => [(r, g, 0)]
  | [r] => [(r, 0, 0)]
  | [] => []
  end.

(** The RGB to RGBA loop of [applyCropScale]. *)
Fixpoint rgbaOfRgb (src : list Z) : list Z :=
  match src with
  | r :: g :: b :: rest => r :: g :: b :: 255 :: rgbaOfRgb rest
  | [r; g] => [r; g; 0; 255]
  | [r] => [r; 0; 0; 255]
  | [] => []
  end.

(** The RGBA to RGB loop at the end of [applyCropScale]. *)
Fixpoint rgbOfRgba (data : list Z) : list Z :=
  match data with
  | r :: g :: b :: _ :: rest => r :: g :: b :: rgbOfRgba rest
  | [r; g; b] => [r; g; b]
  | [r; g] => [r; g; 0]
  | [r] => [r; 0; 0]
  | [] => []
  end.

(** [getImageData(x0, y0, w, h)] on a canvas holding [rgba] of size
    [cw] x [ch]: pixels outside the canvas are transparent black. *)
Definition getImageData (rgba : list Z) (cw ch x0 y0 w h : Z) : list Z :=
  flat_map (fun dy : nat =>
    flat_map (fun dx : nat =>
      let px := x0 + Z.of_nat dx in
      let py := y0 + Z.of_nat dy in
      if (0 <=? px) && (px <? cw) && (0 <=? py) && (py <? ch)
      then take 4 (drop (Z.to_nat ((py * cw + px) * 4)) rgba)
      else [0; 0; 0; 0])
    (seq 0 (Z.to_nat w)))
  (seq 0 (Z.to_nat h)).

Section Canvas.

(** The browser's smoothed [drawImage(canvas, 0, 0, S, S)] followed by
    [getImageData(0, 0, S, S)]: from the RGBA bytes of the square crop, its
    side and the target side to the RGBA bytes read back. *)
Variable drawImageScaled : list Z -> Z -> Z -> list Z.

(** The side and the corner of the crop are written with the exact
    quotient and products.  Where one of them rounds across an integer the
    code crops a window one pixel off; the length of the result and the
    early return, which the properties below are about, do not depend on
    the window. *)
Definition cropSideOf (sourceWidth sourceHeight : Z) (cropScale : CropScale.t) : Z :=
  let s := Qmax 1 (CropScale.scale cropScale) in
  let baseSide := Z.min sourceWidth sourceHeight in
  Qfloor (Qmax 1 (Qmin (Qmin (inject_Z baseSide / s) (inject_Z sourceWidth))
                       (inject_Z sourceHeight))).

Definition applyCropScale (sourceImg : list Z) (sourceWidth sourceHeight : Z)
    (targetSideLen : Z) (cropScale : CropScale.t) : list Z :=
  let cropSide := cropSideOf sourceWidth sourceHeight cropScale in
  let maxOffX := Z.max 0 (sourceWidth - cropSide) in
  let maxOffY := Z.max 0 (sourceHeight - cropSide) in
  let xn := (JS.clampQ (CropScale.x cropScale) (-1) 1 * (1 # 2) + (1 # 2))%Q in
  let yn := (JS.clampQ (CropScale.y cropScale) (-1) 1 * (1 # 2) + (1 # 2))%Q in
  let x0 := Qfloor (xn * inject_Z maxOffX) in
  let y0 := Qfloor (yn * inject_Z maxOffY) in
  let rgbaData := typedArray (sourceWidth * sourceHeight * 4) (rgbaOfRgb sourceImg) in
  let croppedData :=
    getImageData rgbaData sourceWidth sourceHeight x0 y0 cropSide cropSide in
  if cropSide =? targetSideLen then
    sourceImg (* Already correct size *)
  else
    let resizedImageData := drawImageScaled croppedData cropSide targetSideLen in
    typedArray (targetSideLen * targetSideLen * 3) (rgbOfRgba resizedImageData).

End Canvas.

(** [makeNewImage]: [None] when an assignment names no source pixel (the
    destructuring throws). *)
Definition makeNewImage (sourcePixels : list RGB) (assignments : list Z)
    (width height : Z) : option (list Z) :=
  let img := replicate (Z.to_nat (width * height * 3)) 0 in
  foldl (fun (acc : option (list Z)) '(targetIdx, sourceIdx) =>
           img ← acc;
           '(r, g, b) ← JS.index sourcePixels sourceIdx;
           let base := (targetIdx * 3)%nat in
           Some (<[(base + 2)%nat := b]> (<[(base + 1)%nat := g]> (<[base := r]> img))))
        (Some img) (imap (fun i s => (i, s)) assignments).

(* ===================================================================== *)
(** ** workers/algorithms.ts: the Genetic solver *)
(* ===================================================================== *)

Record Pixel := {
  srcX : Z;
  srcY : Z;
  rgb : RGB;
  h : Z                          (* current heuristic value *)
}.

Definition setH (v : Z) (p : Pixel) : Pixel :=
  {| srcX := srcX p; srcY := srcY p; rgb := rgb p; h := v |}.

(** What the trial loop reads and never writes. *)
Record SolverEnv := {
  targetPixels : list RGB;
  weights : list Z;
  envSidelen : Z;
  envProximity : Z
}.

(** The flag [cancelFlag.cancelled] is raised by a cancel message and never
    lowered during a run: it reads [true] from the [k]-th read on
    ([None]: never). *)
Definition cancelledAt (cancel : option nat) (read : nat) : bool :=
  match cancel with
  | Some k => bool_decide (k ≤ read)%nat
  | None => false
  end.

(** The initial [pixels] array ([sourcePixels.map]); [None] when
    [targetPixels[i]] is missing and [heuristic] throws. *)
Definition initPixels (env : SolverEnv) (sourcePixels : list RGB) : option (list Pixel) :=
  mapM (fun '(i, rgb) =>
          let x := Z.of_nat i mod envSidelen env in
          let y := Z.of_nat i / envSidelen env in
          t ← targetPixels env !! i;
          w ← weights env !! i;
          Some {| srcX := x; srcY := y; rgb := rgb;
                  h := heuristic (x, y) (x, y) rgb t w (envProximity env) |})
       (imap (fun i rgb => (i, rgb)) sourcePixels).

(** The three draws that open a trial: [apos], then [bx], then [by]. *)
Definition sampleTrial (sidelen maxDist : Z) (n : nat) (g : SeededRNG.t)
    : SeededRNG.t * (Z * Z * Z) :=
  let '(g1, apos) := SeededRNG.range g 0 (Z.of_nat n) in
  let ax := apos mod sidelen in
  let ay := apos / sidelen in
  let '(g2, rx) := SeededRNG.range g1 (- maxDist) (maxDist + 1) in
  let bx := JS.clampZ (ax + rx) 0 (sidelen - 1) in
  let '(g3, ry) := SeededRNG.range g2 (- maxDist) (maxDist + 1) in
  let by_ := JS.clampZ (ay + ry) 0 (sidelen - 1) in
  (g3, (apos, bx, by_)).

(** The two heuristic values of a trial: the owner of [a] moved onto [b],
    and the owner of [b] moved onto [a]. *)
Definition trialHeuristics (env : SolverEnv) (pixels : list Pixel) (apos bx by_ : Z)
    : option (Z * Z) :=
  let sidelen := envSidelen env in
  let ax := apos mod sidelen in
  let ay := apos / sidelen in
  let bpos := by_ * sidelen + bx in
  pa ← JS.index pixels apos;
  tB ← JS.index (targetPixels env) bpos;
  wB ← JS.index (weights env) bpos;
  let aOnBH := heuristic (bx, by_) (ax, ay) (rgb pa) tB wB (envProximity env) in
  pb ← JS.index pixels bpos;
  tA ← JS.index (targetPixels env) apos;
  wA ← JS.index (weights env) apos;
  let bOnAH := heuristic (ax, ay) (bx, by_) (rgb pb) tA wA (envProximity env) in
  Some (aOnBH, bOnAH).

(** The test of line 149. *)
Definition accepts (pixels : list Pixel) (apos bpos aOnBH bOnAH : Z) : option bool :=
  pa ← JS.index pixels apos;
  pb ← JS.index pixels bpos;
  let improvementA := h pa - bOnAH in
  let improvementB := h pb - aOnBH in
  Some (0 <? improvementA + improvementB).

(** Lines 151-155: exchange the two array slots, then write [aOnBH] through
    slot [apos] and [bOnAH] through slot [bpos]. *)
Definition swapPixels (pixels : list Pixel) (apos bpos aOnBH bOnAH : Z) : option (list Pixel) :=
  temp ← JS.index pixels apos;
  pb ← JS.index pixels bpos;
  let a := Z.to_nat apos in
  let b := Z.to_nat bpos in
  let pixels1 := <[a := pb]> pixels in
  let pixels2 := <[b := temp]> pixels1 in
  let pixels3 := alter (setH aOnBH) a pixels2 in
  let pixels4 := alter (setH bOnAH) b pixels3 in
  Some pixels4.

(** One trial on an already sampled pair; the boolean tells whether the
    swap was made.  [None]: the trial throws. *)
Definition swapTrial (env : SolverEnv) (pixels : list Pixel) (apos bx by_ : Z)
    : option (list Pixel * bool) :=
  let bpos := by_ * envSidelen env + bx in
  '(aOnBH, bOnAH) ← trialHeuristics env pixels apos bx by_;
  ok ← accepts pixels apos bpos aOnBH bOnAH;
  if ok : bool then
    pixels' ← swapPixels pixels apos bpos aOnBH bOnAH;
    Some (pixels', true)
  else Some (pixels, false).

Record GenState := {
  pixels : list Pixel;
  rng : SeededRNG.t;
  swapsMade : Z
}.

Definition trial (env : SolverEnv) (maxDist : Z) (st : GenState) : option GenState :=
  let '(g, (apos, bx, by_)) :=
    sampleTrial (envSidelen env) maxDist (length (pixels st)) (rng st) in
  '(pixels', swapped) ← swapTrial env (pixels st) apos bx by_;
  Some {| pixels := pixels'; rng := g;
          swapsMade := if swapped : bool then swapsMade st + 1 else swapsMade st |}.

(** [k] consecutive trials. *)
Fixpoint trials (env : SolverEnv) (maxDist : Z) (k : nat) (st : GenState)
    : option GenState :=
  match k with
  | O => Some st
  | S k' => st' ← trial env maxDist st; trials env maxDist k' st'
  end.

Definition assignmentsOf (sidelen : Z) (pixels : list Pixel) : list Z :=
  map (fun p => srcY p * sidelen + srcX p) pixels.

(** How a solver run ends. *)
Inductive Exit := Returned | Threw | OutOfFuel.

Definition Run : Type := list ProgressMsg * Exit.

Definition post (m : ProgressMsg) (r : Run) : Run := (m :: r.1, r.2).

Section Solvers.

Variable drawImageScaled : list Z -> Z -> Z -> list Z.

Definition croppedSource (source : UnprocessedPreset) (settings : GenerationSettings)
    : list Z :=
  applyCropScale drawImageScaled (sourceImg source) (width source) (height source)
    (sidelen settings) (sourceCropScale settings).

Definition targetPixelsOf (sourcePixels : list RGB) (settings : GenerationSettings)
    : list RGB :=
  match customTarget settings with
  | Some target =>
      extractRGB (applyCropScale drawImageScaled (sourceImg target) (width target)
                    (height target) (sidelen settings) (targetCropScale settings))
  | None => sourcePixels
  end.

Definition donePreset (source : UnprocessedPreset) (settings : GenerationSettings)
    (img : list Z) (assignments : list Z) : Preset :=
  {| inner := {| name := name source; width := sidelen settings;
                 height := sidelen settings; sourceImg := img |};
     assignments := assignments |}.

(** The [while (!cancelFlag.cancelled)] loop and what follows it.  [read]
    counts the reads of the flag so far; [fuel] bounds the generations. *)
Fixpoint geneticLoop (fuel : nat) (cancel : option nat) (read : nat)
    (env : SolverEnv) (sourcePixels : list RGB) (finish : list Pixel -> Run)
    (maxDist : Z) (px : list Pixel) (g : SeededRNG.t) : Run :=
  match fuel with
  | O => ([], OutOfFuel)
  | S fuel' =>
      if cancelledAt cancel read then
        (* loop left by its condition; the flag still reads true *)
        ([Cancelled], Returned)
      else
        let sidelen := envSidelen env in
        let swapsPerGeneration := (128 * length px)%nat in
        match trials env maxDist swapsPerGeneration
                {| pixels := px; rng := g; swapsMade := 0 |} with
        | None => ([], Threw)
        | Some st =>
            match makeNewImage sourcePixels (assignmentsOf sidelen (pixels st))
                    sidelen sidelen with
            | None => ([], Threw)
            | Some imageData =>
                post (UpdatePreview sidelen sidelen imageData)
                  (if (maxDist <? 4) && (swapsMade st <? 10) then
                     if cancelledAt cancel (S read) then ([Cancelled], Returned)
                     else finish (pixels st)
                   else
                     let maxDist' := Z.max 2 (maxDist * 99 / 100) in
                     let progress := (1 - inject_Z maxDist' / inject_Z sidelen)%Q in
                     post (Progress progress)
                       (geneticLoop fuel' cancel (S read) env sourcePixels finish
                          maxDist' (pixels st) (rng st)))
            end
        end
  end.

(** What [processGenetic] sets up before its loop: the arrays the trials
    read, and the initial [pixels]. *)
Definition geneticEnv (source : UnprocessedPreset) (settings : GenerationSettings)
    : SolverEnv :=
  let sourcePixels := extractRGB (croppedSource source settings) in
  let targetPixels := targetPixelsOf sourcePixels settings in
  (* uniform weights, one per target pixel *)
  let weights := map (fun _ => 255) targetPixels in
  {| targetPixels := targetPixels; weights := weights;
     envSidelen := sidelen settings;
     envProximity := proximityImportance settings |}.

Definition geneticStart (source : UnprocessedPreset) (settings : GenerationSettings)
    : option GenState :=
  px ← initPixels (geneticEnv source settings)
         (extractRGB (croppedSource source settings));
  Some {| pixels := px; rng := SeededRNG.new (hashCode (id settings));
          swapsMade := 0 |}.

Definition processGenetic (fuel : nat) (cancel : option nat)
    (source : UnprocessedPreset) (settings : GenerationSettings) : Run :=
  let img := croppedSource source settings in
  let sourcePixels := extractRGB img in
  let env := geneticEnv source settings in
  match geneticStart source settings with
  | None => ([], Threw)
  | Some st0 =>
      geneticLoop fuel cancel 0 env sourcePixels
        (fun px' =>
           ([Done (donePreset source settings img
                     (assignmentsOf (sidelen settings) px'))], Returned))
        (sidelen settings) (pixels st0) (rng st0)
  end.

End Solvers.

(* ===================================================================== *)
(** ** workers/algorithms.ts: the Greedy ("Optimal") solver *)
(* ===================================================================== *)

(** The running best of the inner loop: [bestSrcIdx] (initially -1) and
    [bestScore] ([None] is [Infinity]). *)
Definition Best : Type := Z * option Z.

Definition scoreBelow (score : Z) (bestScore : option Z) : bool :=
  match bestScore with
  | None => true
  | Some s => score <? s
  end.

(** One iteration of the inner loop (lines 264-284). *)
Definition bestStep (env : SolverEnv) (sourcePixels : list RGB) (assigned : gset Z)
    (targetIdx : Z) (best : Best) (srcIdx : Z) : option Best :=
  if bool_decide (srcIdx ∈ assigned) then Some best
  else
    let sidelen := envSidelen env in
    let sx := srcIdx mod sidelen in
    let sy := srcIdx / sidelen in
    let tx := targetIdx mod sidelen in
    let ty := targetIdx / sidelen in
    sourceColor ← JS.index sourcePixels srcIdx;
    targetColor ← JS.index (targetPixels env) targetIdx;
    w ← JS.index (weights env) targetIdx;
    let score := heuristic (sx, sy) (tx, ty) sourceColor targetColor w (envProximity env) in
    if scoreBelow score best.2 then Some (srcIdx, Some score) else Some best.

Fixpoint bestLoop (env : SolverEnv) (sourcePixels : list RGB) (assigned : gset Z)
    (targetIdx : Z) (srcs : list Z) (best : Best) : option Best :=
  match srcs with
  | [] => Some best
  | srcIdx :: rest =>
      best' ← bestStep env sourcePixels assigned targetIdx best srcIdx;
      bestLoop env sourcePixels assigned targetIdx rest best'
  end.

(** [0, 1, ..., n-1] as the values of a counting [for] loop. *)
Definition upto (n : Z) : list Z := map Z.of_nat (seq 0 (Z.to_nat n)).

(** The closing [while (assignments.length < n)] loop. *)
Definition fillIdentity (n : Z) (assignments : list Z) : list Z :=
  assignments
    ++ map Z.of_nat (seq (length assignments) (Z.to_nat n - length assignments)).

Section Greedy.

Variable drawImageScaled : list Z -> Z -> Z -> list Z.

(** The outer loop over the remaining target indices, then the tail of
    the function. *)
Fixpoint optimalLoop (cancel : option nat) (read : nat) (env : SolverEnv)
    (sourcePixels : list RGB) (n : Z) (finish : list Z -> Run)
    (targets : list Z) (assigned : gset Z) (assignments : list Z) : Run :=
  match targets with
  | [] =>
      let assignments' := fillIdentity n assignments in
      if cancelledAt cancel read then ([], Returned) else finish assignments'
  | targetIdx :: rest =>
      if cancelledAt cancel read then ([Cancelled], Returned)
      else
        match bestLoop env sourcePixels assigned targetIdx (upto n) (-1, None) with
        | None => ([], Threw)
        | Some (bestSrcIdx, _) =>
            let '(assigned', assignments') :=
              if 0 <=? bestSrcIdx
              then ({[bestSrcIdx]} ∪ assigned, assignments ++ [bestSrcIdx])
              else (assigned, assignments) in
            let continue_ :=
              optimalLoop cancel (S read) env sourcePixels n finish rest
                assigned' assignments' in
            if targetIdx mod 100 =? 0 then
              post (Progress (inject_Z targetIdx / inject_Z n))
                (match makeNewImage sourcePixels assignments'
                         (envSidelen env) (envSidelen env) with
                 | None => ([], Threw)
                 | Some imageData =>
                     post (UpdatePreview (envSidelen env) (envSidelen env) imageData)
                       continue_
                 end)
            else continue_
        end
  end.

Definition processOptimal (cancel : option nat)
    (source : UnprocessedPreset) (settings : GenerationSettings) : Run :=
  let img := croppedSource drawImageScaled source settings in
  let sourcePixels := extractRGB img in
  let targetPixels := targetPixelsOf drawImageScaled sourcePixels settings in
  let weights := map (fun _ => 255) targetPixels in
  let env := {| targetPixels := targetPixels; weights := weights;
                envSidelen := sidelen settings;
                envProximity := proximityImportance settings |} in
  let n := sidelen settings * sidelen settings in
  optimalLoop cancel 0 env sourcePixels n
    (fun assignments =>
       ([Done (donePreset source settings img assignments)], Returned))
    (upto n) ∅ [].

(** [self.onmessage] on a [process] request: the flag is lowered, the
    solver chosen by [settings.algorithm] runs, and an exception becomes an
    [error] message. *)
Definition onmessage (fuel : nat) (cancel : option nat)
    (source : UnprocessedPreset) (settings : GenerationSettings) : list ProgressMsg :=
  let '(log, exit) :=
    match algorithm settings with
    | Genetic => processGenetic drawImageScaled fuel cancel source settings
    | Optimal => processOptimal cancel source settings
    end in
  match exit with
  | Threw => log ++ [Error]
  | _ => log
  end.

(** What a solver reads from the flag it is handed.  A message is handled
    to its end before the next one is looked at, so the flag a run starts
    with is the flag it reads at every test. *)
Definition flagReads (cancelled : bool) : option nat :=
  if cancelled then Some 0%nat else None.

(** [self.onmessage] (lines 334-360) as a step of the worker.  What the
    worker keeps from one message to the next is the flag
    [cancelFlag.cancelled] of line 332: the step takes the flag as the
    earlier messages left it and gives the flag it leaves and the messages
    it posts. *)
Definition handleMessage (fuel : nat) (cancelled : bool) (msg : WorkerMessage)
    : bool * list ProgressMsg :=
  match msg with
  | CancelRequest => (true, [])
  | ProcessRequest source settings =>
      let cancelled := false in                       (* line 343 *)
      (cancelled, onmessage fuel (flagReads cancelled) source settings)
  end.

(** A worker that handles a sequence of messages, its flag at [cancelled]
    before the first: what it posts in answer to each. *)
Fixpoint serve (fuel : nat) (cancelled : bool) (msgs : list WorkerMessage)
    : list (list ProgressMsg) :=
  match msgs with
  | [] => []
  | msg :: rest =>
      let '(cancelled', posted) := handleMessage fuel cancelled msg in
      posted :: serve fuel cancelled' rest
  end.

End Greedy.

(* ===================================================================== *)
(** ** simulation/CellBody.ts *)
(* ===================================================================== *)

Definition SeedPos : Type := Q * Q.          (* xy *)

Definition PERSONAL_SPACE : Q := 95 # 100.
Definition MAX_VELOCITY : Q := 6.
Definition ALIGNMENT_FACTOR : Q := 8 # 10.

Definition factorCurve (x : Q) : Q := Qmin 1000 (x * x * x).

Definition Qltb (a b : Q) : bool :=
  (Qnum a * Z.pos (Qden b) <? Qnum b * Z.pos (Qden a))%Z.

Record CellBody := {
  srcx : Q;
  srcy : Q;
  dstx : Q;
  dsty : Q;
  velx : Q;
  vely : Q;
  accx : Q;
  accy : Q;
  dstForce : Q;
  age : Z;
  strokeId : Z
}.

(** [new CellBody(srcx, srcy, dstx, dsty, dstForce)]. *)
Definition newCellBody (srcx srcy dstx dsty dstForce : Q) : CellBody :=
  {| srcx := srcx; srcy := srcy; dstx := dstx; dsty := dsty;
     velx := 0; vely := 0; accx := 0; accy := 0;
     dstForce := dstForce; age := 0; strokeId := 0 |}.

Definition setAcc (ax ay : Q) (c : CellBody) : CellBody :=
  {| srcx := srcx c; srcy := srcy c; dstx := dstx c; dsty := dsty c;
     velx := velx c; vely := vely c; accx := ax; accy := ay;
     dstForce := dstForce c; age := age c; strokeId := strokeId c |}.

Definition setAge (a : Z) (c : CellBody) : CellBody :=
  {| srcx := srcx c; srcy := srcy c; dstx := dstx c; dsty := dsty c;
     velx := velx c; vely := vely c; accx := accx c; accy := accy c;
     dstForce := dstForce c; age := a; strokeId := strokeId c |}.

Module Cell.

(** [update(pos)]: the cell and the position it moves.  Every sum and
    product is rounded to a double, and [0.97] is the double of that
    literal.  A velocity past the range of the doubles is kept as the
    number it rounds to: the code holds the [Infinity] of its sign there,
    which [clamp] takes to the same bound. *)
Definition update (c : CellBody) (pos : SeedPos) : CellBody * SeedPos :=
  let velx1 := JS.double (velx c + accx c) in
  let vely1 := JS.double (vely c + accy c) in
  let velx2 := JS.double (velx1 * JS.double (97 # 100)) in
  let vely2 := JS.double (vely1 * JS.double (97 # 100)) in
  let pos' :=
    (JS.double (pos.1 + JS.clampQ velx2 (- MAX_VELOCITY) MAX_VELOCITY),
     JS.double (pos.2 + JS.clampQ vely2 (- MAX_VELOCITY) MAX_VELOCITY)) in
  ({| srcx := srcx c; srcy := srcy c; dstx := dstx c; dsty := dsty c;
      velx := velx2; vely := vely2; accx := 0; accy := 0;
      dstForce := dstForce c; age := age c + 1; strokeId := strokeId c |},
   pos').

Definition applyWallForce (c : CellBody) (pos : SeedPos) (sidelen pixelSize : Q)
    : CellBody :=
  let personalSpace := (pixelSize * PERSONAL_SPACE * (1 # 2))%Q in
  let ax :=
    if Qltb pos.1 personalSpace then
      (accx c + (personalSpace - pos.1) / personalSpace)%Q
    else if Qltb (sidelen - personalSpace) pos.1 then
      (accx c - (pos.1 - (sidelen - personalSpace)) / personalSpace)%Q
    else accx c in
  let ay :=
    if Qltb pos.2 personalSpace then
      (accy c + (personalSpace - pos.2) / personalSpace)%Q
    else if Qltb (sidelen - personalSpace) pos.2 then
      (accy c - (pos.2 - (sidelen - personalSpace)) / personalSpace)%Q
    else accy c in
  setAcc ax ay c.

Definition applyStrokeAttraction (c : CellBody) (pos otherCell : SeedPos) (weight : Q)
    : CellBody :=
  setAcc (accx c + (otherCell.1 - pos.1) * weight * ALIGNMENT_FACTOR)%Q
         (accy c + (otherCell.2 - pos.2) * weight * ALIGNMENT_FACTOR)%Q c.

Section Floats.

(** [Math.sqrt], and the low word of the bit pattern of a double
    ([posToBits]): the two operations of the cell that rationals do not
    determine. *)
Variable sqrt : Q -> Q.
Variable posToBits : Q -> Z.

(** [seededRandom(seed)] as a rational in [0, 1). *)
Definition seededRandom (seed : Z) : Q :=
  inject_Z (SeededRNG.mix (seed + 0x6d2b79f5)) / inject_Z (2 ^ 32).

Definition applyDstForce (c : CellBody) (pos : SeedPos) (sidelen : Q) : CellBody :=
  let elapsed := (inject_Z (age c) / 60)%Q in
  let factor :=
    if Qeq_bool (dstForce c) 0 then (1 # 10)%Q
    else factorCurve (elapsed * dstForce c) in
  let dx := (dstx c - pos.1)%Q in
  let dy := (dsty c - pos.2)%Q in
  let dist := sqrt (dx * dx + dy * dy)%Q in
  setAcc (accx c + dx * dist * factor / sidelen)%Q
         (accy c + dy * dist * factor / sidelen)%Q c.

(** [applyNeighbourForce]: the cell and the returned weight. *)
Definition applyNeighbourForce (c : CellBody) (pos other : SeedPos) (pixelSize : Q)
    : CellBody * Q :=
  let dx := (other.1 - pos.1)%Q in
  let dy := (other.2 - pos.2)%Q in
  let dist := sqrt (dx * dx + dy * dy)%Q in
  let personalSpace := (pixelSize * PERSONAL_SPACE)%Q in
  let near := Qltb 0 dist && Qltb dist personalSpace in
  let weight :=
    if near then ((1 / dist) * ((personalSpace - dist) / personalSpace))%Q
    else 0%Q in
  let c' :=
    if near then
      setAcc (accx c - dx * weight)%Q (accy c - dy * weight)%Q c
    else if Qeq_bool dist 0 then
      (* the shift count 32 is taken modulo 32 *)
      let seed := JS.ushr (JS.xor32 (posToBits pos.1) (JS.shl32 (posToBits pos.2) 0)) 0 in
      let r1 := seededRandom seed in
      let r2 := seededRandom (seed + 1) in
      setAcc (accx c + (r1 - (1 # 2)) * (1 # 10))%Q
             (accy c + (r2 - (1 # 2)) * (1 # 10))%Q c
    else c in
  (c', Qmax 0 weight).

End Floats.

End Cell.

(* ===================================================================== *)
(** ** simulation/Sim.ts *)
(* ===================================================================== *)

Record Sim := {
  cells : list CellBody;
  simName : string;
  reversed : bool
}.

Definition newSim (name : string) : Sim :=
  {| cells := []; simName := name; reversed := false |}.

Definition swapSrcDst (cell : CellBody) : CellBody :=
  {| srcx := dstx cell; srcy := dsty cell; dstx := srcx cell; dsty := srcy cell;
     velx := velx cell; vely := vely cell; accx := accx cell; accy := accy cell;
     dstForce := dstForce cell; age := 0; strokeId := strokeId cell |}.

(** [switch()]. *)
Definition switch (sim : Sim) : Sim :=
  {| cells := map swapSrcDst (cells sim);
     simName := simName sim;
     reversed := negb (reversed sim) |}.

(** The position writes of [preparePlay]: entry [i] of [positions] takes the
    point [f cells[i]]; a missing [positions[i]] throws ([None]), surplus
    positions stay. *)
Fixpoint placeAt (f : CellBody -> SeedPos) (cells : list CellBody)
    (positions : list SeedPos) : option (list SeedPos) :=
  match cells, positions with
  | [], _ => Some positions
  | _ :: _, [] => None
  | c :: cells', _ :: positions' =>
      rest ← placeAt f cells' positions';
      Some (f c :: rest)
  end.

(** [preparePlay(positions, reverse)]. *)
Definition preparePlay (sim : Sim) (positions : list SeedPos) (reverse : bool)
    : option (Sim * list SeedPos) :=
  if bool_decide (reversed sim = reverse) then
    (* Already in correct direction - reset to source *)
    positions' ← placeAt (fun c => (srcx c, srcy c)) (cells sim) positions;
    Some ({| cells := map (setAge 0) (cells sim);
             simName := simName sim;
             reversed := reversed sim |}, positions')
  else
    (* Switch source/destination *)
    positions' ← placeAt (fun c => (dstx c, dsty c)) (cells sim) positions;
    Some (switch sim, positions').

(** An array slot from a computed index: [None] unless it is a
    non-negative integer. *)
Definition slot (q : Q) : option nat :=
  let r := Qred q in
  if (Z.pos (Qden r) =? 1) && (0 <=? Qnum r) then Some (Z.to_nat (Qnum r)) else None.

Section Step.

Variable sqrt : Q -> Q.
Variable posToBits : Q -> Z.

(** [buildGrid]: one bucket per cell, each position pushed to the bucket of
    its clamped row and column. *)
Definition buildGrid (ncells : nat) (positions : list SeedPos) (gridSize pixelSize : Q)
    : option (list (list nat)) :=
  foldl (fun (acc : option (list (list nat))) '(i, pos) =>
           grid ← acc;
           let x := inject_Z (Qfloor (pos.1 / pixelSize)) in
           let y := inject_Z (Qfloor (pos.2 / pixelSize)) in
           index ← slot (Qmin y (gridSize - 1) * gridSize + Qmin x (gridSize - 1))%Q;
           bucket ← grid !! index;
           Some (<[index := bucket ++ [i]]> grid))
        (Some (replicate ncells []))
        (imap (fun i pos => (i, pos)) positions).

(** What the neighbour scan of cell [i] accumulates: the cell itself and
    [avgXvel], [avgYvel], [count]. *)
Record Scan := {
  me : CellBody;
  avgXvel : Q;
  avgYvel : Q;
  count : Q
}.

(** The body of [for (const other of grid[nIndex])] (lines 215-232). *)
Definition neighbourStep (cells : list CellBody) (positions : list SeedPos)
    (pixelSize : Q) (i : nat) (s : Scan) (other : nat) : option Scan :=
  if bool_decide (other = i) then Some s
  else
    posI ← positions !! i;
    posOther ← positions !! other;
    let '(c1, weight) :=
      Cell.applyNeighbourForce sqrt posToBits (me s) posI posOther pixelSize in
    cellOther ← cells !! other;
    (* Stroke attraction: same strokes stay together *)
    let c2 :=
      if strokeId c1 =? strokeId cellOther
      then Cell.applyStrokeAttraction c1 posI posOther weight
      else c1 in
    Some {| me := c2;
            avgXvel := (avgXvel s + velx cellOther * weight)%Q;
            avgYvel := (avgYvel s + vely cellOther * weight)%Q;
            count := (count s + weight)%Q |}.

Definition scanBucket (cells : list CellBody) (positions : list SeedPos)
    (pixelSize : Q) (i : nat) (bucket : list nat) (s : Scan) : option Scan :=
  foldl (fun acc other => s' ← acc; neighbourStep cells positions pixelSize i s' other)
        (Some s) bucket.

(** The 3x3 offsets in the order of the two [for] loops ([dy] outer). *)
Definition offsets3 : list (Z * Z) :=
  flat_map (fun dy => map (fun dx => (dx, dy)) [0; 1; 2]) [0; 1; 2].

(** The neighbour force and velocity alignment of cell [i] (lines 190-243). *)
Definition scanCell (grid : list (list nat)) (positions : list SeedPos)
    (gridSize pixelSize : Q) (cells : list CellBody) (i : nat)
    : option (list CellBody) :=
  ci ← cells !! i;
  pos ← positions !! i;
  let col := Qfloor (pos.1 / pixelSize) in
  let row := Qfloor (pos.2 / pixelSize) in
  s ← foldl (fun (acc : option Scan) '(dx, dy) =>
               s ← acc;
               let ncol := inject_Z (col + dx - 1) in
               let nrow := inject_Z (row + dy - 1) in
               if Qltb ncol 0 || Qltb nrow 0
                  || negb (Qltb ncol gridSize) || negb (Qltb nrow gridSize)
               then Some s
               else
                 nIndex ← slot (nrow * gridSize + ncol)%Q;
                 bucket ← grid !! nIndex;
                 scanBucket cells positions pixelSize i bucket s)
            (Some {| me := ci; avgXvel := 0; avgYvel := 0; count := 0 |})
            offsets3;
  let c := me s in
  let c' :=
    if Qltb 0 (count s) then
      setAcc (accx c + (avgXvel s / count s - velx c) * ALIGNMENT_FACTOR)%Q
             (accy c + (avgYvel s / count s - vely c) * ALIGNMENT_FACTOR)%Q c
    else c in
  Some (<[i := c']> cells).

(** The integration loop: every cell updates itself and its position. *)
Fixpoint integrate (cells : list CellBody) (positions : list SeedPos)
    : option (list CellBody * list SeedPos) :=
  match cells, positions with
  | [], _ => Some ([], positions)
  | _ :: _, [] => None
  | c :: cells', pos :: positions' =>
      '(cs, ps) ← integrate cells' positions';
      let '(c', pos') := Cell.update c pos in
      Some (c' :: cs, pos' :: ps)
  end.

(** [update(positions, sidelen)]. *)
Definition update (sim : Sim) (positions : list SeedPos) (sidelen : Q)
    : option (Sim * list SeedPos) :=
  let n := length (cells sim) in
  let gridSize := sqrt (inject_Z (Z.of_nat n)) in
  let pixelSize := (sidelen / gridSize)%Q in
  grid ← buildGrid n positions gridSize pixelSize;
  cells1 ← mapM (fun '(i, c) =>
                   pos ← positions !! i;
                   Some (Cell.applyDstForce sqrt
                           (Cell.applyWallForce c pos sidelen pixelSize) pos sidelen))
                (imap (fun i c => (i, c)) (cells sim));
  cells2 ← foldl (fun acc i =>
                    cs ← acc; scanCell grid positions gridSize pixelSize cs i)
                 (Some cells1) (seq 0 n);
  '(cells3, positions') ← integrate cells2 positions;
  Some ({| cells := cells3; simName := simName sim; reversed := reversed sim |},
        positions').

End Step.

(* ===================================================================== *)
(** ** rendering/voronoi.ts *)
(* ===================================================================== *)

Definition SeedColor : Type := Q * Q * Q * Q.       (* rgba *)

Module Voronoi.

(** A distance as the loops hold it: a finite double, or [None] for
    [Infinity] (the initial [minDist], and a sum of squares that left the
    range of the doubles). *)
Definition Dist : Type := option Q.

(** [dx * dx + dy * dy] from a seed to the pixel [(x, y)], each of the
    five operations rounded to a double. *)
Definition sqDist (seed : SeedPos) (x y : Z) : Dist :=
  let dx := JS.double (seed.1 - inject_Z x) in
  let dy := JS.double (seed.2 - inject_Z y) in
  let dist := JS.double (JS.double (dx * dx) + JS.double (dy * dy)) in
  if JS.finite dist then Some dist else None.

(** [dist < minDist]. *)
Definition below (dist minDist : Dist) : bool :=
  match dist, minDist with
  | Some d, Some m => Qltb d m
  | Some _, None => true
  | None, _ => false
  end.

(** The running minimum [(minDist, nearestSeed)]. *)
Definition Nearest : Type := Dist * nat.

Definition start : Nearest := (None, 0%nat).

(** [if (dist < minDist) { minDist = dist; nearestSeed = i; }]. *)
Definition consider (x y : Z) (best : Nearest) (i : nat) (seed : SeedPos) : Nearest :=
  let dist := sqDist seed x y in
  if below dist best.1 then (dist, i) else best.

(** A store into the [Uint8ClampedArray] of an [ImageData]. *)
Definition clampByte (z : Z) : Z := Z.max 0 (Z.min 255 z).

(** The four bytes written for a pixel whose nearest seed is [nearestSeed];
    [None] when [colors[nearestSeed]] is missing. *)
Definition pixelBytes (colors : list SeedColor) (nearestSeed : nat) : option (list Z) :=
  '(r, g, b, _) ← colors !! nearestSeed;
  Some [clampByte (Qfloor (JS.double (r * 255)));
        clampByte (Qfloor (JS.double (g * 255)));
        clampByte (Qfloor (JS.double (b * 255))); 255].

(** The pixels in the order of the two [for] loops ([y] outer). *)
Definition pixelsOf (width height : Z) : list (Z * Z) :=
  flat_map (fun y => map (fun x => (x, y)) (upto width)) (upto height).

(** *** Brute force *)

(** The loop over all seeds (lines 25-36), from a running minimum. *)
Definition scanAll (x y : Z) (best : Nearest) (seeds : list (nat * SeedPos)) : Nearest :=
  foldl (fun best '(i, seed) => consider x y best i seed) best seeds.

Definition nearestBrute (seeds : list SeedPos) (x y : Z) : nat :=
  (scanAll x y start (imap (fun i seed => (i, seed)) seeds)).2.

Definition renderVoronoi (seeds : list SeedPos) (colors : list SeedColor)
    (width height : Z) : option (list Z) :=
  (fun quads => concat quads) <$> mapM (fun '(x, y) => pixelBytes colors (nearestBrute seeds x y))
                  (pixelsOf width height).

(** *** Spatial hashing *)

(** [Math.ceil(Math.sqrt((width * height) / n))]: the least [c] whose square
    reaches the quotient. *)
Definition cellSizeOf (width height : Z) (n : nat) : Z :=
  Z.sqrt_up ((width * height + Z.of_nat n - 1) / Z.of_nat n).

(** [Math.ceil(a / b)] for positive integers. *)
Definition ceilDiv (a b : Z) : Z := (a + b - 1) / b.

Record Grid := {
  cellSize : Z;
  gridCols : Z;
  gridRows : Z;
  buckets : list (list nat)
}.

(** Lines 63-77; [None] when a seed falls on no bucket and [push] throws. *)
Definition buildGrid (seeds : list SeedPos) (width height : Z) : option Grid :=
  let cellSize := cellSizeOf width height (length seeds) in
  let gridCols := ceilDiv width cellSize in
  let gridRows := ceilDiv height cellSize in
  grid ← foldl (fun (acc : option (list (list nat))) '(i, seed) =>
                  grid ← acc;
                  let sx := Qfloor (seed.1 / inject_Z cellSize) in
                  let sy := Qfloor (seed.2 / inject_Z cellSize) in
                  let cellY := Z.min sy (gridRows - 1) in
                  let cellX := Z.min sx (gridCols - 1) in
                  let cellIndex := cellY * gridCols + cellX in
                  bucket ← JS.index grid cellIndex;
                  Some (<[Z.to_nat cellIndex := bucket ++ [i]]> grid))
               (Some (replicate (Z.to_nat (gridRows * gridCols)) []))
               (imap (fun i seed => (i, seed)) seeds);
  Some {| cellSize := cellSize; gridCols := gridCols; gridRows := gridRows;
          buckets := grid |}.

Definition searchRadius : Z := 2.

(** The offsets [(dx, dy)] in the order of the two [for] loops. *)
Definition windowOffsets : list (Z * Z) :=
  let span := map (fun k => Z.of_nat k - searchRadius) (seq 0 5) in
  flat_map (fun dy => map (fun dx => (dx, dy)) span) span.

(** The seed indices met by the scan of the window around pixel [(x, y)],
    in scan order. *)
Definition windowSeeds (g : Grid) (x y : Z) : list nat :=
  let cellX := x / cellSize g in
  let cellY := y / cellSize g in
  flat_map (fun '(dx, dy) =>
              let cy := cellY + dy in
              let cx := cellX + dx in
              if (cx <? 0) || (gridCols g <=? cx) || (cy <? 0) || (gridRows g <=? cy)
              then []
              else default [] (JS.index (buckets g) (cy * gridCols g + cx)))
           windowOffsets.

(** The loop over the seed indices of the scanned buckets (lines 101-112),
    from a running minimum.  Every index in a bucket names a seed. *)
Definition scanBuckets (seeds : list SeedPos) (x y : Z) (best : Nearest)
    (scan : list nat) : Nearest :=
  foldl (fun best seedIdx =>
           match seeds !! seedIdx with
           | Some seed => consider x y best seedIdx seed
           | None => best
           end) best scan.

Definition nearestIn (seeds : list SeedPos) (x y : Z) (scan : list nat) : nat :=
  (scanBuckets seeds x y start scan).2.

Definition nearestOptimized (seeds : list SeedPos) (g : Grid) (x y : Z) : nat :=
  nearestIn seeds x y (windowSeeds g x y).


End Voronoi.

(* ===================================================================== *)
(** ** workers/drawing-worker.ts *)
(* ===================================================================== *)

Module Drawing.

Definition DRAWING_CANVAS_SIZE : Z := 128.
Definition STROKE_REWARD : Z := -10000000000.

Record PixelData := {
  strokeId : Z;
  lastEdited : Q
}.

Record Pixel := {
  srcX : Z;
  srcY : Z;
  h : Z
}.

Definition setH (v : Z) (p : Pixel) : Pixel :=
  {| srcX := srcX p; srcY := srcY p; h := v |}.

(** [strokeReward(newPos, oldPos, pixelData, pixels)]; [None] when an array
    read comes back [undefined] and its field access throws. *)
Definition strokeReward (newPos oldPos : Z) (pixelData : list PixelData)
    (pixels : list Pixel) : option Z :=
  let x := newPos mod DRAWING_CANVAS_SIZE in
  let y := newPos / DRAWING_CANVAS_SIZE in
  old ← JS.index pixels oldPos;
  data ← JS.index pixelData (srcX old + srcY old * DRAWING_CANVAS_SIZE);
  let strokeId0 := strokeId data in
  foldl (fun (acc : option (option Z)) '(dx, dy) =>
           found ← acc;
           match found with
           | Some reward => Some (Some reward)       (* already returned *)
           | None =>
               let nx := x + dx in
               let ny := y + dy in
               if (nx <? 0) || (DRAWING_CANVAS_SIZE <=? nx)
                  || (ny <? 0) || (DRAWING_CANVAS_SIZE <=? ny)
               then Some None
               else
                 let nIndex := ny * DRAWING_CANVAS_SIZE + nx in
                 neighbor ← JS.index pixels nIndex;
                 neighborData ←
                   JS.index pixelData (srcX neighbor + srcY neighbor * DRAWING_CANVAS_SIZE);
                 if strokeId neighborData =? strokeId0
                 then Some (Some STROKE_REWARD) else Some None
           end)
        (Some None) [(0, -1); (-1, 0); (1, 0); (0, 1)]
    ≫= fun found => Some (default 0 found).

(** The colour of a seed as the solver reads it:
    [Math.floor(rgba[k] * 256)]. *)
Definition colorRgb (c : SeedColor) : RGB :=
  let '(r, g, b, _) := c in
  (Qfloor (r * 256), Qfloor (g * 256), Qfloor (b * 256)).

Section Pow.

(** [Math.pow(0.99, x)]. *)
Variable pow099 : Q -> Q.

(** [maxDist(age)]. *)
Definition maxDist (age : Q) : Z :=
  JS.round (inject_Z DRAWING_CANVAS_SIZE / 4 * pow099 (age / 30))%Q.

(** [0 - (pixelData[pos]?.lastEdited ?? 0)]. *)
Definition ageAt (pixelData : list PixelData) (pos : Z) : Q :=
  (0 - match JS.index pixelData pos with
       | Some d => lastEdited d
       | None => 0
       end)%Q.

(** Lines 128-146: the draws of a trial. *)
Definition sampleTrial (sidelen : Z) (pixelData : list PixelData) (n : nat)
    (g : SeededRNG.t) : SeededRNG.t * (Z * Z * Z) :=
  let '(g1, apos) := SeededRNG.range g 0 (Z.of_nat n) in
  let ax := apos mod sidelen in
  let ay := apos / sidelen in
  let maxDistA := maxDist (ageAt pixelData apos) in
  let '(g2, rx) := SeededRNG.range g1 (- maxDistA) (maxDistA + 1) in
  let bx := Z.min (sidelen - 1) (Z.max 0 (ax + rx)) in
  let '(g3, ry) := SeededRNG.range g2 (- maxDistA) (maxDistA + 1) in
  let by_ := Z.min (sidelen - 1) (Z.max 0 (ay + ry)) in
  (g3, (apos, bx, by_)).

(** Lines 148-155: the test that skips the pair. *)
Definition tooFar (sidelen : Z) (pixelData : list PixelData) (apos bx by_ : Z) : bool :=
  let ax := apos mod sidelen in
  let ay := apos / sidelen in
  let bpos := by_ * sidelen + bx in
  let maxDistB := maxDist (ageAt pixelData bpos) in
  (maxDistB <? Z.abs (bx - ax)) || (maxDistB <? Z.abs (by_ - ay)).

Record Session := {
  sessSidelen : Z;
  sessProximity : Z;
  sessTarget : list RGB;
  sessWeights : list Z;
  sessColors : list SeedColor;
  sessPixelData : list PixelData
}.

(** Lines 157-189 on a pair that was not skipped. *)
Definition swapTrial (s : Session) (pixels : list Pixel) (apos bx by_ : Z)
    : option (list Pixel * bool) :=
  let sidelen := sessSidelen s in
  let ax := apos mod sidelen in
  let ay := apos / sidelen in
  let bpos := by_ * sidelen + bx in
  colorA ← JS.index (sessColors s) apos;
  tB ← JS.index (sessTarget s) bpos;
  wB ← JS.index (sessWeights s) bpos;
  rewardA ← strokeReward bpos apos (sessPixelData s) pixels;
  let aOnBH :=
    heuristic (bx, by_) (ax, ay) (colorRgb colorA) tB wB (sessProximity s) + rewardA in
  colorB ← JS.index (sessColors s) bpos;
  tA ← JS.index (sessTarget s) apos;
  wA ← JS.index (sessWeights s) apos;
  rewardB ← strokeReward apos bpos (sessPixelData s) pixels;
  let bOnAH :=
    heuristic (ax, ay) (bx, by_) (colorRgb colorB) tA wA (sessProximity s) + rewardB in
  pa ← JS.index pixels apos;
  pb ← JS.index pixels bpos;
  let improvementA := h pa - bOnAH in
  let improvementB := h pb - aOnBH in
  if 0 <? improvementA + improvementB then
    let a := Z.to_nat apos in
    let b := Z.to_nat bpos in
    let pixels1 := <[a := pb]> pixels in
    let pixels2 := <[b := pa]> pixels1 in
    let pixels3 := alter (setH aOnBH) a pixels2 in
    let pixels4 := alter (setH bOnAH) b pixels3 in
    Some (pixels4, true)
  else Some (pixels, false).

Record LoopState := {
  pixels : list Pixel;
  rng : SeededRNG.t;
  swapsMade : Z
}.

(** One pass of the [for] loop of line 127. *)
Definition trial (s : Session) (st : LoopState) : option LoopState :=
  let '(g, (apos, bx, by_)) :=
    sampleTrial (sessSidelen s) (sessPixelData s) (length (pixels st)) (rng st) in
  if tooFar (sessSidelen s) (sessPixelData s) apos bx by_ then
    Some {| pixels := pixels st; rng := g; swapsMade := swapsMade st |}   (* continue *)
  else
    '(pixels', swapped) ← swapTrial s (pixels st) apos bx by_;
    Some {| pixels := pixels'; rng := g;
            swapsMade := if swapped : bool then swapsMade st + 1 else swapsMade st |}.

Fixpoint trials (s : Session) (k : nat) (st : LoopState) : option LoopState :=
  match k with
  | O => Some st
  | S k' => st' ← trial s st; trials s k' st'
  end.

(** The initial [pixels] array (lines 90-109). *)
Definition initPixels (s : Session) (sourcePixels : list RGB) : option (list Pixel) :=
  mapM (fun '(i, _) =>
          let x := Z.of_nat i mod sessSidelen s in
          let y := Z.of_nat i / sessSidelen s in
          color ← sessColors s !! i;
          t ← sessTarget s !! i;
          w ← sessWeights s !! i;
          Some {| srcX := x; srcY := y;
                  h := heuristic (x, y) (x, y) (colorRgb color) t w (sessProximity s)
                       + STROKE_REWARD |})
       (imap (fun i (rgb : RGB) => (i, rgb)) sourcePixels).

(** The [while (true)] loop: [loopCount] generations so far, [fuel] more
    allowed.  [myId] and [currentId] are the two numbers of the message. *)
Fixpoint drawingLoop (fuel : nat) (s : Session) (myId currentId : Z)
    (loopCount : Z) (px : list Pixel) (g : SeededRNG.t) : Run :=
  match fuel with
  | O => ([], OutOfFuel)
  | S fuel' =>
      if (loopCount mod 100 =? 0) && negb (myId =? currentId) then
        ([Cancelled], Returned)
      else
        match trials s (128 * length px)
                {| pixels := px; rng := g; swapsMade := 0 |} with
        | None => ([], Threw)
        | Some st =>
            let continue_ :=
              drawingLoop fuel' s myId currentId (loopCount + 1) (pixels st) (rng st) in
            if 0 <? swapsMade st then
              post (UpdateAssignments
                      (map (fun p => srcY p * sessSidelen s + srcX p) (pixels st)))
                   continue_
            else continue_
        end
  end.

End Pow.

Section Worker.

Variable drawImageScaled : list Z -> Z -> Z -> list Z.
Variable pow099 : Q -> Q.

(** What the handler sets up before its loop. *)
Definition session (source : UnprocessedPreset) (settings : GenerationSettings)
    (colors : list SeedColor) (pixelData : list PixelData) : Session :=
  let sourcePixels := extractRGB (croppedSource drawImageScaled source settings) in
  let targetPixels := sourcePixels in   (* Drawing mode uses source as target *)
  {| sessSidelen := sidelen settings;
     sessProximity := proximityImportance settings;
     sessTarget := targetPixels;
     sessWeights := map (fun _ => 255) targetPixels;
     sessColors := colors;
     sessPixelData := pixelData |}.

Definition start (source : UnprocessedPreset) (settings : GenerationSettings)
    (colors : list SeedColor) (pixelData : list PixelData) : option LoopState :=
  px ← initPixels (session source settings colors pixelData)
         (extractRGB (croppedSource drawImageScaled source settings));
  Some {| pixels := px; rng := SeededRNG.new 12345; swapsMade := 0 |}.

(** [self.onmessage] of the drawing worker. *)
Definition onmessage (fuel : nat) (source : UnprocessedPreset)
    (settings : GenerationSettings) (colors : list SeedColor)
    (pixelData : list PixelData) (currentId myId : Z) : Run :=
  match start source settings colors pixelData with
  | None => ([], Threw)
  | Some st0 =>
      drawingLoop pow099 fuel (session source settings colors pixelData)
        myId currentId 0 (pixels st0) (rng st0)
  end.

End Worker.

End Drawing.

(* ===================================================================== *)
(** ** Quantities the properties are stated with *)
(* ===================================================================== *)

(** The grid coordinates of the linear position [p = y * sidelen + x]. *)
Definition positionOf (sidelen : Z) (p : nat) : Point :=
  (Z.of_nat p mod sidelen, Z.of_nat p / sidelen).

(** The heuristic of an owner placed at target position [p]: its source
    position and colour against the position and target colour of [p], the
    way [processOptimal] scores a source pixel for a target, and the way
    the initial [h] of [processGenetic] is computed. *)
Definition placedHeuristic (env : SolverEnv) (p : nat) (owner : Pixel) : Z :=
  heuristic (srcX owner, srcY owner) (positionOf (envSidelen env) p) (rgb owner)
    (default (0, 0, 0) (targetPixels env !! p)) (default 0 (weights env !! p))
    (envProximity env).

Definition sumZ (l : list Z) : Z := foldr Z.add 0 l.

(** The summed heuristic of the current placement, and the sum of the
    stored [h] fields. *)
Definition totalPlaced (env : SolverEnv) (pixels : list Pixel) : Z :=
  sumZ (imap (placedHeuristic env) pixels).

Definition totalStored (pixels : list Pixel) : Z := sumZ (map h pixels).

(** The presets carried by the [done] messages of a log. *)
Definition donePresets (log : list ProgressMsg) : list Preset :=
  omap (fun m => match m with Done p => Some p | _ => None end) log.

(** A permutation of [0, n). *)
Definition isPermutationOf (n : Z) (l : list Z) : Prop := l ≡ₚ upto n.

(** What the inner loop of the Greedy solver knows after scanning
    [scanned]: no best yet and everything scanned was consumed, or a best
    that was scanned and is free. *)
Definition bestFound (assigned : gset Z) (scanned : list Z) (best : Best) : Prop :=
  match best.2 with
  | None => best.1 = -1 /\ forall s, s ∈ scanned -> s ∈ assigned
  | Some _ => best.1 ∈ scanned /\ best.1 ∉ assigned
  end.

(** The order of the computed distances, [Infinity] above every double. *)
Definition distLt (a b : Voronoi.Dist) : Prop :=
  match a, b with
  | Some p, Some q => (p < q)%Q
  | Some _, None => True
  | None, _ => False
  end.

Definition distLe (a b : Voronoi.Dist) : Prop :=
  match a, b with
  | Some p, Some q => (p <= q)%Q
  | _, None => True
  | None, Some _ => False
  end.


(** [best] is the running minimum of a scan that started from
    [Voronoi.start] and has met the indexed seeds [seen]: either every seed
    met was at distance [Infinity] and the scan still holds what it started
    from, or it holds the first of the nearest seeds met: one of them, at a
    finite distance, strictly nearer than those met before it and at least
    as near as those met after it. *)
Definition nearestFirst (x y : Z) (seen : list (nat * SeedPos))
    (best : Voronoi.Nearest) : Prop :=
  (best = Voronoi.start
   /\ forall j sj, (j, sj) ∈ seen -> Voronoi.sqDist sj x y = None)
  \/ exists seed before after,
       seen = before ++ (best.2, seed) :: after
       /\ best.1 = Voronoi.sqDist seed x y
       /\ is_Some best.1
       /\ (forall j sj, (j, sj) ∈ before ->
             distLt best.1 (Voronoi.sqDist sj x y))
       /\ (forall j sj, (j, sj) ∈ after ->
             distLe best.1 (Voronoi.sqDist sj x y)).

(** The four coordinates [preparePlay] exchanges. *)
Definition endpoints (c : CellBody) : Q * Q * Q * Q :=
  (srcx c, srcy c, dstx c, dsty c).

(** The scan of a cell before its first neighbour. *)
Definition freshScan (c : CellBody) : Scan :=
  {| me := c; avgXvel := 0; avgYvel := 0; count := 0 |}.

(** The radius the specification words give a session of side [S]:
    [round((S / 4) * 0.99^(age / 30))]. *)
Definition specMaxDist (pow099 : Q -> Q) (S : Z) (age : Q) : Z :=
  JS.round (inject_Z S / 4 * pow099 (age / 30))%Q.

(* ===================================================================== *)
(** ** Stand-ins for the platform *)
(* ===================================================================== *)

(** The functions the model takes as parameters, instantiated where a run
    has to be evaluated. *)

(** A canvas that scales by picking the nearest source pixel. *)
Definition nearestNeighbour (rgba : list Z) (cropSide targetSideLen : Z) : list Z :=
  flat_map (fun '(x, y) =>
              let sx := x * cropSide / targetSideLen in
              let sy := y * cropSide / targetSideLen in
              take 4 (drop (Z.to_nat ((sy * cropSide + sx) * 4)) rgba))
           (flat_map (fun y => map (fun x => (x, y)) (upto targetSideLen))
                     (upto targetSideLen)).

(** [Math.pow(0.99, x)]: exact at the integers, linear in between. *)
Definition pow099Model (x : Q) : Q :=
  let n := Qfloor x in
  ((99 # 100) ^ n * (1 - (x - inject_Z n) / 100))%Q.

(** [Math.sqrt]: exact on the squares of rationals, rounded down to the
    denominator otherwise. *)
Definition sqrtModel (q : Q) : Q :=
  Z.sqrt (Qnum q * Z.pos (Qden q)) # Qden q.

(** [posToBits]; it is read only when two cells coincide. *)
Definition noBits (_ : Q) : Z := 0.

(* ===================================================================== *)
(** ** Concrete inputs *)
(* ===================================================================== *)

Definition identityCrop : CropScale.t :=
  {| CropScale.scale := 1; CropScale.x := 0; CropScale.y := 0 |}.

(** An image whose pixels carry the given red channel, green and blue 0. *)
Definition redImage (name : string) (width height : Z) (reds : list Z)
    : UnprocessedPreset :=
  {| name := name; width := width; height := height;
     sourceImg := flat_map (fun v => [v; 0; 0]) reds |}.

(** A 2x2 source and a 2x2 custom target, solved at side 2 with the default
    proximity importance. *)
Definition source2x2 : UnprocessedPreset := redImage "source" 2 2 [8; 0; 1; 5].

Definition target2x2 : UnprocessedPreset := redImage "target" 2 2 [0; 10; 1; 5].

Definition settings2x2 : GenerationSettings :=
  {| id := "e"; settingsName := "swap"; proximityImportance := 13;
     algorithm := Genetic; sidelen := 2; customTarget := Some target2x2;
     targetCropScale := identityCrop; sourceCropScale := identityCrop |}.

(** A 2x1 image and a one-pixel image, to be solved at side 1. *)
Definition source2x1 : UnprocessedPreset :=
  {| name := "wide"; width := 2; height := 1;
     sourceImg := [10; 20; 30; 40; 50; 60] |}.

Definition source1x1 : UnprocessedPreset :=
  {| name := "dot"; width := 1; height := 1; sourceImg := [10; 20; 30] |}.

Definition settingsSide1 : GenerationSettings :=
  {| id := "e"; settingsName := "wide"; proximityImportance := 13;
     algorithm := Genetic; sidelen := 1; customTarget := None;
     targetCropScale := identityCrop; sourceCropScale := identityCrop |}.

(** A drawing session of side 64 on a black image.  Every pixel is
    untouched (stroke 0, last edited at tick 0), except the two at linear
    positions 2711 and 3935, last edited 3900 ticks ago. *)
Definition blackSource64 : UnprocessedPreset :=
  {| name := "black"; width := 64; height := 64;
     sourceImg := replicate (64 * 64 * 3) 0 |}.

Definition settings64 : GenerationSettings :=
  {| id := "draw"; settingsName := "draw"; proximityImportance := 13;
     algorithm := Genetic; sidelen := 64; customTarget := None;
     targetCropScale := identityCrop; sourceCropScale := identityCrop |}.

Definition colors64 : list SeedColor := replicate (64 * 64) (0, 0, 0, 1)%Q.

Definition pixelData64 : list Drawing.PixelData :=
  <[3935%nat := {| Drawing.strokeId := 0; Drawing.lastEdited := -3900 |}]>
    (<[2711%nat := {| Drawing.strokeId := 0; Drawing.lastEdited := -3900 |}]>
       (replicate (128 * 128)
          {| Drawing.strokeId := 0; Drawing.lastEdited := 0 |})).

Definition session64 : Drawing.Session :=
  Drawing.session nearestNeighbour blackSource64 settings64 colors64 pixelData64.

(** A loop state of that session with every pixel at home. *)
Definition fresh64 : Drawing.LoopState :=
  {| Drawing.pixels :=
       map (fun i => {| Drawing.srcX := i mod 64; Drawing.srcY := i / 64;
                        Drawing.h := Drawing.STROKE_REWARD |}) (upto (64 * 64));
     Drawing.rng := SeededRNG.new 12345;
     Drawing.swapsMade := 0 |}.

(** Two cells that were never painted, a quarter of a pixel apart in an
    arena of pixel size 1. *)
Definition cellA : CellBody := newCellBody (1 # 2) (1 # 2) (3 # 2) (1 # 2) (13 # 100).

Definition cellB : CellBody := newCellBody (3 # 2) (1 # 2) (1 # 2) (1 # 2) (13 # 100).

Definition simAB : Sim :=
  {| cells := [cellA; cellB]; simName := "pair"; reversed := false |}.

Definition positionsAB : list SeedPos := [(1 # 2, 1 # 2); (3 # 4, 1 # 2)]%Q.

(** [cellB] after a stroke with identifier 3. *)
Definition cellBPainted : CellBody :=
  {| srcx := srcx cellB; srcy := srcy cellB; dstx := dstx cellB; dsty := dsty cellB;
     velx := 0; vely := 0; accx := 0; accy := 0; dstForce := dstForce cellB;
     age := 0; strokeId := 3 |}.

(** A cell moving right at more than [MAX_VELOCITY], and the position
    whose first coordinate is the double of the literal [0.7]. *)
Definition cellFast : CellBody :=
  {| srcx := 0; srcy := 0; dstx := 0; dsty := 0;
     velx := 100; vely := 0; accx := 0; accy := 0;
     dstForce := 0; age := 0; strokeId := 0 |}.

Definition pos07 : SeedPos := (JS.double (7 # 10), 0%Q).

(** Sixteen seeds on an 8x8 image (cell size 2, a 4x4 grid): seed 0 at
    (6, 0), seed 1 at (5, 5), the other fourteen at (7, 7); seed 0 is white,
    seed 1 red, the others black. *)
Definition seeds16 : list SeedPos :=
  (6, 0)%Q :: (5, 5)%Q :: replicate 14 (7, 7)%Q.


Definition grid16 : Voronoi.Grid :=
  {| Voronoi.cellSize := 2; Voronoi.gridCols := 4; Voronoi.gridRows := 4;
     Voronoi.buckets :=
       [[]; []; []; [0%nat]; []; []; []; []; []; []; [1%nat]; [];
        []; []; []; seq 2 14] |}.

(* ===================================================================== *)
(** ** Further functions of the sources, and what their properties are
       stated with *)
(* ===================================================================== *)

(** The polynomial [c0 * 31^(n-1) + ... + c(n-1)] of a sequence of code
    units, by Horner's rule. *)
Definition hashPolynomial (units : list Z) : Z :=
  fold_left (fun acc c => 31 * acc + c) units 0.

(** The bytes of a list of pixels, three per pixel: the layout
    [extractRGB] reads. *)
Definition flattenRGB (l : list RGB) : list Z :=
  flat_map (fun '(r, g, b) => [r; g; b]) l.

(** A colour of three bytes, and a buffer of whole pixels of bytes: what
    the [Uint8Array] of an image holds. *)
Definition byteRGB (c : RGB) : Prop :=
  let '(r, g, b) := c in 0 <= r <= 255 /\ 0 <= g <= 255 /\ 0 <= b <= 255.

Definition byteTriples (data : list Z) : Prop :=
  (length data mod 3 = 0)%nat /\ Forall (fun b => 0 <= b <= 255) data.

(** A bound on the heuristics a solver of side [S] computes on bytes with
    weights up to 255, the proximity importance counted as at least 1:
    below 2^53 every operation of [heuristic] on doubles is exact, and so
    is the arithmetic on indices up to [S * S]. *)
Definition heuristicBound (sidelen proximity : Z) : Z :=
  (2 * sidelen ^ 2 * Z.max 1 (Z.abs proximity)) ^ 2 + 3 * 255 ^ 3.

(** A request on which the doubles of the solvers compute as the integers
    do: both cropped images are whole pixels of bytes, and the side and
    the proximity importance keep every heuristic below 2^53. *)
Definition exactRequest (drawImageScaled : list Z -> Z -> Z -> list Z)
    (source : UnprocessedPreset) (settings : GenerationSettings) : Prop :=
  byteTriples (croppedSource drawImageScaled source settings)
  /\ match customTarget settings with
     | Some target =>
         byteTriples (applyCropScale drawImageScaled (sourceImg target) (width target)
                        (height target) (sidelen settings) (targetCropScale settings))
     | None => True
     end
  /\ heuristicBound (sidelen settings) (proximityImportance settings) < 2 ^ 53.

(** The same for the arrays the inner loop of the Greedy solver reads. *)
Definition exactScores (env : SolverEnv) (sourcePixels : list RGB) : Prop :=
  Forall byteRGB sourcePixels
  /\ Forall byteRGB (targetPixels env)
  /\ Forall (fun w => 0 <= w <= 255) (weights env)
  /\ 1 <= envSidelen env
  /\ heuristicBound (envSidelen env) (envProximity env) < 2 ^ 53.

(** The environment and the initial array of [processGenetic] on the 2x2
    example, written out. *)
Definition env2x2 : SolverEnv :=
  {| targetPixels := [(0, 0, 0); (10, 0, 0); (1, 0, 0); (5, 0, 0)];
     weights := [255; 255; 255; 255];
     envSidelen := 2; envProximity := 13 |}.

Definition pixels2x2 : list Pixel :=
  [ {| srcX := 0; srcY := 0; rgb := (8, 0, 0); h := 16320 |};
    {| srcX := 1; srcY := 0; rgb := (0, 0, 0); h := 25500 |};
    {| srcX := 0; srcY := 1; rgb := (1, 0, 0); h := 0 |};
    {| srcX := 1; srcY := 1; rgb := (5, 0, 0); h := 0 |} ].

(** Generations after which the loop of [processGenetic] has ended, from
    the radius and the array it starts with. *)
Definition generationBound (maxDist : Z) (px : list Pixel) : nat :=
  S (Z.to_nat (Z.max 2 maxDist + totalStored px)).

(** That bound for a request to the Genetic solver. *)
Definition requestBound (drawImageScaled : list Z -> Z -> Z -> list Z)
    (source : UnprocessedPreset) (settings : GenerationSettings) : nat :=
  match geneticStart drawImageScaled source settings with
  | Some st0 => generationBound (sidelen settings) (pixels st0)
  | None => 0%nat
  end.

(** A request whose two images come out of [applyCropScale] at the size
    the solvers index them by: [S * S] pixels each, for a side [S] of at
    least 1. *)
Definition sized (drawImageScaled : list Z -> Z -> Z -> list Z)
    (source : UnprocessedPreset) (settings : GenerationSettings) : Prop :=
  let n := Z.to_nat (sidelen settings * sidelen settings) in
  let sourcePixels := extractRGB (croppedSource drawImageScaled source settings) in
  1 <= sidelen settings
  /\ length sourcePixels = n
  /\ length (targetPixelsOf drawImageScaled sourcePixels settings) = n.

(** The score of the inner loop of [processOptimal] (lines 267-278): the
    heuristic of source pixel [srcIdx] for the target [targetIdx]; [None]
    when a colour or the weight is missing and the call throws. *)
Definition greedyScore (env : SolverEnv) (sourcePixels : list RGB)
    (targetIdx srcIdx : Z) : option Z :=
  let sidelen := envSidelen env in
  sourceColor ← JS.index sourcePixels srcIdx;
  targetColor ← JS.index (targetPixels env) targetIdx;
  w ← JS.index (weights env) targetIdx;
  Some (heuristic (srcIdx mod sidelen, srcIdx / sidelen)
          (targetIdx mod sidelen, targetIdx / sidelen)
          sourceColor targetColor w (envProximity env)).

(** What the inner loop holds after scanning [scanned]: nothing, when
    every scanned source was taken; otherwise a free source that was
    scanned, with its score, strictly below the free sources scanned before
    it and not above those scanned after it. *)
Definition leastFree (env : SolverEnv) (sourcePixels : list RGB) (assigned : gset Z)
    (targetIdx : Z) (scanned : list Z) (best : Best) : Prop :=
  (forall s, s ∈ scanned -> s ∉ assigned ->
             is_Some (greedyScore env sourcePixels targetIdx s))
  /\ match best.2 with
     | None => best.1 = -1 /\ (forall s, s ∈ scanned -> s ∈ assigned)
     | Some score =>
         exists before after,
           scanned = before ++ best.1 :: after
           /\ (best.1 ∉ assigned)
           /\ greedyScore env sourcePixels targetIdx best.1 = Some score
           /\ (forall s score', s ∈ before -> s ∉ assigned ->
                 greedyScore env sourcePixels targetIdx s = Some score' ->
                 score < score')
           /\ (forall s score', s ∈ after -> s ∉ assigned ->
                 greedyScore env sourcePixels targetIdx s = Some score' ->
                 score <= score')
     end.

(** The messages a solver posts while it works. *)
Definition isInterim (m : ProgressMsg) : Prop :=
  match m with
  | Progress _ | UpdatePreview _ _ _ => True
  | _ => False
  end.

(** The shape of the log of a run that is not cancelled. *)
Definition runShape (r : Run) : Prop :=
  match r.2 with
  | Returned => exists body p, r.1 = body ++ [Done p] /\ Forall isInterim body
  | _ => Forall isInterim r.1
  end.

(** A log that ends a request: interim messages, then one [done] or
    [error]. *)
Definition answered (log : list ProgressMsg) : Prop :=
  exists body last,
    log = body ++ [last]
    /\ Forall isInterim body
    /\ (last = Error \/ exists p, last = Done p).

(** The four bytes of an opaque pixel. *)
Definition opaquePixel (q : list Z) : Prop :=
  exists r g b,
    q = [r; g; b; 255] /\ 0 <= r <= 255 /\ 0 <= g <= 255 /\ 0 <= b <= 255.

(** What the forces of a step leave alone in a cell: everything but the
    acceleration. *)
Definition sameBody (c c' : CellBody) : Prop :=
  endpoints c' = endpoints c
  /\ velx c' = velx c /\ vely c' = vely c
  /\ dstForce c' = dstForce c /\ age c' = age c /\ strokeId c' = strokeId c.

(** Four cells at the centres of a 2x2 grid of pixel size 1, each bound
    for another centre. *)
Definition simGrid2 : Sim :=
  {| cells := [newCellBody (1 # 2) (1 # 2) (3 # 2) (3 # 2) (13 # 100);
               newCellBody (3 # 2) (1 # 2) (1 # 2) (1 # 2) (13 # 100);
               newCellBody (1 # 2) (3 # 2) (1 # 2) (3 # 2) (13 # 100);
               newCellBody (3 # 2) (3 # 2) (3 # 2) (1 # 2) (13 # 100)];
     simName := "grid"; reversed := false |}.

Definition positionsGrid2 : list SeedPos :=
  [(1 # 2, 1 # 2); (3 # 2, 1 # 2); (1 # 2, 3 # 2); (3 # 2, 3 # 2)]%Q.

(** Four cells in play on a 2x2 grid of pixel size 1: each has a velocity
    and an age, cells 0 and 1 carry stroke 3, and the seeds of cells 0 and
    1 are half a pixel apart. *)
Definition movingCell (srcx srcy dstx dsty velx vely : Q) (age strokeId : Z) : CellBody :=
  {| srcx := srcx; srcy := srcy; dstx := dstx; dsty := dsty;
     velx := velx; vely := vely; accx := 0; accy := 0;
     dstForce := 1 # 8; age := age; strokeId := strokeId |}.

Definition simMoving : Sim :=
  {| cells := [movingCell (1 # 2) (1 # 2) (3 # 2) (3 # 2) 1 0 7 3;
               movingCell (3 # 2) (1 # 2) (1 # 2) (1 # 2) (-1) (1 # 2) 7 3;
               movingCell (1 # 2) (3 # 2) (1 # 2) (3 # 2) 0 (1 # 4) 60 0;
               movingCell (3 # 2) (3 # 2) (3 # 2) (1 # 2) 8 (-8) 120 0];
     simName := "moving"; reversed := true |}.

Definition positionsMoving : list SeedPos :=
  [(1 # 2, 1 # 2); (1, 1 # 2); (1 # 2, 3 # 2); (3 # 2, 5 # 4)]%Q.

(** [a % b] on numbers: what is left of [a] after the truncated
    quotient. *)
Definition Qtruncate (q : Q) : Z := if Qltb q 0 then Qceiling q else Qfloor q.

Definition jsRemainder (a b : Q) : Q := (a - b * inject_Z (Qtruncate (a / b)))%Q.

(** Lines 284-298 of [setAssignments]: the cell built for the source index
    [srcIdx] seen at place [dstIdx], from the cell [prev] it replaces. *)
Definition placedCell (width pixelSize : Q) (dstIdx : nat) (srcIdx : Z)
    (prev : CellBody) : CellBody :=
  let srcX := (jsRemainder (inject_Z srcIdx) width + (1 # 2))%Q in
  let srcY := (inject_Z (Qfloor (inject_Z srcIdx / width)) + (1 # 2))%Q in
  let dstX := (jsRemainder (inject_Z (Z.of_nat dstIdx)) width + (1 # 2))%Q in
  let dstY := (inject_Z (Qfloor (inject_Z (Z.of_nat dstIdx) / width)) + (1 # 2))%Q in
  let cell := newCellBody (srcX * pixelSize) (srcY * pixelSize)
                (dstX * pixelSize) (dstY * pixelSize) (dstForce prev) in
  {| srcx := srcx cell; srcy := srcy cell; dstx := dstx cell; dsty := dsty cell;
     velx := velx cell; vely := vely cell; accx := accx cell; accy := accy cell;
     dstForce := dstForce cell; age := age prev; strokeId := strokeId prev |}.

(** One pass of the loop of [setAssignments] (lines 282-299); [None] when
    [cells[srcIdx]] is missing and reading its [dstForce] throws. *)
Definition assignStep (width pixelSize : Q) (acc : option (list CellBody))
    (p : nat * Z) : option (list CellBody) :=
  let '(dstIdx, srcIdx) := p in
  cells ← acc;
  prev ← JS.index cells srcIdx;
  Some (<[Z.to_nat srcIdx := placedCell width pixelSize dstIdx srcIdx prev]> cells).

Section Assignments.

Variable sqrt : Q -> Q.

(** [setAssignments(assignments, sidelen)]. *)
Definition setAssignments (sim : Sim) (assignments : list Z) (sidelen : Q)
    : option Sim :=
  let width := sqrt (inject_Z (Z.of_nat (length (cells sim)))) in
  let pixelSize := (sidelen / width)%Q in
  cells' ← foldl (assignStep width pixelSize) (Some (cells sim))
             (imap (fun i s => (i, s)) assignments);
  Some {| cells := cells'; simName := simName sim; reversed := reversed sim |}.

End Assignments.

(** The centre of grid cell [k] in a grid [width] cells wide. *)
Definition gridCentre (width : Z) (pixelSize : Q) (k : Z) : SeedPos :=
  ((inject_Z (k mod width) + (1 # 2)) * pixelSize,
   (inject_Z (k / width) + (1 # 2)) * pixelSize)%Q.

(** The assignment array the drawing worker sends for a pixel array. *)
Definition drawingAssignments (sidelen : Z) (pixels : list Drawing.Pixel) : list Z :=
  map (fun p => Drawing.srcY p * sidelen + Drawing.srcX p) pixels.

(** A one-pixel drawing session. *)
Definition colors1x1 : list SeedColor := [(0, 0, 0, 1)%Q].

Definition pixelData1x1 : list Drawing.PixelData :=
  [{| Drawing.strokeId := 0; Drawing.lastEdited := 0 |}].

(** A 2x2 drawing session on [source2x2] whose colours at the positions 0
    and 3 are those of each other's target pixel; no pixel carries a
    stroke. *)
Definition settingsDraw2 : GenerationSettings :=
  {| id := "draw"; settingsName := "draw"; proximityImportance := 13;
     algorithm := Genetic; sidelen := 2; customTarget := None;
     targetCropScale := identityCrop; sourceCropScale := identityCrop |}.

Definition colors2x2 : list SeedColor :=
  [(5 # 256, 0, 0, 1); (0, 0, 0, 1); (1 # 256, 0, 0, 1); (8 # 256, 0, 0, 1)]%Q.

Definition pixelData2x2 : list Drawing.PixelData :=
  replicate (128 * 128) {| Drawing.strokeId := 0; Drawing.lastEdited := 0 |}.


(* ===================================================================== *)
(** * Properties *)
(* ===================================================================== *)

(** ** Arrays and options *)

Lemma bind_Some {A B} (f : A -> option B) (a : A) : Some a ≫= f = f a.
Proof. reflexivity. Qed.

Lemma index_Some {A} (l : list A) (i : Z) (v : A) :
  JS.index l i = Some v -> 0 <= i /\ l !! Z.to_nat i = Some v.
Proof.
  unfold JS.index. destruct (Z.ltb_spec i 0); [discriminate | auto].
Qed.

Lemma index_nat {A} (l : list A) (i : nat) : JS.index l (Z.of_nat i) = l !! i.
Proof.
  unfold JS.index. destruct (Z.ltb_spec (Z.of_nat i) 0); [lia |].
  by rewrite Nat2Z.id.
Qed.

(** Only a [done] message adds to the presets of a log. *)
Lemma donePresets_post_other (m : ProgressMsg) (r : Run) :
  (forall p, m <> Done p) -> donePresets (post m r).1 = donePresets r.1.
Proof.
  intros Hm. unfold post, donePresets. cbn [fst omap list_omap].
  destruct m; try reflexivity. exfalso. by eapply Hm.
Qed.

Lemma sumZ_app (l1 l2 : list Z) : sumZ (l1 ++ l2) = sumZ l1 + sumZ l2.
Proof. induction l1 as [| v l1 IH]; simpl; [reflexivity | rewrite IH; lia]. Qed.

(** Overwriting one slot moves the sum by the difference of the values. *)
Lemma sumZ_insert {A} (f : A -> Z) (l : list A) (i : nat) (v w : A) :
  l !! i = Some v ->
  sumZ (map f (<[i := w]> l)) = sumZ (map f l) - f v + f w.
Proof.
  revert i. induction l as [| u l IH]; intros [| i] Hi; simplify_eq/=.
  - lia.
  - rewrite (IH i Hi). lia.
Qed.

Lemma sumZ_alter {A} (f : A -> Z) (g : A -> A) (l : list A) (i : nat) (v : A) :
  l !! i = Some v ->
  sumZ (map f (alter g i l)) = sumZ (map f l) - f v + f (g v).
Proof.
  revert i. induction l as [| u l IH]; intros [| i] Hi; simplify_eq/=.
  - lia.
  - rewrite (IH i Hi). lia.
Qed.

(** ** The seeded generator *)

Lemma toDouble_nonneg (z : Z) : 0 <= z -> 0 <= JS.toDouble z.
Proof.
  intros Hz. unfold JS.toDouble.
  destruct (Z.ltb_spec z (2 ^ 53)) as [| Hbig]; [exact Hz |].
  assert (0 <= Z.log2 z - 52).
  { assert (53 <= Z.log2 z) by (apply Z.log2_le_pow2; lia). lia. }
  rewrite Z.shiftr_div_pow2, !Z.shiftl_mul_pow2 by lia.
  assert (0 < 2 ^ (Z.log2 z - 52)) by (apply Z.pow_pos_nonneg; lia).
  assert (0 <= z / 2 ^ (Z.log2 z - 52)) by (apply Z.div_pos; lia).
  repeat match goal with |- context [if ?b then _ else _] => destruct b end; nia.
Qed.

(** Rounding to a double adds at most one part in 2^53. *)
Lemma toDouble_upper (z : Z) :
  0 <= z -> 2 ^ 53 * JS.toDouble z <= (2 ^ 53 + 1) * z.
Proof.
  intros Hz. unfold JS.toDouble.
  destruct (Z.ltb_spec z (2 ^ 53)) as [| Hbig]; [lia |].
  assert (Hlog : 53 <= Z.log2 z) by (apply Z.log2_le_pow2; lia).
  destruct (Z.log2_spec z) as [Hlo _]; [lia |].
  set (e := Z.log2 z - 52) in *.
  replace (Z.log2 z) with (52 + e) in Hlo by (unfold e; lia).
  rewrite Z.pow_add_r in Hlo by lia.
  rewrite Z.shiftr_div_pow2, !Z.shiftl_mul_pow2 by lia.
  assert (HP : 2 ^ e = 2 * 2 ^ (e - 1)).
  { replace e with (1 + (e - 1)) at 1 by lia. rewrite Z.pow_add_r by lia. lia. }
  assert (0 < 2 ^ (e - 1)) by (apply Z.pow_pos_nonneg; lia).
  set (P := 2 ^ e) in *. set (Hf := 2 ^ (e - 1)) in *.
  pose proof (Z.div_mod z P ltac:(lia)) as Hdm.
  pose proof (Z.mod_pos_bound z P ltac:(lia)) as Hr.
  set (q := z / P) in *. set (r := z mod P) in *.
  replace (z - q * P) with r by lia.
  replace (1 * Hf) with Hf by lia.
  destruct (Z.ltb_spec r Hf); [lia |].
  destruct (Z.ltb_spec Hf r); [lia |].
  destruct (Z.even q); lia.
Qed.

Lemma mix_bounds (s : Z) : 0 <= SeededRNG.mix s < 2 ^ 32.
Proof.
  unfold SeededRNG.mix, JS.ushr at 1. rewrite Z.shiftr_0_r.
  unfold JS.toUint32. apply Z.mod_pos_bound. lia.
Qed.

(** [range(min, max)] stays in the half-open interval. *)
Lemma range_bounds (g : SeededRNG.t) (lo hi : Z) :
  lo < hi -> lo <= (SeededRNG.range g lo hi).2 < hi.
Proof.
  intros Hlt. unfold SeededRNG.range, SeededRNG.next. cbn [snd].
  pose proof (mix_bounds (JS.toDouble (g + 0x6d2b79f5))) as Hu.
  set (u := SeededRNG.mix _) in *.
  set (k := hi - lo) in *.
  pose proof (toDouble_nonneg (u * k) ltac:(nia)) as H0.
  pose proof (toDouble_upper (u * k) ltac:(nia)) as H1.
  set (d := JS.toDouble (u * k)) in *.
  change (2 ^ 32) with 4294967296 in *.
  change (2 ^ 53) with 9007199254740992 in *.
  assert (Huk : u * k <= 4294967295 * k) by nia.
  assert (0 <= d / 4294967296) by (apply Z.div_pos; lia).
  assert (d / 4294967296 < k).
  { apply Z.div_lt_upper_bound; lia. }
  lia.
Qed.

Lemma range_state (g : SeededRNG.t) (lo hi lo' hi' : Z) :
  (SeededRNG.range g lo hi).1 = (SeededRNG.range g lo' hi').1.
Proof. reflexivity. Qed.

(** ** [applyCropScale] *)

(** The early return hands back the whole source buffer. *)
Lemma applyCropScale_same_side drawImageScaled sourceImg sourceWidth sourceHeight
    targetSideLen cropScale :
  cropSideOf sourceWidth sourceHeight cropScale = targetSideLen ->
  applyCropScale drawImageScaled sourceImg sourceWidth sourceHeight targetSideLen
    cropScale = sourceImg.
Proof.
  intros H. unfold applyCropScale. rewrite H, Z.eqb_refl. reflexivity.
Qed.

Lemma typedArray_length (n : Z) (l : list Z) : length (typedArray n l) = Z.to_nat n.
Proof.
  unfold typedArray. rewrite length_take, length_app, length_replicate. lia.
Qed.

(** The resizing path returns a buffer of [3 * S * S] bytes. *)
Lemma applyCropScale_resized_length drawImageScaled sourceImg sourceWidth sourceHeight
    targetSideLen cropScale :
  cropSideOf sourceWidth sourceHeight cropScale <> targetSideLen ->
  length (applyCropScale drawImageScaled sourceImg sourceWidth sourceHeight
            targetSideLen cropScale)
  = Z.to_nat (targetSideLen * targetSideLen * 3).
Proof.
  intros H. unfold applyCropScale.
  destruct (Z.eqb_spec (cropSideOf sourceWidth sourceHeight cropScale) targetSideLen);
    [contradiction |].
  apply typedArray_length.
Qed.

(** C6, at the failing input.  A 2x1 image cropped to side 1 has crop side
    1, equal to the target side, and [applyCropScale] returns the six bytes
    of the uncropped image instead of three. *)
Theorem applyCropScale_returns_uncropped (drawImageScaled : list Z -> Z -> Z -> list Z) :
  cropSideOf (width source2x1) (height source2x1) identityCrop = 1
  /\ applyCropScale drawImageScaled (sourceImg source2x1) (width source2x1)
       (height source2x1) 1 identityCrop = [10; 20; 30; 40; 50; 60]
  /\ length (applyCropScale drawImageScaled (sourceImg source2x1)
               (width source2x1) (height source2x1) 1 identityCrop) = 6%nat
  /\ Z.to_nat (3 * 1 * 1) = 3%nat.
Proof.
  assert (Hside : cropSideOf (width source2x1) (height source2x1) identityCrop = 1)
    by (vm_compute; reflexivity).
  rewrite (applyCropScale_same_side _ _ _ _ _ _ Hside).
  repeat split; reflexivity.
Qed.

(** ** The Genetic solver: acceptance and the stored sum *)

Section GeneticTrial.

Variable env : SolverEnv.

(** The test of a trial is the sign of [(h[a] - h'_b) + (h[b] - h'_a)]. *)
Lemma swapTrial_accepts_iff pixels apos bx by_ pa pb aOnBH bOnAH pixels' swapped :
  JS.index pixels apos = Some pa ->
  JS.index pixels (by_ * envSidelen env + bx) = Some pb ->
  trialHeuristics env pixels apos bx by_ = Some (aOnBH, bOnAH) ->
  swapTrial env pixels apos bx by_ = Some (pixels', swapped) ->
  swapped = true <-> 0 < (h pa - bOnAH) + (h pb - aOnBH).
Proof.
  intros Ha Hb Hh. unfold swapTrial, accepts. rewrite Hh, Ha, Hb. simpl.
  destruct (Z.ltb_spec 0 (h pa - bOnAH + (h pb - aOnBH))) as [Hlt | Hge].
  - unfold swapPixels. rewrite Ha, Hb. simpl. intros [= <- <-]. tauto.
  - intros [= <- <-]. split; [discriminate | lia].
Qed.

(** A rejected trial leaves the array as it was. *)
Lemma swapTrial_rejected pixels apos bx by_ pixels' :
  swapTrial env pixels apos bx by_ = Some (pixels', false) -> pixels' = pixels.
Proof.
  unfold swapTrial. intros H.
  destruct (trialHeuristics _ _ _ _ _) as [[x y] |]; simplify_eq/=.
  destruct (accepts _ _ _ _ _) as [[] |]; simplify_eq/=.
  - destruct (swapPixels _ _ _ _ _); simplify_eq/=.
  - reflexivity.
Qed.

(** The sum of the stored values after the four writes of a swap. *)
Lemma swapPixels_stored pixels apos bpos pa pb x y pixels' :
  JS.index pixels apos = Some pa ->
  JS.index pixels bpos = Some pb ->
  (apos = bpos -> x = y) ->
  swapPixels pixels apos bpos x y = Some pixels' ->
  (if bool_decide (apos = bpos)
   then totalStored pixels' = totalStored pixels - h pa + y
   else totalStored pixels' = totalStored pixels - h pa - h pb + x + y).
Proof.
  intros Ha Hb Hxy. unfold swapPixels. rewrite Ha, Hb. simpl. intros [= <-].
  apply index_Some in Ha as [Ha0 Ha], Hb as [Hb0 Hb].
  set (a := Z.to_nat apos) in *. set (b := Z.to_nat bpos) in *.
  assert (Hla : (a < length pixels)%nat) by (by eapply lookup_lt_Some).
  assert (Hlb : (b < length pixels)%nat) by (by eapply lookup_lt_Some).
  unfold totalStored. case_bool_decide as Hab.
  - assert (a = b) as <- by (subst a b; congruence).
    assert (pa = pb) as <- by congruence.
    erewrite sumZ_alter; last first.
    { rewrite list_lookup_alter_eq. rewrite list_lookup_insert_eq
        by (rewrite length_insert; lia). reflexivity. }
    erewrite sumZ_alter; last first.
    { apply list_lookup_insert_eq. rewrite length_insert; lia. }
    erewrite sumZ_insert; last first.
    { apply list_lookup_insert_eq. lia. }
    erewrite sumZ_insert by eassumption. simpl. lia.
  - assert (a <> b) by (subst a b; intros E; apply Hab; lia).
    erewrite sumZ_alter; last first.
    { rewrite list_lookup_alter_ne by done.
      apply list_lookup_insert_eq. rewrite length_insert; lia. }
    erewrite sumZ_alter; last first.
    { rewrite list_lookup_insert_ne by done.
      apply list_lookup_insert_eq. lia. }
    erewrite sumZ_insert; last first.
    { rewrite list_lookup_insert_ne by done. eassumption. }
    erewrite sumZ_insert by eassumption. simpl. lia.
Qed.

(** When both ends of a trial coincide the two heuristic values do. *)
Lemma trialHeuristics_same pixels apos bx by_ x y :
  trialHeuristics env pixels apos bx by_ = Some (x, y) ->
  apos = by_ * envSidelen env + bx -> x = y.
Proof.
  unfold trialHeuristics. intros H ->.
  destruct (JS.index pixels _) as [pa |]; simplify_eq/=.
  destruct (JS.index (targetPixels env) _) as [t |]; simplify_eq/=.
  destruct (JS.index (weights env) _) as [w |]; simplify_eq/=.
  unfold heuristic. destruct (rgb pa) as [[? ?] ?], t as [[? ?] ?]. lia.
Qed.

(** Every accepted swap strictly lowers the sum of the stored [h] values. *)
Lemma swapTrial_stored_decreases pixels apos bx by_ pixels' :
  swapTrial env pixels apos bx by_ = Some (pixels', true) ->
  totalStored pixels' < totalStored pixels.
Proof.
  unfold swapTrial. intros H.
  destruct (trialHeuristics _ _ _ _ _) as [[x y] |] eqn:Hh; [| discriminate].
  simpl in H.
  destruct (accepts _ _ _ _ _) as [[] |] eqn:Hacc; [| discriminate ..].
  simpl in H.
  destruct (swapPixels _ _ _ _ _) as [px |] eqn:Hsw; [| discriminate].
  injection H as ->.
  unfold accepts in Hacc.
  destruct (JS.index pixels apos) as [pa |] eqn:Ha; [| discriminate].
  simpl in Hacc.
  destruct (JS.index pixels (by_ * envSidelen env + bx)) as [pb |] eqn:Hb;
    [| discriminate].
  injection Hacc as Hacc. apply Z.ltb_lt in Hacc.
  pose proof (swapPixels_stored _ _ _ _ _ _ _ _ Ha Hb
                (fun E => trialHeuristics_same _ _ _ _ _ _ Hh E) Hsw) as Hsum.
  case_bool_decide as Hab.
  - assert (pa = pb) by congruence. subst pb.
    assert (x = y) by (eapply trialHeuristics_same; eauto). lia.
  - lia.
Qed.

End GeneticTrial.

(** ** The Genetic solver on the 2x2 example *)

Lemma trials_S env maxDist (k : nat) st :
  trials env maxDist (S k) st = trial env maxDist st ≫= trials env maxDist k.
Proof. reflexivity. Qed.

Lemma trials_add env maxDist (k m : nat) st :
  trials env maxDist (k + m) st = trials env maxDist k st ≫= trials env maxDist m.
Proof.
  revert st. induction k as [| k IH]; intros st; [reflexivity |].
  change (S k + m)%nat with (S (k + m)). rewrite !trials_S.
  destruct (trial env maxDist st) as [st' |]; [apply IH | reflexivity].
Qed.

(** C2, at the failing input.  The first trial of the run swaps positions 0
    and 1.  Afterwards position 0 holds the pixel that came from source
    position 1, whose heuristic at position 0 is 169, and stores 1189, the
    heuristic of the other pixel at position 1: the stored [h] values of an
    accepted swap are written to the wrong slots. *)
Theorem genetic_stored_h_is_crossed (drawImageScaled : list Z -> Z -> Z -> list Z) :
  let env := geneticEnv drawImageScaled source2x2 settings2x2 in
  exists st owner,
    geneticStart drawImageScaled source2x2 settings2x2
      ≫= trials env (sidelen settings2x2) 1 = Some st
    /\ swapsMade st = 1
    /\ pixels st !! 0%nat = Some owner
    /\ (srcX owner, srcY owner) = (1, 0)
    /\ h owner = 1189
    /\ placedHeuristic env 0 owner = 169.
Proof.
  intros env.
  eexists {| pixels := _; rng := _; swapsMade := _ |}, _.
  split; [vm_compute; reflexivity |].
  vm_compute. repeat split; reflexivity.
Qed.

(** C1, at the failing input.  The fourth trial of the same run is
    accepted (the swap counter goes from 1 to 2), and the summed heuristic
    of the placement goes up from 1358 to 2544 across it. *)
Theorem genetic_accepted_swap_raises_total (drawImageScaled : list Z -> Z -> Z -> list Z) :
  let env := geneticEnv drawImageScaled source2x2 settings2x2 in
  exists st3 st4,
    geneticStart drawImageScaled source2x2 settings2x2
      ≫= trials env (sidelen settings2x2) 3 = Some st3
    /\ trial env (sidelen settings2x2) st3 = Some st4
    /\ swapsMade st3 = 1 /\ swapsMade st4 = 2
    /\ totalPlaced env (pixels st3) = 1358
    /\ totalPlaced env (pixels st4) = 2544.
Proof.
  intros env.
  eexists {| pixels := _; rng := _; swapsMade := _ |},
          {| pixels := _; rng := _; swapsMade := _ |}.
  split; [vm_compute; reflexivity |].
  split; [vm_compute; reflexivity |].
  vm_compute. repeat split; reflexivity.
Qed.

(** ** The Genetic solver: the assignments are a permutation *)

(** Exchanging two slots of an array permutes it. *)
Lemma insert_head_Permutation {A} (l : list A) (i : nat) (x y : A) :
  l !! i = Some y -> y :: <[i := x]> l ≡ₚ x :: l.
Proof.
  revert i. induction l as [| z l IH]; intros [| i] Hi; simplify_eq/=.
  - apply perm_swap.
  - rewrite (perm_swap z y). rewrite (IH i Hi). apply perm_swap.
Qed.

Lemma exchange_Permutation {A} (l : list A) (a b : nat) (x y : A) :
  l !! a = Some x -> l !! b = Some y ->
  <[b := x]> (<[a := y]> l) ≡ₚ l.
Proof.
  revert a b. induction l as [| z l IH]; intros [| a] [| b] Ha Hb; simplify_eq/=.
  - reflexivity.
  - by apply insert_head_Permutation.
  - symmetry. rewrite <- (insert_head_Permutation l a y x Ha). reflexivity.
  - f_equiv. by apply IH.
Qed.

Lemma assignmentsOf_alter sidelen v (i : nat) (px : list Pixel) :
  assignmentsOf sidelen (alter (setH v) i px) = assignmentsOf sidelen px.
Proof.
  unfold assignmentsOf. revert i.
  induction px as [| p px IH]; intros [| i]; try reflexivity.
  cbn [alter list_alter map]. f_equal. apply IH.
Qed.

Lemma swapPixels_assignments sidelen px apos bpos x y px' :
  swapPixels px apos bpos x y = Some px' ->
  assignmentsOf sidelen px' ≡ₚ assignmentsOf sidelen px.
Proof.
  unfold swapPixels. intros H.
  destruct (JS.index px apos) as [pa |] eqn:Ha; [| discriminate].
  destruct (JS.index px bpos) as [pb |] eqn:Hb; [| discriminate].
  injection H as <-.
  apply index_Some in Ha as [_ Ha], Hb as [_ Hb].
  rewrite !assignmentsOf_alter. unfold assignmentsOf.
  apply Permutation_map. by apply exchange_Permutation.
Qed.

Lemma trial_assignments env maxDist st st' :
  trial env maxDist st = Some st' ->
  assignmentsOf (envSidelen env) (pixels st')
  ≡ₚ assignmentsOf (envSidelen env) (pixels st).
Proof.
  unfold trial. destruct (sampleTrial _ _ _ _) as [g [[apos bx] by_]].
  unfold swapTrial.
  destruct (trialHeuristics _ _ _ _ _) as [[x y] |]; [| discriminate].
  cbn [mbind option_bind].
  destruct (accepts _ _ _ _ _) as [[] |]; [| | discriminate]; cbn [mbind option_bind].
  - destruct (swapPixels _ _ _ _ _) as [px' |] eqn:Hsw; [| discriminate].
    cbn [mbind option_bind]. intros [= <-]. cbn [pixels].
    by eapply swapPixels_assignments.
  - intros [= <-]. reflexivity.
Qed.

Lemma trials_assignments env maxDist (k : nat) st st' :
  trials env maxDist k st = Some st' ->
  assignmentsOf (envSidelen env) (pixels st')
  ≡ₚ assignmentsOf (envSidelen env) (pixels st).
Proof.
  revert st. induction k as [| k IH]; intros st.
  - intros [= <-]. reflexivity.
  - rewrite trials_S. destruct (trial env maxDist st) as [st1 |] eqn:H1;
      [| discriminate].
    rewrite bind_Some. intros Hk.
    rewrite (IH _ Hk). by apply (trial_assignments env maxDist).
Qed.

(** Whatever the loop hands to [finish] is a rearrangement of what it
    started from. *)
Lemma geneticLoop_done_assignments env sourcePixels (f : list Pixel -> Preset)
    finish :
  (forall px, finish px = ([Done (f px)], Returned)) ->
  forall fuel cancel read maxDist px g p,
    p ∈ donePresets
          (geneticLoop fuel cancel read env sourcePixels finish maxDist px g).1 ->
    exists px', p = f px'
                /\ assignmentsOf (envSidelen env) px'
                   ≡ₚ assignmentsOf (envSidelen env) px.
Proof.
  intros Hfin fuel.
  induction fuel as [| fuel IH]; intros cancel read maxDist px g p;
    cbn [geneticLoop]; [intros H; by apply elem_of_nil in H |].
  destruct (cancelledAt cancel read);
    [intros H; cbn in H; by apply elem_of_nil in H |].
  destruct (trials env maxDist (128 * length px) _) as [st |] eqn:Ht;
    [| intros H; by apply elem_of_nil in H].
  apply trials_assignments in Ht. cbn [pixels] in Ht.
  destruct (makeNewImage _ _ _ _) as [imageData |];
    [| intros H; by apply elem_of_nil in H].
  rewrite donePresets_post_other by discriminate.
  destruct ((maxDist <? 4) && (swapsMade st <? 10)).
  - destruct (cancelledAt cancel (S read));
      [intros H; cbn in H; by apply elem_of_nil in H |].
    rewrite Hfin. cbn. intros H. apply list_elem_of_singleton in H as ->.
    eauto.
  - rewrite donePresets_post_other by discriminate. intros H.
    destruct (IH _ _ _ _ _ _ H) as (px' & -> & Hp). exists px'.
    split; [reflexivity |]. by rewrite Hp.
Qed.

Lemma initPixels_assignments env sourcePixels px :
  initPixels env sourcePixels = Some px ->
  assignmentsOf (envSidelen env) px = upto (Z.of_nat (length sourcePixels)).
Proof.
  unfold initPixels. intros H. apply mapM_Some in H.
  pose proof (Forall2_length _ _ _ H) as Hlen. rewrite length_imap in Hlen.
  unfold assignmentsOf, upto. rewrite Nat2Z.id.
  change (map ?f ?l = map ?g ?k) with (f <$> l = g <$> k).
  apply list_eq. intros j. rewrite !list_lookup_fmap.
  destruct (sourcePixels !! j) as [rgb |] eqn:Hj.
  - pose proof (lookup_lt_Some _ _ _ Hj) as Hlt.
    destruct (Forall2_lookup_l _ _ _ j (j, rgb) H) as (p & Hp & HF).
    { rewrite list_lookup_imap, Hj. reflexivity. }
    rewrite Hp, lookup_seq_lt by exact Hlt. cbn [fmap option_fmap option_map].
    f_equal. cbn beta iota in HF.
    destruct (targetPixels env !! j) as [t |]; [| discriminate].
    destruct (weights env !! j) as [w |]; [| discriminate].
    injection HF as <-. cbn [srcX srcY].
    pose proof (Z_div_mod_eq_full (Z.of_nat j) (envSidelen env)). lia.
  - apply lookup_ge_None in Hj.
    rewrite (lookup_ge_None_2 px j) by lia.
    rewrite (lookup_ge_None_2 (seq 0 (length sourcePixels)) j)
      by (rewrite length_seq; lia).
    reflexivity.
Qed.

(** Before the first swap every stored [h] is the heuristic of the owner
    where it sits. *)
Lemma initPixels_stored env sourcePixels px (p : nat) owner :
  initPixels env sourcePixels = Some px ->
  px !! p = Some owner ->
  h owner = placedHeuristic env p owner.
Proof.
  unfold initPixels. intros H Hp. apply mapM_Some in H.
  destruct (Forall2_lookup_r _ _ _ p owner H Hp) as ([i rgb] & Hi & HF).
  rewrite list_lookup_imap in Hi.
  destruct (sourcePixels !! p) as [rgb' |]; [| discriminate].
  injection Hi as <- <-. cbn beta iota in HF.
  unfold placedHeuristic, positionOf.
  destruct (targetPixels env !! p) as [t |]; [| discriminate].
  destruct (weights env !! p) as [w |]; [| discriminate].
  injection HF as <-. reflexivity.
Qed.

(** Every [done] message of the Genetic solver carries a permutation of
    the indices of the pixels it was given: as many entries as the buffer
    returned by [applyCropScale] has pixels. *)
Lemma genetic_done_permutation drawImageScaled fuel cancel source settings p :
  p ∈ donePresets (processGenetic drawImageScaled fuel cancel source settings).1 ->
  assignments p
  ≡ₚ upto (Z.of_nat (length (extractRGB (croppedSource drawImageScaled source
                                          settings)))).
Proof.
  unfold processGenetic, geneticStart.
  destruct (initPixels _ _) as [px |] eqn:Hinit;
    [| intros H; by apply elem_of_nil in H].
  rewrite bind_Some. cbn [pixels rng]. intros H.
  eapply (geneticLoop_done_assignments _ _
            (fun px' => donePreset source settings
                          (croppedSource drawImageScaled source settings)
                          (assignmentsOf (sidelen settings) px'))) in H;
    [| reflexivity].
  destruct H as (px' & -> & Hperm). cbn [donePreset assignments].
  apply initPixels_assignments in Hinit.
  cbn [geneticEnv envSidelen] in Hperm, Hinit.
  rewrite Hperm, Hinit. reflexivity.
Qed.

(** ** The Genetic solver on the 2x1 example *)

(** C3, at the failing input.  On the 2x1 image with [sidelen = 1] the
    Genetic solver ends with a [done] message whose assignments are
    [0; 1]: two entries where [S * S = 1], and the index 1 outside
    [0, 1). *)
Theorem genetic_done_has_wrong_length (drawImageScaled : list Z -> Z -> Z -> list Z) :
  exists p,
    donePresets (onmessage drawImageScaled 1 None source2x1 settingsSide1) = [p]
    /\ assignments p = [0; 1]
    /\ sidelen settingsSide1 * sidelen settingsSide1 = 1
    /\ ~ isPermutationOf (sidelen settingsSide1 * sidelen settingsSide1)
           (assignments p).
Proof.
  eexists {| inner := _; assignments := _ |}.
  split; [vm_compute; reflexivity |].
  split; [reflexivity |]. split; [reflexivity |].
  unfold isPermutationOf. simpl. intros H.
  apply Permutation_length in H. discriminate.
Qed.

(** ** The Greedy solver: the assignments are a permutation *)

Lemma upto_NoDup (n : Z) : NoDup (upto n).
Proof.
  unfold upto. change (map Z.of_nat ?l) with (Z.of_nat <$> l).
  apply NoDup_fmap_2; [apply Nat2Z.inj' | apply NoDup_seq].
Qed.

Lemma upto_length (n : Z) : length (upto n) = Z.to_nat n.
Proof. unfold upto. by rewrite length_map, length_seq. Qed.

Lemma elem_of_upto (n x : Z) : x ∈ upto n <-> 0 <= x < n.
Proof.
  unfold upto. change (map Z.of_nat ?l) with (Z.of_nat <$> l).
  rewrite list_elem_of_fmap. split.
  - intros (k & -> & Hk). apply elem_of_seq in Hk. lia.
  - intros Hx. exists (Z.to_nat x). split; [lia |]. apply elem_of_seq. lia.
Qed.

(** Fewer distinct values than candidates leave a candidate out. *)
Lemma pigeonhole (l k : list Z) :
  NoDup k -> (length l < length k)%nat -> exists x, x ∈ k /\ x ∉ l.
Proof.
  intros Hk Hlen.
  destruct (decide (Forall (fun x => x ∈ l) k)) as [Hall | Hnot].
  - exfalso. assert (k ⊆+ l) as Hsub.
    { apply NoDup_submseteq; [exact Hk |]. by apply Forall_forall. }
    apply submseteq_length in Hsub. lia.
  - apply not_Forall_Exists in Hnot; [| intros x; apply _].
    apply Exists_exists in Hnot as (x & Hx & Hnx). eauto.
Qed.

Section GreedyInner.

Variables (env : SolverEnv) (sourcePixels : list RGB) (assigned : gset Z)
          (targetIdx : Z).

Lemma bestStep_found scanned best srcIdx best' :
  bestFound assigned scanned best ->
  bestStep env sourcePixels assigned targetIdx best srcIdx = Some best' ->
  bestFound assigned (scanned ++ [srcIdx]) best'.
Proof.
  unfold bestFound, bestStep. intros Hf.
  case_bool_decide as Hin.
  - intros [= <-]. destruct (best.2).
    + destruct Hf. split; [set_solver | done].
    + destruct Hf as [? Hall]. split; [done |]. intros s Hs.
      apply elem_of_app in Hs as [Hs | Hs]; [by apply Hall |].
      by apply list_elem_of_singleton in Hs as ->.
  - destruct (JS.index sourcePixels srcIdx); [| discriminate].
    destruct (JS.index (targetPixels env) targetIdx); [| discriminate].
    destruct (JS.index (weights env) targetIdx); [| discriminate].
    cbn [mbind option_bind].
    destruct (scoreBelow _ _) eqn:Hb; intros [= <-].
    + cbn [fst snd]. split; [set_solver | done].
    + destruct (best.2) eqn:Hbest; [| discriminate].
      destruct Hf. split; [set_solver | done].
Qed.

Lemma bestLoop_found srcs scanned best best' :
  bestFound assigned scanned best ->
  bestLoop env sourcePixels assigned targetIdx srcs best = Some best' ->
  bestFound assigned (scanned ++ srcs) best'.
Proof.
  revert scanned best. induction srcs as [| s srcs IH]; intros scanned best Hf.
  - intros [= <-]. by rewrite app_nil_r.
  - cbn [bestLoop].
    destruct (bestStep env sourcePixels assigned targetIdx best s) as [b1 |] eqn:H1;
      [| discriminate].
    rewrite bind_Some. intros H.
    rewrite (assoc_L (++) scanned [s] srcs : scanned ++ s :: srcs = _).
    eapply IH; [| exact H]. by eapply bestStep_found.
Qed.

(** With a free source among the candidates, the inner loop returns a free
    candidate. *)
Lemma bestLoop_free srcs bestSrcIdx bestScore :
  (exists s, s ∈ srcs /\ s ∉ assigned) ->
  bestLoop env sourcePixels assigned targetIdx srcs (-1, None)
    = Some (bestSrcIdx, bestScore) ->
  bestSrcIdx ∈ srcs /\ bestSrcIdx ∉ assigned.
Proof.
  intros (s & Hs & Hfree) H.
  apply (bestLoop_found srcs [] (-1, None)) in H.
  - unfold bestFound in H. cbn [fst snd] in H. rewrite app_nil_l in H.
    destruct bestScore; [exact H |]. destruct H as [_ Hall].
    exfalso. by apply Hfree, Hall.
  - unfold bestFound. cbn [fst snd]. split; [done |]. intros ? Hx.
    by apply elem_of_nil in Hx.
Qed.

End GreedyInner.

(** Every [done] message of the Greedy solver carries a permutation of
    [0, n). *)
Lemma optimalLoop_done_permutation env sourcePixels n (f : list Z -> Preset) finish :
  (forall a, finish a = ([Done (f a)], Returned)) ->
  forall targets cancel read assigned assignments p,
    NoDup assignments ->
    (forall x, x ∈ assigned <-> x ∈ assignments) ->
    (forall x, x ∈ assignments -> x ∈ upto n) ->
    (length assignments + length targets)%nat = Z.to_nat n ->
    p ∈ donePresets
          (optimalLoop cancel read env sourcePixels n finish targets assigned
             assignments).1 ->
    exists a, p = f a /\ a ≡ₚ upto n.
Proof.
  intros Hfin targets.
  induction targets as [| targetIdx rest IH];
    intros cancel read assigned assignments p Hnd Hset Hrange Hlen;
    cbn [optimalLoop].
  - destruct (cancelledAt cancel read);
      [intros H; by apply elem_of_nil in H |].
    rewrite Hfin. cbn. intros H. apply list_elem_of_singleton in H as ->.
    eexists. split; [reflexivity |].
    unfold fillIdentity. simpl in Hlen.
    replace (Z.to_nat n - length assignments)%nat with 0%nat by lia.
    cbn [seq map]. rewrite app_nil_r.
    apply submseteq_length_Permutation.
    + apply NoDup_submseteq; [exact Hnd | exact Hrange].
    + rewrite upto_length. lia.
  - destruct (cancelledAt cancel read);
      [intros H; cbn in H; by apply elem_of_nil in H |].
    destruct (bestLoop env sourcePixels assigned targetIdx (upto n) (-1, None))
      as [[bestSrcIdx bestScore] |] eqn:Hbest;
      [| intros H; by apply elem_of_nil in H].
    assert (Hfree : bestSrcIdx ∈ upto n /\ bestSrcIdx ∉ assigned).
    { eapply bestLoop_free; [| exact Hbest].
      destruct (pigeonhole assignments (upto n) (upto_NoDup n)) as (x & Hx & Hnx).
      - rewrite upto_length. simpl in Hlen. lia.
      - exists x. split; [exact Hx |]. by rewrite Hset. }
    destruct Hfree as [Hin Hnotin].
    pose proof (proj1 (elem_of_upto n bestSrcIdx) Hin) as Hb.
    destruct (Z.leb_spec 0 bestSrcIdx) as [_ |]; [| lia].
    set (continue_ := optimalLoop cancel (S read) env sourcePixels n finish rest
                        ({[bestSrcIdx]} ∪ assigned) (assignments ++ [bestSrcIdx])).
    assert (Hcont : p ∈ donePresets continue_.1 -> exists a, p = f a /\ a ≡ₚ upto n).
    { apply IH.
      - apply NoDup_app. split; [exact Hnd |]. split; [| apply NoDup_singleton].
        intros x Hx Hx'. apply list_elem_of_singleton in Hx' as ->.
        by apply Hnotin, Hset.
      - intros x. rewrite elem_of_union, elem_of_singleton, elem_of_app,
          list_elem_of_singleton, Hset. tauto.
      - intros x Hx. apply elem_of_app in Hx as [Hx | Hx]; [by apply Hrange |].
        by apply list_elem_of_singleton in Hx as ->.
      - rewrite length_app. simpl in *. lia. }
    destruct (targetIdx mod 100 =? 0); [| exact Hcont].
    rewrite donePresets_post_other by discriminate.
    destruct (makeNewImage _ _ _ _);
      [| intros H; by apply elem_of_nil in H].
    rewrite donePresets_post_other by discriminate. exact Hcont.
Qed.

Lemma greedy_done_permutation drawImageScaled cancel source settings p :
  p ∈ donePresets (processOptimal drawImageScaled cancel source settings).1 ->
  isPermutationOf (sidelen settings * sidelen settings) (assignments p).
Proof.
  unfold processOptimal. intros H.
  eapply (optimalLoop_done_permutation _ _ _
            (fun a => donePreset source settings
                        (croppedSource drawImageScaled source settings) a)) in H.
  - destruct H as (a & -> & Ha). exact Ha.
  - reflexivity.
  - apply NoDup_nil_2.
  - intros x. set_solver.
  - intros x Hx. by apply elem_of_nil in Hx.
  - rewrite upto_length. reflexivity.
Qed.

(** ** The Voronoi rasterizer *)

Lemma Qltb_lt (a b : Q) : Qltb a b = true <-> (a < b)%Q.
Proof. unfold Qltb, Qlt. apply Z.ltb_lt. Qed.

Lemma Qltb_ge (a b : Q) : Qltb a b = false <-> (b <= a)%Q.
Proof. unfold Qltb, Qle. rewrite Z.ltb_ge. reflexivity. Qed.

(** *** The order of the computed distances *)

Lemma below_lt (a b : Voronoi.Dist) : Voronoi.below a b = true <-> distLt a b.
Proof.
  destruct a as [p |], b as [q |]; cbn; try apply Qltb_lt; split; done.
Qed.

Lemma below_ge (a b : Voronoi.Dist) : Voronoi.below a b = false <-> distLe b a.
Proof.
  destruct a as [p |], b as [q |]; cbn; try apply Qltb_ge; split; done.
Qed.

Lemma distLe_refl (a : Voronoi.Dist) : distLe a a.
Proof. destruct a; cbn; [apply Qle_refl | exact I]. Qed.

Lemma distLt_le_weak (a b : Voronoi.Dist) : distLt a b -> distLe a b.
Proof. destruct a, b; cbn; try done. apply Qlt_le_weak. Qed.

Lemma distLt_trans (a b c : Voronoi.Dist) : distLt a b -> distLt b c -> distLt a c.
Proof. destruct a, b, c; cbn; try done. apply Qlt_trans. Qed.

Lemma distLt_le_trans (a b c : Voronoi.Dist) : distLt a b -> distLe b c -> distLt a c.
Proof. destruct a, b, c; cbn; try done. apply Qlt_le_trans. Qed.

Lemma distLt_is_Some (a b : Voronoi.Dist) : distLt a b -> is_Some a.
Proof. destruct a; [eauto | by destruct b]. Qed.

Lemma distLe_None (a : Voronoi.Dist) : distLe None a -> a = None.
Proof. by destruct a. Qed.

(** *** A scan holds the first of the nearest seeds it met *)

Section NearestSeed.

Variables x y : Z.

Lemma consider_nearestFirst seen best i seed :
  nearestFirst x y seen best ->
  nearestFirst x y (seen ++ [(i, seed)]) (Voronoi.consider x y best i seed).
Proof.
  unfold nearestFirst, Voronoi.consider.
  destruct (Voronoi.below (Voronoi.sqDist seed x y) best.1) eqn:Hcmp.
  - (* the new seed is strictly nearer: it becomes the minimum *)
    apply below_lt in Hcmp. intros Hbest. right.
    exists seed, seen, []. cbn [fst snd].
    split; [reflexivity |]. split; [reflexivity |].
    split; [exact (distLt_is_Some _ _ Hcmp) |].
    split; [| intros j sj Hj; apply elem_of_nil in Hj; destruct Hj].
    intros j sj Hj. destruct Hbest as [[-> Hinf] | Hbest].
    + rewrite (Hinf j sj Hj). exact Hcmp.
    + destruct Hbest as (sk & before & after & -> & Hd & _ & Hlt & Hle).
      apply elem_of_app in Hj as [Hj | Hj].
      * exact (distLt_trans _ _ _ Hcmp (Hlt j sj Hj)).
      * apply elem_of_cons in Hj as [Hj | Hj].
        { injection Hj as -> ->. rewrite <- Hd. exact Hcmp. }
        exact (distLt_le_trans _ _ _ Hcmp (Hle j sj Hj)).
  - (* the minimum stays *)
    apply below_ge in Hcmp. intros [[-> Hinf] | Hbest].
    + left. split; [reflexivity |]. intros j sj Hj.
      apply elem_of_app in Hj as [Hj | Hj]; [exact (Hinf j sj Hj) |].
      apply list_elem_of_singleton in Hj. injection Hj as -> ->.
      exact (distLe_None _ Hcmp).
    + right. destruct Hbest as (sk & before & after & -> & Hd & Hfin & Hlt & Hle).
      exists sk, before, (after ++ [(i, seed)]).
      split; [rewrite <- app_assoc; reflexivity |]. split; [exact Hd |].
      split; [exact Hfin |]. split; [exact Hlt |].
      intros j sj Hj. apply elem_of_app in Hj as [Hj | Hj]; [exact (Hle j sj Hj) |].
      apply list_elem_of_singleton in Hj. injection Hj as -> ->. exact Hcmp.
Qed.

Lemma scanAll_cons best i seed l :
  Voronoi.scanAll x y best ((i, seed) :: l)
  = Voronoi.scanAll x y (Voronoi.consider x y best i seed) l.
Proof. reflexivity. Qed.

Lemma scanAll_nearestFirst l seen best :
  nearestFirst x y seen best ->
  nearestFirst x y (seen ++ l) (Voronoi.scanAll x y best l).
Proof.
  revert seen best. induction l as [| [i seed] l IH]; intros seen best H.
  - by rewrite app_nil_r.
  - rewrite scanAll_cons.
    rewrite (assoc_L (++) seen [(i, seed)] l : seen ++ (i, seed) :: l = _).
    apply IH, consider_nearestFirst, H.
Qed.

Lemma start_nearestFirst : nearestFirst x y [] Voronoi.start.
Proof.
  left. split; [reflexivity |]. intros j sj Hj. apply elem_of_nil in Hj. destruct Hj.
Qed.

(** What a scan from [Voronoi.start] settles on, read off the invariant:
    index 0 when no seed met is at a finite distance, otherwise a seed met
    that none is nearer than and that comes first among the nearest. *)
Lemma scanAll_winner (l : list (nat * SeedPos)) :
  ((Voronoi.scanAll x y Voronoi.start l).2 = 0%nat
   /\ forall j sj, (j, sj) ∈ l -> Voronoi.sqDist sj x y = None)
  \/ exists sw before after,
       l = before ++ ((Voronoi.scanAll x y Voronoi.start l).2, sw) :: after
       /\ is_Some (Voronoi.sqDist sw x y)
       /\ (forall j sj, (j, sj) ∈ before ->
             distLt (Voronoi.sqDist sw x y) (Voronoi.sqDist sj x y))
       /\ (forall j sj, (j, sj) ∈ after ->
             distLe (Voronoi.sqDist sw x y) (Voronoi.sqDist sj x y)).
Proof.
  pose proof (scanAll_nearestFirst l [] Voronoi.start start_nearestFirst) as H.
  rewrite app_nil_l in H. destruct H as [[-> Hinf] | H].
  - left. split; [reflexivity | exact Hinf].
  - right. destruct H as (sw & before & after & Hsplit & Hd & Hfin & Hlt & Hle).
    rewrite Hd in Hfin, Hlt, Hle. eauto 10.
Qed.

Lemma scanBuckets_cons seeds best j l :
  Voronoi.scanBuckets seeds x y best (j :: l)
  = Voronoi.scanBuckets seeds x y
      (match seeds !! j with
       | Some seed => Voronoi.consider x y best j seed
       | None => best
       end) l.
Proof. reflexivity. Qed.

(** The scan of the buckets is the scan of the seeds their indices name. *)
Lemma scanBuckets_scanAll (seeds : list SeedPos) best (scan : list nat) :
  Voronoi.scanBuckets seeds x y best scan
  = Voronoi.scanAll x y best
      (omap (fun j => (fun seed => (j, seed)) <$> seeds !! j) scan).
Proof.
  revert best. induction scan as [| j scan IH]; intros best; [reflexivity |].
  rewrite scanBuckets_cons. cbn [omap list_omap].
  destruct (seeds !! j) as [seed |]; cbn [fmap option_fmap option_map].
  - rewrite scanAll_cons. apply IH.
  - apply IH.
Qed.


Lemma elem_of_named (seeds : list SeedPos) (scan : list nat) (j : nat) (sj : SeedPos) :
  (j, sj) ∈ omap (fun j => (fun seed => (j, seed)) <$> seeds !! j) scan
  <-> j ∈ scan /\ seeds !! j = Some sj.
Proof.
  rewrite list_elem_of_omap. split.
  - intros (j' & Hj' & Hl). destruct (seeds !! j') as [s' |] eqn:Hs'; [| discriminate].
    injection Hl as -> ->. auto.
  - intros [Hj Hl]. exists j. split; [exact Hj |]. by rewrite Hl.
Qed.

End NearestSeed.

(** An indexed list cut in two: the index of the middle entry is the
    length of the first part. *)
Lemma imap_split {A} (l : list A) (k : nat) (v : A) before after :
  imap (fun i a => (i, a)) l = before ++ (k, v) :: after ->
  l !! k = Some v
  /\ (forall j a, (j, a) ∈ before -> (j < k)%nat /\ l !! j = Some a)
  /\ (forall j a, (j, a) ∈ after -> (k < j)%nat /\ l !! j = Some a).
Proof.
  intros Hsplit.
  assert (Hat : forall (i j : nat) a,
            (before ++ (k, v) :: after) !! i = Some (j, a) -> j = i /\ l !! i = Some a).
  { intros i j a Hi. rewrite <- Hsplit, list_lookup_imap in Hi.
    destruct (l !! i) as [a' |]; [| discriminate].
    injection Hi as <- <-. auto. }
  destruct (Hat (length before) k v) as [Hk Hv]; [by rewrite list_lookup_middle |].
  split; [by rewrite Hk |]. split; intros j a Hj.
  - apply list_elem_of_lookup in Hj as [i Hi].
    pose proof (lookup_lt_Some _ _ _ Hi) as Hlt.
    destruct (Hat i j a) as [-> Ha]; [by rewrite lookup_app_l |].
    split; [lia | exact Ha].
  - apply list_elem_of_lookup in Hj as [i Hi].
    destruct (Hat (length before + S i)%nat j a) as [-> Ha].
    { rewrite lookup_app_r by lia.
      replace (length before + S i - length before)%nat with (S i) by lia.
      exact Hi. }
    split; [lia | exact Ha].
Qed.

(** The brute-force winner names a seed; no seed is nearer, the seeds
    before it are strictly farther, and it is seed 0 when its distance is
    [Infinity]. *)
Lemma nearestBrute_first (seeds : list SeedPos) (x y : Z) :
  seeds <> [] ->
  exists sw,
    seeds !! Voronoi.nearestBrute seeds x y = Some sw
    /\ (Voronoi.sqDist sw x y = None -> Voronoi.nearestBrute seeds x y = 0%nat)
    /\ forall j sj,
         seeds !! j = Some sj ->
         distLe (Voronoi.sqDist sw x y) (Voronoi.sqDist sj x y)
         /\ ((j < Voronoi.nearestBrute seeds x y)%nat ->
             distLt (Voronoi.sqDist sw x y) (Voronoi.sqDist sj x y)).
Proof.
  intros Hne. unfold Voronoi.nearestBrute.
  destruct (scanAll_winner x y (imap (fun i seed => (i, seed)) seeds))
    as [[-> Hinf] | (sw & before & after & Hsplit & Hfin & Hlt & Hle)].
  - destruct seeds as [| s0 seeds']; [contradiction |].
    exists s0. split; [reflexivity |]. split; [reflexivity |].
    intros j sj Hj. split; [| lia].
    rewrite (Hinf j sj); [destruct (Voronoi.sqDist s0 x y); exact I |].
    apply elem_of_lookup_imap. exists j, sj. split; [reflexivity | exact Hj].
  - set (k := (Voronoi.scanAll x y Voronoi.start
                 (imap (fun i seed => (i, seed)) seeds)).2) in *.
    destruct (imap_split seeds k sw before after Hsplit) as (Hk & Hbefore & Hafter).
    exists sw. split; [exact Hk |].
    split.
    { destruct Hfin as [d Hd]. intros Hnone. rewrite Hd in Hnone. discriminate Hnone. }
    intros j sj Hj.
    assert (Hin : (j, sj) ∈ before ++ (k, sw) :: after).
    { rewrite <- Hsplit. apply elem_of_lookup_imap.
      exists j, sj. split; [reflexivity | exact Hj]. }
    apply elem_of_app in Hin as [Hin | Hin].
    + pose proof (Hlt j sj Hin) as Hjlt.
      split; [exact (distLt_le_weak _ _ Hjlt) | intros _; exact Hjlt].
    + apply elem_of_cons in Hin as [Hin | Hin].
      * injection Hin as -> ->. split; [apply distLe_refl | lia].
      * destruct (Hafter j sj Hin). split; [exact (Hle j sj Hin) | lia].
Qed.

(** The window scan settles on seed 0 when no seed of the window is at a
    finite distance, and otherwise on a seed of the window that no seed of
    the window is nearer than. *)
Lemma nearestIn_winner (seeds : list SeedPos) (x y : Z) (scan : list nat) :
  (Voronoi.nearestIn seeds x y scan = 0%nat
   /\ forall j sj, j ∈ scan -> seeds !! j = Some sj -> Voronoi.sqDist sj x y = None)
  \/ (Voronoi.nearestIn seeds x y scan ∈ scan
      /\ exists sw,
           seeds !! Voronoi.nearestIn seeds x y scan = Some sw
           /\ is_Some (Voronoi.sqDist sw x y)
           /\ forall j sj,
                j ∈ scan -> seeds !! j = Some sj ->
                distLe (Voronoi.sqDist sw x y) (Voronoi.sqDist sj x y)).
Proof.
  unfold Voronoi.nearestIn. rewrite scanBuckets_scanAll.
  set (seen := omap (fun j => (fun seed => (j, seed)) <$> seeds !! j) scan).
  destruct (scanAll_winner x y seen)
    as [[-> Hinf] | (sw & before & after & Hsplit & Hfin & Hlt & Hle)].
  - left. split; [reflexivity |]. intros j sj Hj Hsj.
    apply (Hinf j sj), elem_of_named. auto.
  - right. set (k := (Voronoi.scanAll x y Voronoi.start seen).2) in *.
    assert (Hk : (k, sw) ∈ seen).
    { rewrite Hsplit. apply elem_of_app. right. apply list_elem_of_here. }
    apply elem_of_named in Hk as [Hk Hsw]. split; [exact Hk |].
    exists sw. split; [exact Hsw |]. split; [exact Hfin |].
    intros j sj Hj Hsj.
    assert (Hin : (j, sj) ∈ seen) by (apply elem_of_named; auto).
    rewrite Hsplit in Hin. apply elem_of_app in Hin as [Hin | Hin].
    + exact (distLt_le_weak _ _ (Hlt j sj Hin)).
    + apply elem_of_cons in Hin as [Hin | Hin].
      * injection Hin as -> ->. apply distLe_refl.
      * exact (Hle j sj Hin).
Qed.




(** ** The particle: integration *)

Lemma clampQ_bounds (v lo hi : Q) :
  (lo <= hi)%Q -> (lo <= JS.clampQ v lo hi <= hi)%Q.
Proof.
  intros Hle. unfold JS.clampQ. split.
  - apply Q.le_max_l.
  - apply Q.max_lub; [exact Hle | apply Q.le_min_l].
Qed.

Lemma clampQ_abs (v m : Q) : (0 <= m)%Q -> (Qabs (JS.clampQ v (- m) m) <= m)%Q.
Proof.
  intros Hm. apply Qabs_Qle_condition. apply clampQ_bounds. lra.
Qed.

(** C10, amended.  [update] replaces each coordinate of the position by the
    double nearest to the coordinate plus a step of at most [MAX_VELOCITY]
    in absolute value, adds one to [age], clears both acceleration
    components and keeps the endpoints, [dstForce] and [strokeId]. *)
Theorem cell_update_frame (c : CellBody) (pos : SeedPos) :
  (exists stepx stepy : Q,
     (Qabs stepx <= MAX_VELOCITY)%Q
     /\ (Qabs stepy <= MAX_VELOCITY)%Q
     /\ (Cell.update c pos).2
        = (JS.double (pos.1 + stepx), JS.double (pos.2 + stepy)))
  /\ age (Cell.update c pos).1 = age c + 1
  /\ accx (Cell.update c pos).1 = 0%Q
  /\ accy (Cell.update c pos).1 = 0%Q
  /\ srcx (Cell.update c pos).1 = srcx c
  /\ srcy (Cell.update c pos).1 = srcy c
  /\ dstx (Cell.update c pos).1 = dstx c
  /\ dsty (Cell.update c pos).1 = dsty c
  /\ dstForce (Cell.update c pos).1 = dstForce c
  /\ strokeId (Cell.update c pos).1 = strokeId c.
Proof.
  assert (Hm : (0 <= MAX_VELOCITY)%Q) by (unfold MAX_VELOCITY; lra).
  unfold Cell.update. cbn [fst snd age accx accy srcx srcy dstx dsty dstForce strokeId].
  split; [| repeat split; reflexivity].
  eexists _, _. split; [apply clampQ_abs, Hm |]. split; [apply clampQ_abs, Hm |].
  reflexivity.
Qed.

(** C10 as stated fails.  A cell moving right at more than
    [MAX_VELOCITY], at the double of the literal [0.7]: the step is 6, the
    sum [0.7 + 6] is no double, and the position moves by [6 + 2^-52]. *)
Lemma cell_update_moves_past_max_velocity :
  ((Cell.update cellFast pos07).2.1 - pos07.1 == 6 + (1 # 2 ^ 52))%Q
  /\ (MAX_VELOCITY < Qabs ((Cell.update cellFast pos07).2.1 - pos07.1))%Q.
Proof.
  split; vm_compute; reflexivity.
Qed.

(** ** The simulation: stroke attraction *)

Lemma applyNeighbourForce_strokeId sqrt posToBits c pos other pixelSize :
  strokeId (Cell.applyNeighbourForce sqrt posToBits c pos other pixelSize).1
  = strokeId c.
Proof.
  unfold Cell.applyNeighbourForce. cbn [fst].
  repeat match goal with |- context [if ?b then _ else _] => destruct b end;
    reflexivity.
Qed.

(** C7, amended.  For a neighbour [other] of cell [i], stroke attraction is
    applied on top of the neighbour force exactly when the two cells carry
    the same [strokeId], whatever its value; with different [strokeId]s the
    cell only takes the neighbour force. *)
Theorem stroke_attraction_iff_same_id (sqrt : Q -> Q) (posToBits : Q -> Z)
    (cells : list CellBody) (positions : list SeedPos) (pixelSize : Q)
    (i other : nat) (s : Scan) (posI posOther : SeedPos) (cellOther : CellBody) :
  other <> i ->
  positions !! i = Some posI ->
  positions !! other = Some posOther ->
  cells !! other = Some cellOther ->
  let near := Cell.applyNeighbourForce sqrt posToBits (me s) posI posOther pixelSize in
  exists s',
    neighbourStep sqrt posToBits cells positions pixelSize i s other = Some s'
    /\ (strokeId (me s) = strokeId cellOther ->
        me s' = Cell.applyStrokeAttraction near.1 posI posOther near.2)
    /\ (strokeId (me s) <> strokeId cellOther -> me s' = near.1).
Proof.
  intros Hne Hi Ho Hc. cbv zeta. unfold neighbourStep.
  rewrite bool_decide_eq_false_2 by exact Hne.
  rewrite Hi, Ho. cbn [mbind option_bind].
  pose proof (applyNeighbourForce_strokeId sqrt posToBits (me s) posI posOther
                pixelSize) as Hid.
  destruct (Cell.applyNeighbourForce sqrt posToBits (me s) posI posOther pixelSize)
    as [c1 weight].
  cbn [fst snd] in *. rewrite Hc. cbn [mbind option_bind].
  eexists. split; [reflexivity |]. cbn [me]. rewrite Hid.
  destruct (Z.eqb_spec (strokeId (me s)) (strokeId cellOther)); split; intros;
    try reflexivity; contradiction.
Qed.

(** Two cells of different strokes: the first only takes the neighbour
    force. *)
Lemma stroke_attraction_iff_same_id_witness :
  (1 <> 0)%nat
  /\ positionsAB !! 0%nat = Some (1 # 2, 1 # 2)%Q
  /\ positionsAB !! 1%nat = Some (3 # 4, 1 # 2)%Q
  /\ [cellA; cellBPainted] !! 1%nat = Some cellBPainted
  /\ exists s',
       neighbourStep sqrtModel noBits [cellA; cellBPainted] positionsAB 1 0
         (freshScan cellA) 1 = Some s'
       /\ me s' = (Cell.applyNeighbourForce sqrtModel noBits cellA
                     (1 # 2, 1 # 2)%Q (3 # 4, 1 # 2)%Q 1).1.
Proof.
  assert (H0 : (1 <> 0)%nat) by discriminate.
  assert (H1 : positionsAB !! 0%nat = Some (1 # 2, 1 # 2)%Q) by reflexivity.
  assert (H2 : positionsAB !! 1%nat = Some (3 # 4, 1 # 2)%Q) by reflexivity.
  assert (H3 : [cellA; cellBPainted] !! 1%nat = Some cellBPainted) by reflexivity.
  repeat (split; [assumption |]).
  destruct (stroke_attraction_iff_same_id sqrtModel noBits [cellA; cellBPainted]
              positionsAB 1 0%nat 1%nat (freshScan cellA) _ _ _ H0 H1 H2 H3)
    as (s' & Hs & _ & Hdiff).
  exists s'. split; [exact Hs |]. apply Hdiff. discriminate.
Defined.

(** C7 as stated fails.  Two cells that were never painted ([strokeId] 0),
    a quarter of a pixel apart: the scan of the first applies stroke
    attraction towards the second, which turns the acceleration -14/19 of
    the neighbour force into -14/95. *)
Lemma stroke_attraction_between_unstroked :
  strokeId cellA = 0 /\ strokeId cellB = 0
  /\ exists s',
       neighbourStep sqrtModel noBits (cells simAB) positionsAB 1 0
         (freshScan cellA) 1 = Some s'
       /\ Qred (accx (Cell.applyNeighbourForce sqrtModel noBits cellA
                        (1 # 2, 1 # 2)%Q (3 # 4, 1 # 2)%Q 1).1) = (-14 # 19)%Q
       /\ Qred (accx (me s')) = (-14 # 95)%Q.
Proof.
  split; [reflexivity |]. split; [reflexivity |].
  eexists {| me := _; avgXvel := _; avgYvel := _; count := _ |}.
  split; [vm_compute; reflexivity |].
  split; vm_compute; reflexivity.
Qed.

(** ** The simulation: [preparePlay] *)

Lemma placeAt_total (f : CellBody -> SeedPos) (cells : list CellBody)
    (positions : list SeedPos) :
  (length cells <= length positions)%nat ->
  exists positions',
    placeAt f cells positions = Some positions'
    /\ length positions' = length positions.
Proof.
  revert positions. induction cells as [| c cells IH]; intros positions Hlen.
  - exists positions. split; reflexivity.
  - destruct positions as [| pos positions]; [simpl in Hlen; lia |].
    destruct (IH positions) as (rest & Hrest & Hl); [simpl in Hlen; lia |].
    exists (f c :: rest). cbn [placeAt]. rewrite Hrest. split; [reflexivity |].
    simpl. by rewrite Hl.
Qed.

Lemma endpoints_swap_twice (c : CellBody) :
  endpoints (swapSrcDst (swapSrcDst c)) = endpoints c.
Proof. reflexivity. Qed.

(** C9.  From any state whose positions array covers the cells, a
    [preparePlay] into the other direction followed by one back returns
    every cell's source and destination and the [reversed] flag to what they
    were. *)
Theorem preparePlay_round_trip (sim : Sim) (positions : list SeedPos) (r : bool) :
  r <> reversed sim ->
  (length (cells sim) <= length positions)%nat ->
  exists sim1 positions1 sim2 positions2,
    preparePlay sim positions r = Some (sim1, positions1)
    /\ preparePlay sim1 positions1 (negb r) = Some (sim2, positions2)
    /\ map endpoints (cells sim2) = map endpoints (cells sim)
    /\ reversed sim2 = reversed sim.
Proof.
  intros Hr Hlen.
  destruct (placeAt_total (fun c => (dstx c, dsty c)) (cells sim) positions Hlen)
    as (positions1 & Hp1 & Hl1).
  assert (Hlen1 : (length (cells (switch sim)) <= length positions1)%nat).
  { cbn [switch cells]. rewrite length_map. lia. }
  destruct (placeAt_total (fun c => (dstx c, dsty c)) (cells (switch sim))
              positions1 Hlen1) as (positions2 & Hp2 & _).
  exists (switch sim), positions1, (switch (switch sim)), positions2.
  split; [| split; [| split]].
  - unfold preparePlay. rewrite bool_decide_eq_false_2 by congruence.
    rewrite Hp1. reflexivity.
  - unfold preparePlay.
    rewrite bool_decide_eq_false_2.
    + rewrite Hp2. reflexivity.
    + cbn [switch reversed]. destruct r, (reversed sim); simpl; congruence.
  - cbn [switch cells]. rewrite !map_map.
    apply map_ext. intros c. apply endpoints_swap_twice.
  - cbn [switch reversed]. apply negb_involutive.
Qed.

(** The pair of cells, played in reverse and forward again. *)
Lemma preparePlay_round_trip_witness :
  true <> reversed simAB
  /\ (length (cells simAB) <= length positionsAB)%nat
  /\ exists sim1 positions1 sim2 positions2,
       preparePlay simAB positionsAB true = Some (sim1, positions1)
       /\ preparePlay sim1 positions1 (negb true) = Some (sim2, positions2)
       /\ map endpoints (cells sim2) = map endpoints (cells simAB)
       /\ reversed sim2 = reversed simAB.
Proof.
  assert (H1 : true <> reversed simAB) by discriminate.
  assert (H2 : (length (cells simAB) <= length positionsAB)%nat) by (simpl; lia).
  split; [exact H1 |]. split; [exact H2 |].
  exact (preparePlay_round_trip simAB positionsAB true H1 H2).
Defined.

(** ** The drawing solver: search radius *)

Lemma pow099Model_nonneg (x : Q) : (0 <= pow099Model x)%Q.
Proof.
  unfold pow099Model.
  apply Qmult_le_0_compat.
  - apply Qpower_0_le. lra.
  - pose proof (Qfloor_le x). pose proof (Qlt_floor x) as Hlt.
    rewrite inject_Z_plus in Hlt. change (inject_Z 1) with 1%Q in Hlt.
    set (n := inject_Z (Qfloor x)) in *.
    unfold Qdiv. change (/ 100)%Q with (1 # 100)%Q. lra.
Qed.

Section DrawingRadius.

Variable pow099 : Q -> Q.
Hypothesis pow099_nonneg : forall x, (0 <= pow099 x)%Q.

(** The radius is scaled from the constant canvas size: 128 / 4 = 32. *)
Lemma maxDist_formula (age : Q) :
  Drawing.maxDist pow099 age = JS.round (32 * pow099 (age / 30))%Q.
Proof.
  unfold Drawing.maxDist, JS.round. apply Qfloor_comp.
  unfold Drawing.DRAWING_CANVAS_SIZE.
  apply Qplus_comp; [| reflexivity].
  apply Qmult_comp; [| reflexivity].
  unfold Qeq. reflexivity.
Qed.

Lemma maxDist_nonneg (age : Q) : 0 <= Drawing.maxDist pow099 age.
Proof.
  rewrite maxDist_formula. unfold JS.round.
  change 0 with (Qfloor 0). apply Qfloor_resp_le.
  pose proof (pow099_nonneg (age / 30)). lra.
Qed.

(** Clamping a point near [a] into an interval that holds [a] keeps it as
    near. *)
Lemma clamp_near (a r m hi : Z) :
  0 <= a <= hi -> - m <= r <= m ->
  Z.abs (Z.min hi (Z.max 0 (a + r)) - a) <= m.
Proof. lia. Qed.

Lemma sampleTrial_within (sidelen : Z) (pixelData : list Drawing.PixelData)
    (n : nat) (g g' : SeededRNG.t) (apos bx by_ : Z) :
  0 < sidelen ->
  0 < Z.of_nat n <= sidelen * sidelen ->
  Drawing.sampleTrial pow099 sidelen pixelData n g = (g', (apos, bx, by_)) ->
  Z.abs (bx - apos mod sidelen) <= Drawing.maxDist pow099 (Drawing.ageAt pixelData apos)
  /\ Z.abs (by_ - apos / sidelen) <= Drawing.maxDist pow099 (Drawing.ageAt pixelData apos).
Proof.
  intros HS Hn. unfold Drawing.sampleTrial.
  pose proof (range_bounds g 0 (Z.of_nat n) ltac:(lia)) as Ha.
  destruct (SeededRNG.range g 0 (Z.of_nat n)) as [g1 a] eqn:E1. cbn [snd] in Ha.
  set (m := Drawing.maxDist pow099 (Drawing.ageAt pixelData a)).
  pose proof (maxDist_nonneg (Drawing.ageAt pixelData a)) as Hm. fold m in Hm.
  pose proof (range_bounds g1 (- m) (m + 1) ltac:(lia)) as Hx.
  destruct (SeededRNG.range g1 (- m) (m + 1)) as [g2 rx] eqn:E2. cbn [snd] in Hx.
  pose proof (range_bounds g2 (- m) (m + 1) ltac:(lia)) as Hy.
  destruct (SeededRNG.range g2 (- m) (m + 1)) as [g3 ry] eqn:E3. cbn [snd] in Hy.
  intros [= <- <- <- <-].
  pose proof (Z.mod_pos_bound a sidelen HS).
  assert (0 <= a / sidelen) by (apply Z.div_pos; lia).
  assert (a / sidelen < sidelen) by (apply Z.div_lt_upper_bound; lia).
  split; apply clamp_near; lia.
Qed.

End DrawingRadius.

(** A pair that is too far apart is skipped: the trial only advances the
    generator. *)
Lemma trial_skipped pow099 (s : Drawing.Session) (st : Drawing.LoopState) g apos bx by_ :
  Drawing.sampleTrial pow099 (Drawing.sessSidelen s) (Drawing.sessPixelData s)
    (length (Drawing.pixels st)) (Drawing.rng st) = (g, (apos, bx, by_)) ->
  Drawing.tooFar pow099 (Drawing.sessSidelen s) (Drawing.sessPixelData s) apos bx by_
    = true ->
  Drawing.trial pow099 s st
  = Some {| Drawing.pixels := Drawing.pixels st; Drawing.rng := g;
            Drawing.swapsMade := Drawing.swapsMade st |}.
Proof. intros Hs Hfar. unfold Drawing.trial. by rewrite Hs, Hfar. Qed.

(** The handler's initial array exists as soon as the colours and the
    target cover the source pixels. *)
Lemma drawing_initPixels_total (s : Drawing.Session) (sourcePixels : list RGB) :
  (length sourcePixels <= length (Drawing.sessColors s))%nat ->
  (length sourcePixels <= length (Drawing.sessTarget s))%nat ->
  (length sourcePixels <= length (Drawing.sessWeights s))%nat ->
  exists px, Drawing.initPixels s sourcePixels = Some px
             /\ length px = length sourcePixels.
Proof.
  intros Hc Ht Hw. unfold Drawing.initPixels.
  match goal with |- context [mapM ?f ?l] =>
    assert (Hsome : is_Some (mapM f l)) end.
  { apply mapM_is_Some, Forall_forall. intros [i rgb] Hin.
    apply elem_of_lookup_imap in Hin as (j & rgb' & [= -> ->] & Hj).
    apply lookup_lt_Some in Hj. unfold compose.
    destruct (lookup_lt_is_Some_2 (Drawing.sessColors s) j ltac:(lia)) as [c ->].
    destruct (lookup_lt_is_Some_2 (Drawing.sessTarget s) j ltac:(lia)) as [t ->].
    destruct (lookup_lt_is_Some_2 (Drawing.sessWeights s) j ltac:(lia)) as [w ->].
    eexists. reflexivity. }
  destruct Hsome as [px Hpx]. exists px. split; [exact Hpx |].
  apply length_mapM in Hpx. rewrite length_imap in Hpx. congruence.
Qed.

(** C8, amended.  In a drawing session whose pixel array fits its grid,
    every trial samples [b] within [maxDist(age(a))] of [a] in each axis
    and skips the pair when [|bx - ax|] or [|by - ay|] exceeds
    [maxDist(age(b))], where [maxDist(age) = round(32 * 0.99^(age / 30))]:
    the 32 is [DRAWING_CANVAS_SIZE / 4], whatever [sidelen] the session is
    configured with. *)
Theorem drawing_trial_radius (pow099 : Q -> Q) (s : Drawing.Session)
    (st : Drawing.LoopState) (g : SeededRNG.t) (apos bx by_ : Z) :
  (forall x, (0 <= pow099 x)%Q) ->
  0 < Drawing.sessSidelen s ->
  0 < Z.of_nat (length (Drawing.pixels st))
    <= Drawing.sessSidelen s * Drawing.sessSidelen s ->
  Drawing.sampleTrial pow099 (Drawing.sessSidelen s) (Drawing.sessPixelData s)
    (length (Drawing.pixels st)) (Drawing.rng st) = (g, (apos, bx, by_)) ->
  let ax := apos mod Drawing.sessSidelen s in
  let ay := apos / Drawing.sessSidelen s in
  let bpos := by_ * Drawing.sessSidelen s + bx in
  let maxDistA := Drawing.maxDist pow099 (Drawing.ageAt (Drawing.sessPixelData s) apos) in
  let maxDistB := Drawing.maxDist pow099 (Drawing.ageAt (Drawing.sessPixelData s) bpos) in
  (forall age, Drawing.maxDist pow099 age = JS.round (32 * pow099 (age / 30))%Q)
  /\ Z.abs (bx - ax) <= maxDistA
  /\ Z.abs (by_ - ay) <= maxDistA
  /\ (maxDistB < Z.abs (bx - ax) \/ maxDistB < Z.abs (by_ - ay) ->
      Drawing.trial pow099 s st
      = Some {| Drawing.pixels := Drawing.pixels st; Drawing.rng := g;
                Drawing.swapsMade := Drawing.swapsMade st |}).
Proof.
  intros Hpow HS Hn Hsample ax ay bpos maxDistA maxDistB.
  split; [intros age; apply maxDist_formula |].
  destruct (sampleTrial_within pow099 Hpow _ _ _ _ _ _ _ _ HS Hn Hsample) as [Hx Hy].
  split; [exact Hx |]. split; [exact Hy |].
  intros Hfar. apply (trial_skipped pow099 s st g apos bx by_ Hsample).
  unfold Drawing.tooFar. fold ax ay bpos maxDistB.
  apply orb_true_iff. destruct Hfar; [left | right]; by apply Z.ltb_lt.
Qed.

Lemma length_fresh64 : length (Drawing.pixels fresh64) = 4096%nat.
Proof.
  unfold fresh64, upto. cbn [Drawing.pixels]. rewrite !length_map, length_seq.
  reflexivity.
Qed.

(** The first trial of the session of side 64: [a = (44, 62)], and
    [b = (31, 61)] was edited too long ago to be paired. *)
Lemma drawing_trial_radius_witness :
  (forall x, (0 <= pow099Model x)%Q)
  /\ 0 < Drawing.sessSidelen session64
  /\ 0 < Z.of_nat (length (Drawing.pixels fresh64))
      <= Drawing.sessSidelen session64 * Drawing.sessSidelen session64
  /\ Drawing.sampleTrial pow099Model (Drawing.sessSidelen session64)
       (Drawing.sessPixelData session64) (length (Drawing.pixels fresh64))
       (Drawing.rng fresh64) = (5494709784, (4012, 31, 61))
  /\ Z.abs (31 - 4012 mod 64) <= Drawing.maxDist pow099Model 0
  /\ Drawing.trial pow099Model session64 fresh64
     = Some {| Drawing.pixels := Drawing.pixels fresh64; Drawing.rng := 5494709784;
               Drawing.swapsMade := 0 |}.
Proof.
  assert (H1 : 0 < Drawing.sessSidelen session64) by reflexivity.
  assert (H2 : 0 < Z.of_nat (length (Drawing.pixels fresh64))
               <= Drawing.sessSidelen session64 * Drawing.sessSidelen session64)
    by (rewrite length_fresh64; split; [reflexivity | discriminate]).
  assert (H3 : Drawing.sampleTrial pow099Model (Drawing.sessSidelen session64)
                 (Drawing.sessPixelData session64) (length (Drawing.pixels fresh64))
                 (Drawing.rng fresh64) = (5494709784, (4012, 31, 61)))
    by (rewrite length_fresh64; vm_compute; reflexivity).
  split; [exact pow099Model_nonneg |]. split; [exact H1 |].
  split; [exact H2 |]. split; [exact H3 |].
  pose proof (drawing_trial_radius pow099Model session64 fresh64 _ _ _ _
                pow099Model_nonneg H1 H2 H3) as (_ & Hx & _ & Hskip).
  split; [exact Hx |].
  apply Hskip. left. vm_compute. reflexivity.
Defined.

Lemma drawing_trials_S pow099 s (k : nat) st :
  Drawing.trials pow099 s (S k) st
  = Drawing.trial pow099 s st ≫= Drawing.trials pow099 s k.
Proof. reflexivity. Qed.

Lemma session64_source_length :
  length (extractRGB (croppedSource nearestNeighbour blackSource64 settings64))
  = 4096%nat.
Proof. vm_compute. reflexivity. Qed.

(** The first two trials of the session of side 64 skip their pairs. *)
Lemma session64_first_trial (px : list Drawing.Pixel) :
  length px = 4096%nat ->
  Drawing.trial pow099Model session64
    {| Drawing.pixels := px; Drawing.rng := SeededRNG.new 12345;
       Drawing.swapsMade := 0 |}
  = Some {| Drawing.pixels := px; Drawing.rng := 5494709784;
            Drawing.swapsMade := 0 |}.
Proof.
  intros Hlen.
  pose proof (trial_skipped pow099Model session64
                {| Drawing.pixels := px; Drawing.rng := SeededRNG.new 12345;
                   Drawing.swapsMade := 0 |} 5494709784 4012 31 61) as H.
  cbn [Drawing.pixels Drawing.rng Drawing.swapsMade] in H. apply H.
  - rewrite Hlen. vm_compute. reflexivity.
  - vm_compute. reflexivity.
Qed.

Lemma session64_second_trial (px : list Drawing.Pixel) :
  length px = 4096%nat ->
  Drawing.trial pow099Model session64
    {| Drawing.pixels := px; Drawing.rng := 5494709784; Drawing.swapsMade := 0 |}
  = Some {| Drawing.pixels := px; Drawing.rng := 10989407223;
            Drawing.swapsMade := 0 |}.
Proof.
  intros Hlen.
  pose proof (trial_skipped pow099Model session64
                {| Drawing.pixels := px; Drawing.rng := 5494709784;
                   Drawing.swapsMade := 0 |} 10989407223 3350 23 42) as H.
  cbn [Drawing.pixels Drawing.rng Drawing.swapsMade] in H. apply H.
  - rewrite Hlen. vm_compute. reflexivity.
  - vm_compute. reflexivity.
Qed.

Lemma session64_third_sample (px : list Drawing.Pixel) :
  length px = 4096%nat ->
  Drawing.sampleTrial pow099Model (sidelen settings64) pixelData64
    (length px) 10989407223 = (16484104662, (302, 63, 36)).
Proof. intros ->. vm_compute. reflexivity. Qed.

Lemma session64_start :
  exists px,
    length px = 4096%nat
    /\ Drawing.start nearestNeighbour blackSource64 settings64 colors64 pixelData64
       = Some {| Drawing.pixels := px; Drawing.rng := SeededRNG.new 12345;
                 Drawing.swapsMade := 0 |}.
Proof.
  destruct (drawing_initPixels_total session64
              (extractRGB (croppedSource nearestNeighbour blackSource64 settings64)))
    as (px & Hpx & Hlpx).
  - rewrite session64_source_length. vm_compute. lia.
  - rewrite session64_source_length. vm_compute. lia.
  - rewrite session64_source_length. vm_compute. lia.
  - exists px. split; [rewrite Hlpx; apply session64_source_length |].
    unfold Drawing.start. fold session64. rewrite Hpx. reflexivity.
Qed.

(** C8 as stated fails.  The session of side 64 starts, skips its first
    two pairs, and in its third trial draws [a = (46, 4)] and
    [b = (63, 36)] without skipping the pair: 17 columns and 32 rows apart,
    where [round((64 / 4) * 0.99^0)] is 16. *)
Lemma drawing_radius_ignores_sidelen :
  exists st0 st2,
    Drawing.start nearestNeighbour blackSource64 settings64 colors64 pixelData64
      = Some st0
    /\ Drawing.trials pow099Model session64 2 st0 = Some st2
    /\ Drawing.sampleTrial pow099Model (sidelen settings64) pixelData64
         (length (Drawing.pixels st2)) (Drawing.rng st2)
       = (16484104662, (302, 63, 36))
    /\ Drawing.tooFar pow099Model (sidelen settings64) pixelData64 302 63 36 = false
    /\ specMaxDist pow099Model (sidelen settings64) (Drawing.ageAt pixelData64 302) = 16
    /\ Z.abs (63 - 302 mod sidelen settings64) = 17
    /\ Z.abs (36 - 302 / sidelen settings64) = 32.
Proof.
  destruct session64_start as (px & Hlen & Hstart).
  eexists _, {| Drawing.pixels := px; Drawing.rng := 10989407223;
                Drawing.swapsMade := 0 |}.
  split; [exact Hstart |].
  split.
  { rewrite drawing_trials_S, (session64_first_trial px Hlen), bind_Some.
    rewrite drawing_trials_S, (session64_second_trial px Hlen), bind_Some.
    reflexivity. }
  split; [exact (session64_third_sample px Hlen) |].
  repeat split; vm_compute; reflexivity.
Qed.

(* ===================================================================== *)
(** * Further properties of the code *)
(* ===================================================================== *)

(** ** utils/math.ts *)

Lemma sq_nonneg (a : Z) : 0 <= a ^ 2.
Proof. rewrite Z.pow_2_r. apply Z.square_nonneg. Qed.

Lemma sq_zero (a : Z) : a ^ 2 = 0 -> a = 0.
Proof. rewrite Z.pow_2_r. nia. Qed.

(** A weighted colour term and a squared spatial term vanish together
    only when both do. *)
Lemma weighted_sum_zero (color spatial colorWeight spatialWeight : Z) :
  0 <= color -> 0 < colorWeight -> spatialWeight <> 0 ->
  color * colorWeight + (spatial * spatialWeight) ^ 2 = 0 ->
  color = 0 /\ spatial = 0.
Proof.
  intros Hc Hw Hs H0.
  pose proof (sq_nonneg (spatial * spatialWeight)) as H1.
  pose proof (Z.mul_nonneg_nonneg color colorWeight Hc ltac:(lia)) as H2.
  assert (Hz1 : color * colorWeight = 0) by lia.
  assert (Hz2 : (spatial * spatialWeight) ^ 2 = 0) by lia.
  apply Z.mul_eq_0 in Hz1 as [? | ?]; [| lia].
  apply sq_zero, Z.mul_eq_0 in Hz2 as [? | ?]; [| contradiction].
  split; assumption.
Qed.

Lemma sum_sq2_zero (a b : Z) : a ^ 2 + b ^ 2 = 0 -> a = 0 /\ b = 0.
Proof.
  intros H. pose proof (sq_nonneg a). pose proof (sq_nonneg b).
  split; apply sq_zero; lia.
Qed.

Lemma sum_sq3_zero (a b c : Z) : a ^ 2 + b ^ 2 + c ^ 2 = 0 -> a = 0 /\ b = 0 /\ c = 0.
Proof.
  intros H. pose proof (sq_nonneg a). pose proof (sq_nonneg b).
  pose proof (sq_nonneg c). repeat split; apply sq_zero; lia.
Qed.

Lemma heuristic_nonneg (apos bpos : Point) (a b : RGB) (colorWeight spatialWeight : Z) :
  0 <= colorWeight -> 0 <= heuristic apos bpos a b colorWeight spatialWeight.
Proof.
  intros Hc. destruct apos as [ax ay], bpos as [bx by_].
  destruct a as [[a0 a1] a2], b as [[b0 b1] b2]. unfold heuristic.
  apply Z.add_nonneg_nonneg; [| apply sq_nonneg].
  apply Z.mul_nonneg_nonneg; [| exact Hc].
  repeat apply Z.add_nonneg_nonneg; apply sq_nonneg.
Qed.

Lemma heuristic_same (pos : Point) (a : RGB) (colorWeight spatialWeight : Z) :
  heuristic pos pos a a colorWeight spatialWeight = 0.
Proof.
  destruct pos as [x y], a as [[a0 a1] a2]. unfold heuristic.
  rewrite !Z.sub_diag. reflexivity.
Qed.

(** X1.  With a positive colour weight and a non-zero spatial weight the
    heuristic is never negative, and it is 0 exactly when the two positions
    and the two colours coincide. *)
Theorem heuristic_zero_iff (apos bpos : Point) (a b : RGB)
    (colorWeight spatialWeight : Z) :
  0 < colorWeight -> spatialWeight <> 0 ->
  0 <= heuristic apos bpos a b colorWeight spatialWeight
  /\ (heuristic apos bpos a b colorWeight spatialWeight = 0
      <-> apos = bpos /\ a = b).
Proof.
  intros Hc Hs. split; [apply heuristic_nonneg; lia |]. split.
  - destruct apos as [ax ay], bpos as [bx by_].
    destruct a as [[a0 a1] a2], b as [[b0 b1] b2]. unfold heuristic. intros H0.
    apply weighted_sum_zero in H0 as [Hcol Hsp]; [| | exact Hc | exact Hs].
    + apply sum_sq3_zero in Hcol as (E0 & E1 & E2).
      apply sum_sq2_zero in Hsp as (Ex & Ey).
      assert (ax = bx) as -> by lia. assert (ay = by_) as -> by lia.
      assert (a0 = b0) as -> by lia. assert (a1 = b1) as -> by lia.
      assert (a2 = b2) as -> by lia. split; reflexivity.
    + pose proof (sq_nonneg (a0 - b0)). pose proof (sq_nonneg (a1 - b1)).
      pose proof (sq_nonneg (a2 - b2)).
      repeat apply Z.add_nonneg_nonneg; assumption.
  - intros [-> ->]. apply heuristic_same.
Qed.

(** Identical endpoints and colours score 0; one step apart in space with
    the default weights scores 169. *)
Lemma heuristic_zero_iff_witness :
  0 <= heuristic (1, 2) (1, 2) (10, 20, 30) (10, 20, 30) 255 13
  /\ (heuristic (1, 2) (1, 2) (10, 20, 30) (10, 20, 30) 255 13 = 0
      <-> (1, 2) = (1, 2) /\ (10, 20, 30) = (10, 20, 30)).
Proof.
  apply (heuristic_zero_iff (1, 2) (1, 2) (10, 20, 30) (10, 20, 30) 255 13); lia.
Defined.

Lemma two32 : 2 ^ 32 = 4294967296.
Proof. reflexivity. Qed.

Lemma two31 : 2 ^ 31 = 2147483648.
Proof. reflexivity. Qed.

Lemma toInt32_range (z : Z) : - 2147483648 <= JS.toInt32 z < 2147483648.
Proof.
  unfold JS.toInt32. rewrite two32, two31.
  pose proof (Z.mod_pos_bound (z + 2147483648) 4294967296). lia.
Qed.

(** Two integers that differ by a multiple of 2^32 have the same signed
    32-bit reading. *)
Lemma toInt32_congr (a b k : Z) :
  a = b + k * 4294967296 -> JS.toInt32 a = JS.toInt32 b.
Proof.
  intros ->. unfold JS.toInt32. rewrite two32, two31.
  replace (b + k * 4294967296 + 2147483648)
    with (b + 2147483648 + k * 4294967296) by lia.
  by rewrite Z_mod_plus_full.
Qed.

Lemma toInt32_eqm (z : Z) : exists k, JS.toInt32 z = z + k * 4294967296.
Proof.
  exists (- ((z + 2147483648) / 4294967296)). unfold JS.toInt32.
  rewrite two32, two31.
  pose proof (Z_div_mod_eq_full (z + 2147483648) 4294967296). lia.
Qed.

(** One round of the loop of [hashCode] is a Horner step modulo 2^32. *)
Lemma hashStep_poly (p c : Z) :
  hashStep (JS.toInt32 p) c = JS.toInt32 (31 * p + c).
Proof.
  unfold hashStep, JS.and32, JS.shl32. rewrite Z.land_diag.
  rewrite Z.shiftl_mul_pow2 by lia.
  destruct (toInt32_eqm p) as [k1 H1].
  destruct (toInt32_eqm (JS.toInt32 p)) as [k2 H2].
  destruct (toInt32_eqm (JS.toInt32 (JS.toInt32 p) * 2 ^ 5)) as [k3 H3].
  apply (toInt32_congr _ _ (32 * k1 + 32 * k2 + k3 - k1)).
  revert H1 H2 H3.
  generalize (JS.toInt32 (JS.toInt32 (JS.toInt32 p) * 2 ^ 5)).
  generalize (JS.toInt32 (JS.toInt32 p)).
  generalize (JS.toInt32 p).
  intros A B C H1 H2 H3. change (2 ^ 5) with 32 in H3. lia.
Qed.

Lemma toInt32_small (z : Z) :
  - 2147483648 <= z < 2147483648 -> JS.toInt32 z = z.
Proof.
  intros Hz. unfold JS.toInt32. rewrite two32, two31.
  rewrite Z.mod_small by lia. lia.
Qed.

Lemma fold_left_cons {A B} (f : A -> B -> A) (x : B) (l : list B) (a : A) :
  fold_left f (x :: l) a = fold_left f l (f a x).
Proof. reflexivity. Qed.

Lemma hashLoop_poly (units : list Z) (hash p : Z) :
  hash = JS.toInt32 p ->
  fold_left hashStep units hash
  = JS.toInt32 (fold_left (fun acc c => 31 * acc + c) units p).
Proof.
  revert hash p. induction units as [| c units IH]; intros hash p ->; [reflexivity |].
  rewrite !fold_left_cons. apply IH, hashStep_poly.
Qed.

(** X2.  [hashCode] is the absolute value of the Horner polynomial of the
    code units in base 31, wrapped to a signed 32-bit integer; it lies in
    [0, 2^31], the upper end included. *)
Theorem hashCode_polynomial (s : string) :
  hashCode s = Z.abs (JS.toInt32 (hashPolynomial (codeUnits s)))
  /\ 0 <= hashCode s <= 2 ^ 31.
Proof.
  assert (H : hashCode s = Z.abs (JS.toInt32 (hashPolynomial (codeUnits s)))).
  { unfold hashCode, hashCodeUnits, hashPolynomial. f_equal.
    apply hashLoop_poly. symmetry. apply toInt32_small. lia. }
  split; [exact H |]. rewrite H.
  pose proof (toInt32_range (hashPolynomial (codeUnits s))) as Hr.
  rewrite two31. lia.
Qed.

(** ** The seeded generator *)

(** X3.  [range(min, max)] with [min < max], both within [-2^52, 2^52],
    returns an integer of [min, max), whatever the state of the generator;
    the rounding of the product to a double never reaches [max].  Within
    these bounds the difference [max - min] and the final sum are exact. *)
Theorem seededRNG_range_within (g : SeededRNG.t) (lo hi : Z) :
  - 2 ^ 52 <= lo -> hi <= 2 ^ 52 ->
  lo < hi ->
  lo <= (SeededRNG.range g lo hi).2 < hi.
Proof. intros _ _. apply range_bounds. Qed.

(** A draw of [range(-5, 6)] from the generator seeded with 12345. *)
Lemma seededRNG_range_within_witness :
  (SeededRNG.range (SeededRNG.new 12345) (-5) 6).2 = 5
  /\ -5 <= (SeededRNG.range (SeededRNG.new 12345) (-5) 6).2 < 6.
Proof.
  split; [vm_compute; reflexivity |].
  apply (seededRNG_range_within (SeededRNG.new 12345) (-5) 6); lia.
Defined.

(** ** utils/image.ts *)

Lemma extractRGB_triples (n : nat) (data : list Z) :
  length data = (3 * n)%nat ->
  flattenRGB (extractRGB data) = data /\ length (extractRGB data) = n.
Proof.
  revert data. induction n as [| n IH]; intros data Hlen.
  - destruct data; [split; reflexivity | discriminate].
  - destruct data as [| r [| g [| b rest]]]; simpl in Hlen; try lia.
    destruct (IH rest ltac:(lia)) as [Hflat Hl].
    cbn [extractRGB]. unfold flattenRGB in *. cbn [flat_map length app].
    rewrite Hflat, Hl. split; reflexivity.
Qed.

(** X4.  [extractRGB] and the byte layout are inverse to each other: the
    pixels of a flattened pixel list are that list, and a buffer of [3 * n]
    bytes has [n] pixels whose bytes are the buffer. *)
Theorem extractRGB_round_trip (l : list RGB) (n : nat) (data : list Z) :
  length data = (3 * n)%nat ->
  extractRGB (flattenRGB l) = l
  /\ flattenRGB (extractRGB data) = data
  /\ length (extractRGB data) = n.
Proof.
  intros Hlen. split; [| by apply extractRGB_triples].
  induction l as [| [[r g] b] l IH]; [reflexivity |].
  unfold flattenRGB in *. cbn [flat_map app extractRGB]. by rewrite IH.
Qed.

Lemma extractRGB_round_trip_witness :
  extractRGB (flattenRGB [(1, 2, 3); (4, 5, 6)]) = [(1, 2, 3); (4, 5, 6)]
  /\ flattenRGB (extractRGB [10; 20; 30; 40; 50; 60]) = [10; 20; 30; 40; 50; 60]
  /\ length (extractRGB [10; 20; 30; 40; 50; 60]) = 2%nat.
Proof.
  apply (extractRGB_round_trip [(1, 2, 3); (4, 5, 6)] 2 [10; 20; 30; 40; 50; 60]).
  reflexivity.
Defined.

(** One more assignment is one more pixel written behind the others. *)
Lemma makeNewImage_snoc sourcePixels assignments s width height :
  makeNewImage sourcePixels (assignments ++ [s]) width height
  = img ← makeNewImage sourcePixels assignments width height;
    '(r, g, b) ← JS.index sourcePixels s;
    let base := (length assignments * 3)%nat in
    Some (<[(base + 2)%nat := b]> (<[(base + 1)%nat := g]> (<[base := r]> img))).
Proof.
  unfold makeNewImage. rewrite imap_app, foldl_app. cbn [imap foldl].
  rewrite Nat.add_0_r. reflexivity.
Qed.

(** What [makeNewImage] has done after the assignments given to it. *)
Lemma makeNewImage_spec sourcePixels width height assignments :
  match makeNewImage sourcePixels assignments width height with
  | None => exists s, s ∈ assignments /\ JS.index sourcePixels s = None
  | Some img =>
      length img = Z.to_nat (width * height * 3)
      /\ (forall s, s ∈ assignments -> is_Some (JS.index sourcePixels s))
      /\ (forall (t : nat) s r g b,
            assignments !! t = Some s ->
            JS.index sourcePixels s = Some (r, g, b) ->
            (3 * t + 2 < length img)%nat ->
            img !! (3 * t)%nat = Some r
            /\ img !! (3 * t + 1)%nat = Some g
            /\ img !! (3 * t + 2)%nat = Some b)
      /\ (forall j : nat,
            (3 * length assignments <= j < length img)%nat -> img !! j = Some 0)
  end.
Proof.
  induction assignments as [| s assignments IH] using rev_ind.
  - cbn. split; [by rewrite length_replicate |].
    split; [intros s Hs; by apply elem_of_nil in Hs |].
    split; [intros t s r g b Ht; by rewrite lookup_nil in Ht |].
    intros j Hj. apply lookup_replicate_2. rewrite length_replicate in Hj. lia.
  - rewrite makeNewImage_snoc.
    destruct (makeNewImage sourcePixels assignments width height) as [img |];
      cbn [mbind option_bind].
    + destruct IH as (Hlen & Hvalid & Hpix & Hzero).
      destruct (JS.index sourcePixels s) as [[[r g] b] |] eqn:Hs; cbn [mbind option_bind].
      * rewrite !length_insert. split; [exact Hlen |]. split.
        { intros s' Hs'. apply elem_of_app in Hs' as [Hs' | Hs']; [by apply Hvalid |].
          apply list_elem_of_singleton in Hs' as ->. by rewrite Hs. }
        split.
        { intros t s' r' g' b' Ht Hs' Hlt.
          destruct (decide (t < length assignments)%nat) as [Hin | Hout].
          - rewrite lookup_app_l in Ht by exact Hin.
            rewrite !list_lookup_insert_ne by lia. by eapply Hpix.
          - apply lookup_lt_Some in Ht as Hlt'. rewrite length_app in Hlt'.
            cbn [length] in Hlt'.
            assert (t = length assignments) as -> by lia.
            rewrite lookup_app_r, Nat.sub_diag in Ht by lia. injection Ht as <-.
            rewrite Hs in Hs'. injection Hs' as <- <- <-.
            replace (length assignments * 3)%nat with (3 * length assignments)%nat by lia.
            split; [| split].
            + rewrite !list_lookup_insert_ne by lia.
              apply list_lookup_insert_eq. lia.
            + rewrite list_lookup_insert_ne by lia.
              apply list_lookup_insert_eq. rewrite length_insert. lia.
            + apply list_lookup_insert_eq. rewrite !length_insert. lia. }
        intros j Hj. rewrite length_app in Hj. cbn [length] in Hj.
        rewrite !list_lookup_insert_ne by lia. apply Hzero. lia.
      * exists s. split; [| exact Hs].
        apply elem_of_app. right. by apply list_elem_of_singleton.
    + destruct IH as (s' & Hs' & Hnone). exists s'. split; [| exact Hnone].
      apply elem_of_app. by left.
Qed.

(** X5.  For an image of a length [width * height * 3] that a typed array
    can have (not negative, below 2^53), [makeNewImage] throws exactly when
    some assignment names no source pixel (a negative index or one past
    the end of [sourcePixels]). *)
Theorem makeNewImage_throws_iff (sourcePixels : list RGB) (assignments : list Z)
    (width height : Z) :
  0 <= width * height * 3 < 2 ^ 53 ->
  makeNewImage sourcePixels assignments width height = None
  <-> exists s, s ∈ assignments /\ JS.index sourcePixels s = None.
Proof.
  intros _.
  pose proof (makeNewImage_spec sourcePixels width height assignments) as H.
  destruct (makeNewImage sourcePixels assignments width height) as [img |].
  - split; [discriminate |]. intros (s & Hs & Hnone).
    destruct H as (_ & Hvalid & _). destruct (Hvalid s Hs) as [p Hp]. congruence.
  - split; [intros _; exact H | reflexivity].
Qed.

(** One source pixel and an assignment that names a second one. *)
Lemma makeNewImage_throws_iff_witness :
  makeNewImage [(1, 2, 3)] [0; 1] 2 1 = None
  /\ (makeNewImage [(1, 2, 3)] [0; 1] 2 1 = None
      <-> exists s, s ∈ [0; 1] /\ JS.index [(1, 2, 3)] s = None).
Proof.
  split; [reflexivity |].
  apply (makeNewImage_throws_iff [(1, 2, 3)] [0; 1] 2 1). split; [lia | reflexivity].
Defined.

(** X6.  For source pixels of bytes and an image of a length
    [width * height * 3] that a typed array can have (not negative, below
    2^53): when [makeNewImage] returns, the image has [3 * width * height] bytes,
    target pixel [t] inside it carries the colour of the source pixel
    [assignments[t]], and the bytes behind the last assigned pixel are 0. *)
Theorem makeNewImage_pixels (sourcePixels : list RGB) (assignments : list Z)
    (width height : Z) (img : list Z) :
  0 <= width * height * 3 < 2 ^ 53 ->
  Forall byteRGB sourcePixels ->
  makeNewImage sourcePixels assignments width height = Some img ->
  length img = Z.to_nat (width * height * 3)
  /\ (forall (t : nat) s r g b,
        assignments !! t = Some s ->
        JS.index sourcePixels s = Some (r, g, b) ->
        (3 * t + 2 < length img)%nat ->
        img !! (3 * t)%nat = Some r
        /\ img !! (3 * t + 1)%nat = Some g
        /\ img !! (3 * t + 2)%nat = Some b)
  /\ (forall j : nat,
        (3 * length assignments <= j < length img)%nat -> img !! j = Some 0).
Proof.
  intros _ _ Himg.
  pose proof (makeNewImage_spec sourcePixels width height assignments) as H.
  rewrite Himg in H. destruct H as (Hlen & _ & Hpix & Hzero). auto.
Qed.

(** Two source pixels exchanged into an image of three. *)
Lemma makeNewImage_pixels_witness :
  makeNewImage [(1, 2, 3); (4, 5, 6)] [1; 0] 3 1 = Some [4; 5; 6; 1; 2; 3; 0; 0; 0]
  /\ length [4; 5; 6; 1; 2; 3; 0; 0; 0] = Z.to_nat (3 * 1 * 3)
  /\ (forall (t : nat) s r g b,
        [1; 0] !! t = Some s ->
        JS.index [(1, 2, 3); (4, 5, 6)] s = Some (r, g, b) ->
        (3 * t + 2 < length [4; 5; 6; 1; 2; 3; 0; 0; 0])%nat ->
        [4; 5; 6; 1; 2; 3; 0; 0; 0] !! (3 * t)%nat = Some r
        /\ [4; 5; 6; 1; 2; 3; 0; 0; 0] !! (3 * t + 1)%nat = Some g
        /\ [4; 5; 6; 1; 2; 3; 0; 0; 0] !! (3 * t + 2)%nat = Some b)
  /\ (forall j : nat,
        (3 * length [1; 0] <= j < length [4; 5; 6; 1; 2; 3; 0; 0; 0])%nat ->
        [4; 5; 6; 1; 2; 3; 0; 0; 0] !! j = Some 0).
Proof.
  split; [reflexivity |].
  apply (makeNewImage_pixels [(1, 2, 3); (4, 5, 6)] [1; 0] 3 1);
    [split; [lia | reflexivity] | | reflexivity].
  repeat (constructor; [cbn; lia |]). constructor.
Defined.

Lemma flattenRGB_lookup (l : list RGB) (t : nat) r g b :
  l !! t = Some (r, g, b) ->
  flattenRGB l !! (3 * t)%nat = Some r
  /\ flattenRGB l !! (3 * t + 1)%nat = Some g
  /\ flattenRGB l !! (3 * t + 2)%nat = Some b.
Proof.
  revert t. induction l as [| [[r' g'] b'] l IH]; intros [| t] Ht;
    try discriminate.
  - injection Ht as -> -> ->. repeat split; reflexivity.
  - replace (3 * S t)%nat with (S (S (S (3 * t)))) by lia.
    apply (IH t Ht).
Qed.

Lemma upto_lookup (n : Z) (t : nat) :
  (t < Z.to_nat n)%nat -> upto n !! t = Some (Z.of_nat t).
Proof.
  intros Ht. unfold upto. change (map Z.of_nat ?l) with (Z.of_nat <$> l).
  rewrite list_lookup_fmap, lookup_seq_lt by exact Ht. reflexivity.
Qed.

(** X7.  Under the identity assignment [makeNewImage] rebuilds the buffer
    the source pixels were extracted from. *)
Theorem makeNewImage_identity (data : list Z) (width height : Z) :
  0 <= width * height ->
  length data = Z.to_nat (width * height * 3) ->
  makeNewImage (extractRGB data) (upto (width * height)) width height = Some data.
Proof.
  intros Hn Hlen. set (n := Z.to_nat (width * height)).
  assert (Hlen3 : length data = (3 * n)%nat) by (subst n; lia).
  destruct (extractRGB_triples n data Hlen3) as [Hflat Hpx].
  pose proof (makeNewImage_spec (extractRGB data) width height
                (upto (width * height))) as H.
  destruct (makeNewImage _ _ _ _) as [img |].
  - destruct H as (Himg & _ & Hpix & _). f_equal.
    apply list_eq. intros j.
    destruct (decide (j < 3 * n)%nat) as [Hj | Hj].
    + set (t := (j / 3)%nat).
      assert (Ht : (t < n)%nat) by (subst t; apply Nat.Div0.div_lt_upper_bound; lia).
      destruct (lookup_lt_is_Some_2 (extractRGB data) t ltac:(lia)) as [[[r g] b] Hp].
      destruct (Hpix t (Z.of_nat t) r g b) as (H0 & H1 & H2).
      { apply upto_lookup. exact Ht. }
      { by rewrite index_nat. }
      { lia. }
      destruct (flattenRGB_lookup _ t r g b Hp) as (F0 & F1 & F2).
      rewrite Hflat in F0, F1, F2.
      pose proof (Nat.div_mod_eq j 3) as Hdm. fold t in Hdm.
      pose proof (Nat.mod_upper_bound j 3 ltac:(lia)) as Hm.
      destruct (j mod 3)%nat as [| [| [| c]]] eqn:Hc; [| | | lia].
      * replace j with (3 * t)%nat by lia. congruence.
      * replace j with (3 * t + 1)%nat by lia. congruence.
      * replace j with (3 * t + 2)%nat by lia. congruence.
    + rewrite !lookup_ge_None_2 by lia. reflexivity.
  - destruct H as (s & Hs & Hnone). exfalso.
    apply elem_of_upto in Hs. unfold JS.index in Hnone.
    destruct (Z.ltb_spec s 0); [lia |].
    apply lookup_ge_None in Hnone. lia.
Qed.

(** The identity on a 2x1 image. *)
Lemma makeNewImage_identity_witness :
  makeNewImage (extractRGB [10; 20; 30; 40; 50; 60]) (upto (2 * 1)) 2 1
  = Some [10; 20; 30; 40; 50; 60].
Proof.
  apply (makeNewImage_identity [10; 20; 30; 40; 50; 60] 2 1); [lia | reflexivity].
Defined.

Lemma Qfloor_between (q : Q) (lo hi : Z) :
  (inject_Z lo <= q)%Q -> (q <= inject_Z hi)%Q -> lo <= Qfloor q <= hi.
Proof.
  intros Hlo Hhi. split.
  - rewrite <- (Qfloor_Z lo). by apply Qfloor_resp_le.
  - rewrite <- (Qfloor_Z hi). by apply Qfloor_resp_le.
Qed.

Lemma cropSideOf_bounds (sourceWidth sourceHeight : Z) (cropScale : CropScale.t) :
  1 <= sourceWidth -> 1 <= sourceHeight ->
  1 <= cropSideOf sourceWidth sourceHeight cropScale
    <= Z.min sourceWidth sourceHeight.
Proof.
  intros HW HH. unfold cropSideOf. apply Qfloor_between.
  - apply Q.le_max_l.
  - apply Q.max_lub.
    + change 1%Q with (inject_Z 1). rewrite <- Zle_Qle. lia.
    + destruct (Z.min_spec sourceWidth sourceHeight) as [[_ ->] | [_ ->]].
      * eapply Qle_trans; [apply Q.le_min_l | apply Q.le_min_r].
      * apply Q.le_min_r.
Qed.

Lemma cropSideOf_square (S : Z) (cropScale : CropScale.t) :
  1 <= S -> (CropScale.scale cropScale <= 1)%Q -> cropSideOf S S cropScale = S.
Proof.
  intros HS Hscale.
  pose proof (cropSideOf_bounds S S cropScale HS HS) as [_ Hup].
  rewrite Z.min_id in Hup.
  assert (Hlow : S <= cropSideOf S S cropScale); [| lia].
  unfold cropSideOf. rewrite <- (Qfloor_Z S) at 1. apply Qfloor_resp_le.
  rewrite Z.min_id.
  eapply Qle_trans; [| apply Q.le_max_r].
  assert (H1 : (Qmax 1 (CropScale.scale cropScale) == 1)%Q).
  { apply Qle_antisym; [apply Q.max_lub; [apply Qle_refl | exact Hscale]
                       | apply Q.le_max_l]. }
  apply Q.min_glb; [apply Q.min_glb |]; try apply Qle_refl.
  rewrite H1. unfold Qdiv. change (/ 1)%Q with 1%Q. rewrite Qmult_1_r. apply Qle_refl.
Qed.

(** X9.  On a square source whose side is the target side,
    [applyCropScale] returns [3 * S * S] bytes whatever the crop, and at a
    scale of at most 1 it returns the source buffer itself. *)
Theorem applyCropScale_square (drawImageScaled : list Z -> Z -> Z -> list Z)
    (sourceImg : list Z) (S : Z) (cropScale : CropScale.t) :
  1 <= S ->
  length sourceImg = Z.to_nat (S * S * 3) ->
  length (applyCropScale drawImageScaled sourceImg S S S cropScale)
  = Z.to_nat (S * S * 3)
  /\ ((CropScale.scale cropScale <= 1)%Q ->
      applyCropScale drawImageScaled sourceImg S S S cropScale = sourceImg).
Proof.
  intros HS Hlen. split.
  - destruct (decide (cropSideOf S S cropScale = S)) as [Heq | Hne].
    + by rewrite applyCropScale_same_side.
    + by apply applyCropScale_resized_length.
  - intros Hscale. apply applyCropScale_same_side. by apply cropSideOf_square.
Qed.

(** The one-pixel image at side 1. *)
Lemma applyCropScale_square_witness :
  length (applyCropScale nearestNeighbour [10; 20; 30] 1 1 1 identityCrop)
  = Z.to_nat (1 * 1 * 3)
  /\ ((CropScale.scale identityCrop <= 1)%Q ->
      applyCropScale nearestNeighbour [10; 20; 30] 1 1 1 identityCrop = [10; 20; 30]).
Proof.
  apply (applyCropScale_square nearestNeighbour [10; 20; 30] 1 identityCrop);
    [lia | reflexivity].
Defined.

(** ** workers/algorithms.ts: the Genetic solver *)

(** X10.  A trial of the Genetic solver that swaps strictly lowers the sum
    of the stored [h] values, and a trial that does not swap leaves the
    array as it was. *)
Theorem genetic_trial_stored_sum (env : SolverEnv) (pixels : list Pixel)
    (apos bx by_ : Z) (pixels' : list Pixel) (swapped : bool) :
  swapTrial env pixels apos bx by_ = Some (pixels', swapped) ->
  if swapped then totalStored pixels' < totalStored pixels else pixels' = pixels.
Proof.
  destruct swapped; intros H.
  - by eapply swapTrial_stored_decreases.
  - by eapply swapTrial_rejected.
Qed.

(** The first swap of the 2x2 example: positions 0 and 1. *)
Lemma genetic_trial_stored_sum_witness :
  exists pixels',
    swapTrial env2x2 pixels2x2 0 1 0 = Some (pixels', true)
    /\ totalStored pixels' < totalStored pixels2x2.
Proof.
  eexists. split; [reflexivity |].
  apply (genetic_trial_stored_sum env2x2 pixels2x2 0 1 0 _ true). reflexivity.
Defined.

Lemma totalStored_nonneg (px : list Pixel) :
  Forall (fun p => 0 <= h p) px -> 0 <= totalStored px.
Proof.
  unfold totalStored. induction 1 as [| p px Hp _ IH]; simpl; lia.
Qed.

Section GeneticMeasure.

Variable env : SolverEnv.
Hypothesis weights_nonneg : Forall (fun w => 0 <= w) (weights env).

Lemma index_weight_nonneg (i w : Z) : JS.index (weights env) i = Some w -> 0 <= w.
Proof.
  intros H. apply index_Some in H as [_ H].
  by apply (Forall_lookup_1 _ _ _ _ weights_nonneg H).
Qed.

Lemma trialHeuristics_nonneg pixels apos bx by_ x y :
  trialHeuristics env pixels apos bx by_ = Some (x, y) -> 0 <= x /\ 0 <= y.
Proof.
  unfold trialHeuristics. intros H.
  destruct (JS.index pixels apos) as [pa |]; [| discriminate].
  cbn [mbind option_bind] in H.
  destruct (JS.index (targetPixels env) (by_ * envSidelen env + bx)) as [tB |];
    [| discriminate].
  cbn [mbind option_bind] in H.
  destruct (JS.index (weights env) (by_ * envSidelen env + bx)) as [wB |] eqn:HwB;
    [| discriminate].
  cbn [mbind option_bind] in H.
  destruct (JS.index pixels (by_ * envSidelen env + bx)) as [pb |]; [| discriminate].
  cbn [mbind option_bind] in H.
  destruct (JS.index (targetPixels env) apos) as [tA |]; [| discriminate].
  cbn [mbind option_bind] in H.
  destruct (JS.index (weights env) apos) as [wA |] eqn:HwA; [| discriminate].
  cbn [mbind option_bind] in H. apply (inj Some) in H.
  apply pair_equal_spec in H as [<- <-].
  split; apply heuristic_nonneg; by eapply index_weight_nonneg.
Qed.

Lemma swapPixels_nonneg pixels apos bpos x y pixels' :
  Forall (fun p => 0 <= h p) pixels -> 0 <= x -> 0 <= y ->
  swapPixels pixels apos bpos x y = Some pixels' ->
  Forall (fun p => 0 <= h p) pixels'.
Proof.
  intros Hall Hx Hy. unfold swapPixels.
  destruct (JS.index pixels apos) as [pa |] eqn:Ha; [| discriminate].
  destruct (JS.index pixels bpos) as [pb |] eqn:Hb; [| discriminate].
  cbn [mbind option_bind]. intros [= <-].
  apply index_Some in Ha as [_ Ha], Hb as [_ Hb].
  apply Forall_alter; [| intros p _ _; exact Hy].
  apply Forall_alter; [| intros p _ _; exact Hx].
  apply Forall_insert; [| by apply (Forall_lookup_1 _ _ _ _ Hall Ha)].
  apply Forall_insert; [exact Hall | by apply (Forall_lookup_1 _ _ _ _ Hall Hb)].
Qed.

(** What a trial does to the stored sum and to the swap counter. *)
Lemma trial_measure maxDist st st' :
  Forall (fun p => 0 <= h p) (pixels st) ->
  trial env maxDist st = Some st' ->
  Forall (fun p => 0 <= h p) (pixels st')
  /\ swapsMade st <= swapsMade st'
  /\ totalStored (pixels st') + (swapsMade st' - swapsMade st)
     <= totalStored (pixels st).
Proof.
  intros Hall. unfold trial.
  destruct (sampleTrial _ _ _ _) as [g [[apos bx] by_]].
  destruct (swapTrial env (pixels st) apos bx by_) as [[px' swapped] |] eqn:Hsw;
    [| discriminate].
  cbn [mbind option_bind]. intros [= <-]. cbn [pixels swapsMade].
  destruct swapped.
  - pose proof (swapTrial_stored_decreases env _ _ _ _ _ Hsw) as Hdec.
    split; [| lia]. unfold swapTrial in Hsw.
    destruct (trialHeuristics env (pixels st) apos bx by_) as [[x y] |] eqn:Hh;
      [| discriminate].
    cbn [mbind option_bind] in Hsw.
    destruct (accepts _ _ _ _ _) as [[] |]; [| discriminate ..].
    cbn [mbind option_bind] in Hsw.
    destruct (swapPixels _ _ _ _ _) as [px'' |] eqn:Hpx; [| discriminate].
    injection Hsw as <-.
    destruct (trialHeuristics_nonneg _ _ _ _ _ _ Hh) as [Hx Hy].
    exact (swapPixels_nonneg _ _ _ _ _ _ Hall Hx Hy Hpx).
  - apply swapTrial_rejected in Hsw as ->. split; [exact Hall | lia].
Qed.

Lemma trials_measure maxDist (k : nat) st st' :
  Forall (fun p => 0 <= h p) (pixels st) ->
  trials env maxDist k st = Some st' ->
  Forall (fun p => 0 <= h p) (pixels st')
  /\ swapsMade st <= swapsMade st'
  /\ totalStored (pixels st') + (swapsMade st' - swapsMade st)
     <= totalStored (pixels st).
Proof.
  revert st. induction k as [| k IH]; intros st Hall.
  - intros [= <-]. split; [exact Hall | lia].
  - rewrite trials_S.
    destruct (trial env maxDist st) as [st1 |] eqn:H1; [| discriminate].
    rewrite bind_Some. intros Hk.
    destruct (trial_measure _ _ _ Hall H1) as (Hall1 & Hs1 & Ht1).
    destruct (IH _ Hall1 Hk) as (Hall' & Hs' & Ht').
    split; [exact Hall' | lia].
Qed.

Lemma post_exit (m : ProgressMsg) (r : Run) : (post m r).2 = r.2.
Proof. reflexivity. Qed.

(** The loop ends within [generationBound] generations: the radius falls
    while it is at least 4, and every later generation that does not end
    the loop has taken at least 10 from the stored sum. *)
Lemma geneticLoop_ends sourcePixels finish :
  (forall px, (finish px).2 <> OutOfFuel) ->
  forall fuel cancel read maxDist px g,
    Forall (fun p => 0 <= h p) px ->
    (generationBound maxDist px <= fuel)%nat ->
    (geneticLoop fuel cancel read env sourcePixels finish maxDist px g).2
    <> OutOfFuel.
Proof.
  intros Hfin fuel.
  induction fuel as [| fuel IH]; intros cancel read maxDist px g Hall Hfuel;
    [unfold generationBound in Hfuel; lia |].
  cbn [geneticLoop].
  destruct (cancelledAt cancel read); [discriminate |].
  destruct (trials env maxDist (128 * length px) _) as [st |] eqn:Ht;
    [| discriminate].
  destruct (trials_measure maxDist _ {| pixels := px; rng := g; swapsMade := 0 |} st
              Hall Ht) as (Hall' & Hs & Hsum).
  cbn [pixels swapsMade] in Hall', Hs, Hsum.
  destruct (makeNewImage _ _ _ _); [| discriminate].
  rewrite post_exit.
  destruct ((maxDist <? 4) && (swapsMade st <? 10)) eqn:Hend.
  - destruct (cancelledAt cancel (S read)); [discriminate | apply Hfin].
  - rewrite post_exit. apply IH; [exact Hall' |].
    pose proof (totalStored_nonneg _ Hall'). pose proof (totalStored_nonneg _ Hall).
    unfold generationBound in *.
    apply andb_false_iff in Hend as [Hd | Hsw].
    + apply Z.ltb_ge in Hd.
      assert (maxDist * 99 / 100 < maxDist) by (apply Z.div_lt_upper_bound; lia).
      lia.
    + apply Z.ltb_ge in Hsw.
      destruct (Z.le_gt_cases 4 maxDist) as [Hd | Hd].
      * assert (maxDist * 99 / 100 < maxDist) by (apply Z.div_lt_upper_bound; lia).
        lia.
      * assert (maxDist * 99 / 100 <= 2) by (apply Z.lt_succ_r, Z.div_lt_upper_bound; lia).
        lia.
Qed.

End GeneticMeasure.

Lemma initPixels_nonneg env sourcePixels px :
  Forall (fun w => 0 <= w) (weights env) ->
  initPixels env sourcePixels = Some px ->
  Forall (fun p => 0 <= h p) px.
Proof.
  intros Hw Hinit. apply Forall_lookup. intros p owner Hp.
  rewrite (initPixels_stored env sourcePixels px p owner Hinit Hp).
  unfold placedHeuristic. apply heuristic_nonneg.
  destruct (weights env !! p) as [w |] eqn:Hwp; [| cbn; lia].
  by apply (Forall_lookup_1 _ _ _ _ Hw Hwp).
Qed.

Lemma geneticEnv_weights drawImageScaled source settings :
  Forall (fun w => 0 <= w) (weights (geneticEnv drawImageScaled source settings)).
Proof.
  cbn [geneticEnv weights]. apply Forall_forall. intros w Hw.
  change (map ?f ?l) with (f <$> l) in Hw.
  apply list_elem_of_fmap in Hw as (? & -> & _). lia.
Qed.

(** X11.  The loop of the Genetic solver ends: with at least
    [max(2, sidelen) + (sum of the initial h) + 1] generations allowed, a
    run returns or throws, whenever it is cancelled or not. *)
Theorem genetic_terminates (drawImageScaled : list Z -> Z -> Z -> list Z)
    (source : UnprocessedPreset) (settings : GenerationSettings)
    (fuel : nat) (cancel : option nat) :
  (match geneticStart drawImageScaled source settings with
   | Some st0 => generationBound (sidelen settings) (pixels st0)
   | None => 0%nat
   end <= fuel)%nat ->
  (processGenetic drawImageScaled fuel cancel source settings).2 <> OutOfFuel.
Proof.
  unfold processGenetic.
  destruct (geneticStart drawImageScaled source settings) as [st0 |] eqn:Hstart;
    [| discriminate].
  intros Hfuel.
  apply geneticLoop_ends; [apply geneticEnv_weights | discriminate | | exact Hfuel].
  unfold geneticStart in Hstart.
  destruct (initPixels _ _) as [px |] eqn:Hinit; [| discriminate].
  injection Hstart as <-. cbn [pixels].
  eapply initPixels_nonneg; [apply geneticEnv_weights | exact Hinit].
Qed.

(** The one-pixel image: three generations are enough. *)
Lemma genetic_terminates_witness :
  (processGenetic nearestNeighbour 3 None source1x1 settingsSide1).2 <> OutOfFuel.
Proof.
  apply (genetic_terminates nearestNeighbour source1x1 settingsSide1 3 None).
  vm_compute. lia.
Defined.

(** *** Without a custom target *)

Section GeneticFrozen.

Variable env : SolverEnv.
Hypothesis weights_nonneg : Forall (fun w => 0 <= w) (weights env).

Lemma totalStored_zero (px : list Pixel) :
  Forall (fun p => h p = 0) px -> totalStored px = 0.
Proof.
  unfold totalStored. induction 1 as [| p px Hp _ IH]; simpl; lia.
Qed.

Lemma zero_nonneg (px : list Pixel) :
  Forall (fun p => h p = 0) px -> Forall (fun p => 0 <= h p) px.
Proof. intros H. eapply Forall_impl; [exact H |]. intros p ->. lia. Qed.

(** A trial that leaves the counter alone leaves the array alone. *)
Lemma trial_unswapped maxDist st st' :
  trial env maxDist st = Some st' ->
  swapsMade st' = swapsMade st ->
  pixels st' = pixels st.
Proof.
  unfold trial. destruct (sampleTrial _ _ _ _) as [g [[apos bx] by_]].
  destruct (swapTrial env (pixels st) apos bx by_) as [[px' swapped] |] eqn:Hsw;
    [| discriminate].
  cbn [mbind option_bind]. intros [= <-]. cbn [pixels swapsMade].
  destruct swapped; [lia |]. intros _. by apply swapTrial_rejected in Hsw.
Qed.

(** With every stored value at 0 no trial swaps. *)
Lemma trial_frozen maxDist st st' :
  Forall (fun p => h p = 0) (pixels st) ->
  trial env maxDist st = Some st' ->
  pixels st' = pixels st /\ swapsMade st' = swapsMade st.
Proof.
  intros Hzero Ht.
  destruct (trial_measure env weights_nonneg maxDist st st' (zero_nonneg _ Hzero) Ht)
    as (Hall' & Hs & Hsum).
  pose proof (totalStored_nonneg _ Hall') as Hnn.
  rewrite (totalStored_zero _ Hzero) in Hsum.
  assert (Hsame : swapsMade st' = swapsMade st) by lia.
  split; [| exact Hsame]. by apply (trial_unswapped maxDist).
Qed.

Lemma trials_frozen maxDist (k : nat) st st' :
  Forall (fun p => h p = 0) (pixels st) ->
  trials env maxDist k st = Some st' ->
  pixels st' = pixels st /\ swapsMade st' = swapsMade st.
Proof.
  revert st. induction k as [| k IH]; intros st Hzero.
  - intros [= <-]. split; reflexivity.
  - rewrite trials_S.
    destruct (trial env maxDist st) as [st1 |] eqn:H1; [| discriminate].
    rewrite bind_Some. intros Hk.
    destruct (trial_frozen _ _ _ Hzero H1) as [Hp1 Hs1].
    rewrite <- Hp1 in Hzero. destruct (IH _ Hzero Hk) as [Hp Hs].
    split; congruence.
Qed.

Lemma geneticLoop_frozen sourcePixels (f : list Pixel -> Preset) finish :
  (forall px, finish px = ([Done (f px)], Returned)) ->
  forall fuel cancel read maxDist px g p,
    Forall (fun p => h p = 0) px ->
    p ∈ donePresets
          (geneticLoop fuel cancel read env sourcePixels finish maxDist px g).1 ->
    p = f px.
Proof.
  intros Hfin fuel.
  induction fuel as [| fuel IH]; intros cancel read maxDist px g p Hzero;
    cbn [geneticLoop]; [intros H; by apply elem_of_nil in H |].
  destruct (cancelledAt cancel read);
    [intros H; cbn in H; by apply elem_of_nil in H |].
  destruct (trials env maxDist (128 * length px) _) as [st |] eqn:Ht;
    [| intros H; by apply elem_of_nil in H].
  destruct (trials_frozen maxDist _ {| pixels := px; rng := g; swapsMade := 0 |} st
              Hzero Ht) as [Hpx _].
  cbn [pixels] in Hpx. rewrite Hpx.
  destruct (makeNewImage _ _ _ _) as [imageData |];
    [| intros H; by apply elem_of_nil in H].
  rewrite donePresets_post_other by discriminate.
  destruct ((maxDist <? 4) && (swapsMade st <? 10)).
  - destruct (cancelledAt cancel (S read));
      [intros H; cbn in H; by apply elem_of_nil in H |].
    rewrite Hfin. cbn. intros H. by apply list_elem_of_singleton in H.
  - rewrite donePresets_post_other by discriminate. by apply IH.
Qed.

End GeneticFrozen.

(** With the source as its own target every pixel starts at 0. *)
Lemma initPixels_own_target env sourcePixels px :
  targetPixels env = sourcePixels ->
  initPixels env sourcePixels = Some px ->
  Forall (fun p => h p = 0) px.
Proof.
  intros Htarget Hinit. apply Forall_lookup. intros i owner Hi.
  unfold initPixels in Hinit. apply mapM_Some in Hinit.
  destruct (Forall2_lookup_r _ _ _ i owner Hinit Hi) as ([j rgb] & Hj & HF).
  rewrite list_lookup_imap in Hj.
  destruct (sourcePixels !! i) as [rgb' |] eqn:Hsrc; [| discriminate].
  injection Hj as <- <-. cbn beta iota in HF.
  rewrite Htarget, Hsrc in HF. cbn [mbind option_bind] in HF.
  destruct (weights env !! i) as [w |]; [| discriminate].
  apply (inj Some) in HF. subst owner. cbn [h]. apply heuristic_same.
Qed.

(** X12.  Without a custom target the Genetic solver compares the source
    with itself.  No swap is ever accepted: any number of trials, at any
    radius and from any state of the generator, leaves the initial array
    and the swap counter as they were.  Hence every [done] message carries
    the identity assignment [0, 1, ..., n-1]. *)
Theorem genetic_without_target_is_identity
    (drawImageScaled : list Z -> Z -> Z -> list Z)
    (source : UnprocessedPreset) (settings : GenerationSettings) :
  customTarget settings = None ->
  0 < sidelen settings ->
  (forall px maxDist (k : nat) g st,
     initPixels (geneticEnv drawImageScaled source settings)
       (extractRGB (croppedSource drawImageScaled source settings)) = Some px ->
     trials (geneticEnv drawImageScaled source settings) maxDist k
       {| pixels := px; rng := g; swapsMade := 0 |} = Some st ->
     pixels st = px /\ swapsMade st = 0)
  /\ (forall fuel cancel p,
        p ∈ donePresets (processGenetic drawImageScaled fuel cancel source settings).1 ->
        assignments p
        = upto (Z.of_nat (length (extractRGB (croppedSource drawImageScaled source
                                                settings))))).
Proof.
  intros Hnone _.
  assert (Hzero : forall px,
            initPixels (geneticEnv drawImageScaled source settings)
              (extractRGB (croppedSource drawImageScaled source settings)) = Some px ->
            Forall (fun p => h p = 0) px).
  { intros px Hinit. eapply initPixels_own_target; [| exact Hinit].
    cbn [geneticEnv targetPixels]. unfold targetPixelsOf. by rewrite Hnone. }
  split.
  - intros px maxDist k g st Hinit Ht.
    exact (trials_frozen _ (geneticEnv_weights drawImageScaled source settings)
             maxDist k {| pixels := px; rng := g; swapsMade := 0 |} st
             (Hzero px Hinit) Ht).
  - intros fuel cancel p. unfold processGenetic, geneticStart.
    destruct (initPixels _ _) as [px |] eqn:Hinit;
      [| intros H; by apply elem_of_nil in H].
    rewrite bind_Some. cbn [pixels rng]. intros H.
    eapply (geneticLoop_frozen _ (geneticEnv_weights drawImageScaled source settings) _
              (fun px' => donePreset source settings
                            (croppedSource drawImageScaled source settings)
                            (assignmentsOf (sidelen settings) px'))) in H;
      [| reflexivity | exact (Hzero px eq_refl)].
    subst p. cbn [donePreset assignments].
    apply initPixels_assignments in Hinit. exact Hinit.
Qed.

(** The run on the 2x2 example with its custom target: one generation,
    in which the pixels at 0 and 1 end exchanged. *)
Lemma genetic2x2_done :
  donePresets (processGenetic nearestNeighbour 1 None source2x2 settings2x2).1
  = [donePreset source2x2 settings2x2 (sourceImg source2x2) [1; 0; 2; 3]].
Proof. vm_compute. reflexivity. Qed.

(** The run on the same four pixels without a custom target. *)
Lemma geneticPlain2x2_done :
  donePresets (processGenetic nearestNeighbour 1 None source2x2 settingsDraw2).1
  = [donePreset source2x2 settingsDraw2 (sourceImg source2x2) [0; 1; 2; 3]].
Proof. vm_compute. reflexivity. Qed.

(** The four pixels of the 2x2 example, all of different colours, solved
    against themselves: 512 trials and no swap. *)
Lemma genetic_without_target_is_identity_witness :
  donePresets (processGenetic nearestNeighbour 1 None source2x2 settingsDraw2).1
  = [donePreset source2x2 settingsDraw2 (sourceImg source2x2) [0; 1; 2; 3]]
  /\ (forall px maxDist (k : nat) g st,
        initPixels (geneticEnv nearestNeighbour source2x2 settingsDraw2)
          (extractRGB (croppedSource nearestNeighbour source2x2 settingsDraw2))
        = Some px ->
        trials (geneticEnv nearestNeighbour source2x2 settingsDraw2) maxDist k
          {| pixels := px; rng := g; swapsMade := 0 |} = Some st ->
        pixels st = px /\ swapsMade st = 0)
  /\ (forall fuel cancel p,
        p ∈ donePresets (processGenetic nearestNeighbour fuel cancel source2x2
                           settingsDraw2).1 ->
        assignments p
        = upto (Z.of_nat (length (extractRGB (croppedSource nearestNeighbour source2x2
                                                settingsDraw2))))).
Proof.
  split; [exact geneticPlain2x2_done |].
  apply (genetic_without_target_is_identity nearestNeighbour source2x2 settingsDraw2);
    reflexivity.
Defined.

(** X13.  For a positive side, every [done] message of the Genetic solver
    carries a permutation of the indices of the pixels of the buffer
    [applyCropScale] returned; when that buffer has [3 * S * S] bytes this
    is a permutation of [0, S * S). *)
Theorem genetic_done_is_permutation
    (drawImageScaled : list Z -> Z -> Z -> list Z) (fuel : nat) (cancel : option nat)
    (source : UnprocessedPreset) (settings : GenerationSettings) (p : Preset) :
  0 < sidelen settings ->
  p ∈ donePresets (processGenetic drawImageScaled fuel cancel source settings).1 ->
  assignments p
  ≡ₚ upto (Z.of_nat (length (extractRGB (croppedSource drawImageScaled source
                                           settings))))
  /\ (length (croppedSource drawImageScaled source settings)
      = Z.to_nat (sidelen settings * sidelen settings * 3) ->
      isPermutationOf (sidelen settings * sidelen settings) (assignments p)).
Proof.
  intros HS Hp. apply genetic_done_permutation in Hp. split; [exact Hp |].
  intros Hlen. unfold isPermutationOf. rewrite Hp.
  destruct (extractRGB_triples (Z.to_nat (sidelen settings * sidelen settings))
              (croppedSource drawImageScaled source settings)) as [_ ->]; [lia |].
  rewrite Z2Nat.id by nia. reflexivity.
Qed.

(** The run on the 2x2 example, whose [done] message carries
    [[1; 0; 2; 3]]. *)
Lemma genetic_done_is_permutation_witness :
  [1; 0; 2; 3]
  ≡ₚ upto (Z.of_nat (length (extractRGB (croppedSource nearestNeighbour source2x2
                                           settings2x2))))
  /\ (length (croppedSource nearestNeighbour source2x2 settings2x2)
      = Z.to_nat (sidelen settings2x2 * sidelen settings2x2 * 3) ->
      isPermutationOf (sidelen settings2x2 * sidelen settings2x2) [1; 0; 2; 3]).
Proof.
  apply (genetic_done_is_permutation nearestNeighbour 1 None source2x2 settings2x2
           (donePreset source2x2 settings2x2 (sourceImg source2x2) [1; 0; 2; 3]));
    [reflexivity |].
  rewrite genetic2x2_done. apply list_elem_of_here.
Defined.

(** ** workers/algorithms.ts: the Greedy solver *)

Section GreedyLeast.

Variables (env : SolverEnv) (sourcePixels : list RGB) (assigned : gset Z)
          (targetIdx : Z).

Lemma bestStep_score best srcIdx :
  bestStep env sourcePixels assigned targetIdx best srcIdx
  = if bool_decide (srcIdx ∈ assigned) then Some best
    else
      score ← greedyScore env sourcePixels targetIdx srcIdx;
      if scoreBelow score best.2 then Some (srcIdx, Some score) else Some best.
Proof.
  unfold bestStep, greedyScore. case_bool_decide; [reflexivity |].
  destruct (JS.index sourcePixels srcIdx); [| reflexivity].
  destruct (JS.index (targetPixels env) targetIdx); [| reflexivity].
  destruct (JS.index (weights env) targetIdx); reflexivity.
Qed.

Lemma bestStep_leastFree scanned best srcIdx best' :
  leastFree env sourcePixels assigned targetIdx scanned best ->
  bestStep env sourcePixels assigned targetIdx best srcIdx = Some best' ->
  leastFree env sourcePixels assigned targetIdx (scanned ++ [srcIdx]) best'.
Proof.
  intros [Hdef Hbest]. rewrite bestStep_score. case_bool_decide as Hin.
  - intros [= <-]. split.
    { intros s Hs Hfree. apply elem_of_app in Hs as [Hs | Hs]; [by apply Hdef |].
      apply list_elem_of_singleton in Hs as ->. contradiction. }
    destruct (best.2) as [score |].
    + destruct Hbest as (before & after & -> & Hfree & Hscore & Hlt & Hle).
      exists before, (after ++ [srcIdx]).
      split; [by rewrite <- app_assoc |]. split; [exact Hfree |].
      split; [exact Hscore |]. split; [exact Hlt |].
      intros s score' Hs Hsfree. apply elem_of_app in Hs as [Hs | Hs];
        [by apply Hle |].
      apply list_elem_of_singleton in Hs as ->. contradiction.
    + destruct Hbest as [Hm Hall]. split; [exact Hm |]. intros s Hs.
      apply elem_of_app in Hs as [Hs | Hs]; [by apply Hall |].
      by apply list_elem_of_singleton in Hs as ->.
  - destruct (greedyScore env sourcePixels targetIdx srcIdx) as [score |] eqn:Hsc;
      [| discriminate].
    cbn [mbind option_bind].
    assert (Hdef' : forall s, s ∈ scanned ++ [srcIdx] -> s ∉ assigned ->
                      is_Some (greedyScore env sourcePixels targetIdx s)).
    { intros s Hs Hfree. apply elem_of_app in Hs as [Hs | Hs]; [by apply Hdef |].
      apply list_elem_of_singleton in Hs as ->. by rewrite Hsc. }
    destruct (best.2) as [bestScore |] eqn:Hb2; cbn [scoreBelow].
    + destruct Hbest as (before & after & -> & Hfree & Hscore & Hlt & Hle).
      destruct (Z.ltb_spec score bestScore) as [Hbelow | Hnot]; intros [= <-];
        (split; [exact Hdef' |]); cbn [fst snd].
      * exists (before ++ best.1 :: after), [].
        split; [reflexivity |]. split; [exact Hin |]. split; [exact Hsc |].
        split; [| intros s score' Hs; by apply elem_of_nil in Hs].
        intros s score' Hs Hsfree Hs'.
        apply elem_of_app in Hs as [Hs | Hs].
        { pose proof (Hlt s score' Hs Hsfree Hs'). lia. }
        apply elem_of_cons in Hs as [-> | Hs].
        { rewrite Hscore in Hs'. injection Hs' as <-. exact Hbelow. }
        pose proof (Hle s score' Hs Hsfree Hs'). lia.
      * rewrite Hb2. exists before, (after ++ [srcIdx]).
        split; [by rewrite <- app_assoc |]. split; [exact Hfree |].
        split; [exact Hscore |]. split; [exact Hlt |].
        intros s score' Hs Hsfree Hs'. apply elem_of_app in Hs as [Hs | Hs];
          [by apply (Hle s) |].
        apply list_elem_of_singleton in Hs as ->.
        rewrite Hsc in Hs'. injection Hs' as <-. exact Hnot.
    + destruct Hbest as [_ Hall]. intros [= <-]. split; [exact Hdef' |].
      cbn [fst snd]. exists scanned, [].
      split; [reflexivity |]. split; [exact Hin |]. split; [exact Hsc |].
      split; [| intros s score' Hs; by apply elem_of_nil in Hs].
      intros s score' Hs Hsfree. exfalso. by apply Hsfree, Hall.
Qed.

Lemma bestLoop_leastFree srcs scanned best best' :
  leastFree env sourcePixels assigned targetIdx scanned best ->
  bestLoop env sourcePixels assigned targetIdx srcs best = Some best' ->
  leastFree env sourcePixels assigned targetIdx (scanned ++ srcs) best'.
Proof.
  revert scanned best. induction srcs as [| s srcs IH]; intros scanned best Hf.
  - intros [= <-]. by rewrite app_nil_r.
  - cbn [bestLoop].
    destruct (bestStep env sourcePixels assigned targetIdx best s) as [b1 |] eqn:H1;
      [| discriminate].
    rewrite bind_Some. intros H.
    rewrite (assoc_L (++) scanned [s] srcs : scanned ++ s :: srcs = _).
    eapply IH; [| exact H]. by eapply bestStep_leastFree.
Qed.

End GreedyLeast.

(** The counting list is increasing: what stands before an entry is
    smaller, what stands after it is larger. *)
Lemma upto_split (n b : Z) (before after : list Z) :
  upto n = before ++ b :: after ->
  (forall s, s ∈ before -> s < b) /\ (forall s, s ∈ after -> b < s).
Proof.
  intros Hsplit.
  assert (Hat : forall (i : nat) s, (before ++ b :: after) !! i = Some s -> s = Z.of_nat i).
  { intros i s Hi. rewrite <- Hsplit in Hi.
    pose proof (lookup_lt_Some _ _ _ Hi) as Hlt. rewrite upto_length in Hlt.
    rewrite upto_lookup in Hi by exact Hlt. congruence. }
  assert (Hb : b = Z.of_nat (length before)).
  { apply Hat. by rewrite list_lookup_middle. }
  split; intros s Hs.
  - apply list_elem_of_lookup in Hs as [i Hi].
    pose proof (lookup_lt_Some _ _ _ Hi) as Hlt.
    rewrite (Hat i s); [lia |]. by rewrite lookup_app_l.
  - apply list_elem_of_lookup in Hs as [i Hi].
    rewrite (Hat (length before + S i)%nat s); [lia |].
    rewrite lookup_app_r by lia.
    replace (length before + S i - length before)%nat with (S i) by lia.
    exact Hi.
Qed.

(** What the inner loop over all the sources returns. *)
Lemma bestLoop_upto_least (env : SolverEnv) (sourcePixels : list RGB)
    (assigned : gset Z) (targetIdx n bestSrcIdx : Z) (bestScore : option Z) :
  bestLoop env sourcePixels assigned targetIdx (upto n) (-1, None)
    = Some (bestSrcIdx, bestScore) ->
  (forall s, 0 <= s < n -> s ∉ assigned ->
             is_Some (greedyScore env sourcePixels targetIdx s))
  /\ match bestScore with
     | None => bestSrcIdx = -1 /\ (forall s, 0 <= s < n -> s ∈ assigned)
     | Some score =>
         0 <= bestSrcIdx < n
         /\ (bestSrcIdx ∉ assigned)
         /\ greedyScore env sourcePixels targetIdx bestSrcIdx = Some score
         /\ forall s score',
              0 <= s < n -> s ∉ assigned ->
              greedyScore env sourcePixels targetIdx s = Some score' ->
              score <= score' /\ (s < bestSrcIdx -> score < score')
     end.
Proof.
  intros H.
  apply (bestLoop_leastFree env sourcePixels assigned targetIdx (upto n) []
           (-1, None)) in H.
  - rewrite app_nil_l in H. destruct H as [Hdef H]. cbn [fst snd] in H.
    split; [intros s Hs; apply Hdef; by apply elem_of_upto |].
    destruct bestScore as [score |].
    + destruct H as (before & after & Hsplit & Hfree & Hscore & Hlt & Hle).
      destruct (upto_split n bestSrcIdx before after Hsplit) as [Hsmall Hlarge].
      split.
      { apply elem_of_upto. rewrite Hsplit. apply elem_of_app. right.
        apply list_elem_of_here. }
      split; [exact Hfree |]. split; [exact Hscore |].
      intros s score' Hs Hsfree Hs'.
      apply elem_of_upto in Hs. rewrite Hsplit in Hs.
      apply elem_of_app in Hs as [Hs | Hs].
      * pose proof (Hlt s score' Hs Hsfree Hs'). split; lia.
      * apply elem_of_cons in Hs as [-> | Hs].
        { rewrite Hscore in Hs'. injection Hs' as <-. split; lia. }
        pose proof (Hle s score' Hs Hsfree Hs'). pose proof (Hlarge s Hs).
        split; lia.
    + destruct H as [Hm Hall]. split; [exact Hm |]. intros s Hs.
      apply Hall. by apply elem_of_upto.
  - split; [intros s Hs; by apply elem_of_nil in Hs |]. cbn [fst snd].
    split; [reflexivity |]. intros s Hs. by apply elem_of_nil in Hs.
Qed.

(** X14.  On scores below 2^53, where the doubles of the code compare as
    the integers do (bytes for the colours, weights up to 255, and a side
    and a proximity importance within [heuristicBound]): when the inner
    loop of the Greedy solver returns, every source not yet assigned was
    scored, and the loop holds one of least heuristic for the target among
    them, of least index among those; it holds -1 only when every source
    is taken. *)
Theorem greedy_picks_least (env : SolverEnv) (sourcePixels : list RGB)
    (assigned : gset Z) (targetIdx n bestSrcIdx : Z) (bestScore : option Z) :
  exactScores env sourcePixels ->
  n <= envSidelen env * envSidelen env ->
  0 <= targetIdx < envSidelen env * envSidelen env ->
  bestLoop env sourcePixels assigned targetIdx (upto n) (-1, None)
    = Some (bestSrcIdx, bestScore) ->
  (forall s, 0 <= s < n -> s ∉ assigned ->
             is_Some (greedyScore env sourcePixels targetIdx s))
  /\ match bestScore with
     | None => bestSrcIdx = -1 /\ (forall s, 0 <= s < n -> s ∈ assigned)
     | Some score =>
         0 <= bestSrcIdx < n
         /\ (bestSrcIdx ∉ assigned)
         /\ greedyScore env sourcePixels targetIdx bestSrcIdx = Some score
         /\ forall s score',
              0 <= s < n -> s ∉ assigned ->
              greedyScore env sourcePixels targetIdx s = Some score' ->
              score <= score' /\ (s < bestSrcIdx -> score < score')
     end.
Proof. intros _ _ _. apply bestLoop_upto_least. Qed.

(** Sources 0 and 3 tie for target 2 of the 2x2 example: the first wins. *)
Lemma greedy_picks_least_witness :
  bestLoop env2x2 [(1, 0, 0); (200, 0, 0); (1, 0, 0); (1, 0, 0)] {[2]} 2 (upto 4)
    (-1, None) = Some (0, Some 169)
  /\ greedyScore env2x2 [(1, 0, 0); (200, 0, 0); (1, 0, 0); (1, 0, 0)] 2 3 = Some 169
  /\ 0 <= 0 < 4
  /\ 0 ∉ ({[2]} : gset Z).
Proof.
  assert (Hrun : bestLoop env2x2 [(1, 0, 0); (200, 0, 0); (1, 0, 0); (1, 0, 0)]
                   {[2]} 2 (upto 4) (-1, None) = Some (0, Some 169))
    by (vm_compute; reflexivity).
  split; [exact Hrun |]. split; [vm_compute; reflexivity |].
  assert (Hexact : exactScores env2x2 [(1, 0, 0); (200, 0, 0); (1, 0, 0); (1, 0, 0)]).
  { split; [repeat (constructor; [cbn; lia |]); constructor |].
    split; [repeat (constructor; [cbn; lia |]); constructor |].
    split; [repeat (constructor; [cbn; lia |]); constructor |].
    split; [cbn; lia | vm_compute; reflexivity]. }
  pose proof (greedy_picks_least env2x2 _ _ 2 4 _ _ Hexact ltac:(cbn; lia)
                ltac:(cbn; lia) Hrun) as (_ & H1 & H2 & _).
  split; [exact H1 | exact H2].
Defined.

Lemma upto_snoc (t : nat) : upto (Z.of_nat (S t)) = upto (Z.of_nat t) ++ [Z.of_nat t].
Proof.
  unfold upto. rewrite !Nat2Z.id, seq_S, map_app. reflexivity.
Qed.

(** A source scored against itself scores 0. *)
Lemma greedyScore_own env sourcePixels (t : Z) score :
  targetPixels env = sourcePixels ->
  greedyScore env sourcePixels t t = Some score -> score = 0.
Proof.
  intros Htarget. unfold greedyScore. rewrite Htarget.
  destruct (JS.index sourcePixels t) as [c |]; [| discriminate].
  cbn [mbind option_bind].
  destruct (JS.index (weights env) t) as [w |]; [| discriminate].
  cbn [mbind option_bind]. intros H. apply (inj Some) in H. subst score.
  apply heuristic_same.
Qed.

Lemma greedyScore_nonneg env sourcePixels (t s : Z) score :
  Forall (fun w => 0 <= w) (weights env) ->
  greedyScore env sourcePixels t s = Some score -> 0 <= score.
Proof.
  intros Hw. unfold greedyScore.
  destruct (JS.index sourcePixels s) as [c |]; [| discriminate].
  cbn [mbind option_bind].
  destruct (JS.index (targetPixels env) t) as [c' |]; [| discriminate].
  cbn [mbind option_bind].
  destruct (JS.index (weights env) t) as [w |] eqn:Hwt; [| discriminate].
  cbn [mbind option_bind]. intros H. apply (inj Some) in H. subst score.
  apply heuristic_nonneg. by eapply index_weight_nonneg.
Qed.

(** With the source as its own target, target [t] takes source [t]. *)
Lemma optimalLoop_identity env sourcePixels n (f : list Z -> Preset) finish :
  (forall a, finish a = ([Done (f a)], Returned)) ->
  targetPixels env = sourcePixels ->
  Forall (fun w => 0 <= w) (weights env) ->
  forall (k t : nat) cancel read assigned p,
    (t + k)%nat = Z.to_nat n ->
    (forall x, x ∈ assigned <-> 0 <= x < Z.of_nat t) ->
    p ∈ donePresets
          (optimalLoop cancel read env sourcePixels n finish
             (map Z.of_nat (seq t k)) assigned (upto (Z.of_nat t))).1 ->
    p = f (upto n).
Proof.
  intros Hfin Htarget Hw k.
  induction k as [| k IH]; intros t cancel read assigned p Hlen Hset;
    cbn [seq map optimalLoop].
  - destruct (cancelledAt cancel read); [intros H; by apply elem_of_nil in H |].
    rewrite Hfin. cbn. intros H. apply list_elem_of_singleton in H as ->.
    f_equal. unfold fillIdentity. rewrite upto_length, Nat2Z.id.
    replace (Z.to_nat n - t)%nat with 0%nat by lia.
    cbn [seq map]. rewrite app_nil_r. unfold upto. by rewrite Nat2Z.id, <- Hlen, Nat.add_0_r.
  - destruct (cancelledAt cancel read);
      [intros H; cbn in H; by apply elem_of_nil in H |].
    destruct (bestLoop env sourcePixels assigned (Z.of_nat t) (upto n) (-1, None))
      as [[bestSrcIdx bestScore] |] eqn:Hbest;
      [| intros H; by apply elem_of_nil in H].
    apply bestLoop_upto_least in Hbest as [Hdef Hbest].
    assert (Htn : 0 <= Z.of_nat t < n) by lia.
    assert (Htfree : Z.of_nat t ∉ assigned) by (rewrite Hset; lia).
    destruct (Hdef (Z.of_nat t) Htn Htfree) as [own Hown].
    pose proof (greedyScore_own _ _ _ _ Htarget Hown) as ->.
    destruct bestScore as [score |].
    + destruct Hbest as (Hb & Hbfree & Hbscore & Hleast).
      destruct (Hleast (Z.of_nat t) 0 Htn Htfree Hown) as [Hle Hlt].
      pose proof (greedyScore_nonneg _ _ _ _ _ Hw Hbscore) as Hnn.
      assert (bestSrcIdx = Z.of_nat t) as ->.
      { rewrite Hset in Hbfree.
        destruct (Z.lt_trichotomy (Z.of_nat t) bestSrcIdx) as [Hgt | [-> | Hlt']];
          [apply Hlt in Hgt | |]; lia. }
      destruct (Z.leb_spec 0 (Z.of_nat t)) as [_ |]; [| lia].
      rewrite <- upto_snoc.
      set (continue_ := optimalLoop cancel (S read) env sourcePixels n finish
                          (map Z.of_nat (seq (S t) k)) ({[Z.of_nat t]} ∪ assigned)
                          (upto (Z.of_nat (S t)))).
      assert (Hcont : p ∈ donePresets continue_.1 -> p = f (upto n)).
      { apply IH; [lia |]. intros x.
        rewrite elem_of_union, elem_of_singleton, Hset. lia. }
      destruct (Z.of_nat t mod 100 =? 0); [| exact Hcont].
      rewrite donePresets_post_other by discriminate.
      destruct (makeNewImage _ _ _ _);
        [| intros H; by apply elem_of_nil in H].
      rewrite donePresets_post_other by discriminate. exact Hcont.
    + destruct Hbest as [_ Hall]. exfalso. by apply Htfree, Hall.
Qed.

(** X15.  For a positive side and a request on which the doubles compute
    as the integers do (whole pixels of bytes in both images, every
    heuristic below 2^53), every [done] message of the Greedy solver
    carries a permutation of [0, S * S). *)
Theorem greedy_done_is_permutation
    (drawImageScaled : list Z -> Z -> Z -> list Z) (cancel : option nat)
    (source : UnprocessedPreset) (settings : GenerationSettings) (p : Preset) :
  0 < sidelen settings ->
  exactRequest drawImageScaled source settings ->
  p ∈ donePresets (processOptimal drawImageScaled cancel source settings).1 ->
  isPermutationOf (sidelen settings * sidelen settings) (assignments p).
Proof. intros _ _. apply greedy_done_permutation. Qed.

(** The run of the Greedy solver on the 2x2 example with its custom
    target: target 0 takes source 1. *)
Lemma greedy2x2_done :
  donePresets (processOptimal nearestNeighbour None source2x2 settings2x2).1
  = [donePreset source2x2 settings2x2 (sourceImg source2x2) [1; 0; 2; 3]].
Proof. vm_compute. reflexivity. Qed.

(** The same four pixels without a custom target. *)
Lemma greedyPlain2x2_done :
  donePresets (processOptimal nearestNeighbour None source2x2 settingsDraw2).1
  = [donePreset source2x2 settingsDraw2 (sourceImg source2x2) [0; 1; 2; 3]].
Proof. vm_compute. reflexivity. Qed.

Lemma bytes_12 (l : list Z) :
  length l = 12%nat -> forallb (fun b => (0 <=? b) && (b <=? 255)) l = true ->
  byteTriples l.
Proof.
  intros Hlen Hall. split; [by rewrite Hlen |].
  apply Forall_forall. intros b Hb.
  rewrite forallb_forall in Hall. apply list_elem_of_In, Hall in Hb. lia.
Qed.

Lemma greedy_done_is_permutation_witness :
  isPermutationOf (sidelen settings2x2 * sidelen settings2x2) [1; 0; 2; 3].
Proof.
  apply (greedy_done_is_permutation nearestNeighbour None source2x2 settings2x2
           (donePreset source2x2 settings2x2 (sourceImg source2x2) [1; 0; 2; 3]));
    [reflexivity | |].
  - split; [apply bytes_12; reflexivity |].
    split; [apply bytes_12; reflexivity | vm_compute; reflexivity].
  - rewrite greedy2x2_done. apply list_elem_of_here.
Defined.

(** X16.  Without a custom target the Greedy solver matches the source
    against itself: target [t] takes source [t], which scores 0 and has the
    lowest index among the free sources, and every [done] message carries
    the identity assignment. *)
Theorem greedy_without_target_is_identity
    (drawImageScaled : list Z -> Z -> Z -> list Z) (cancel : option nat)
    (source : UnprocessedPreset) (settings : GenerationSettings) (p : Preset) :
  customTarget settings = None ->
  0 < sidelen settings ->
  p ∈ donePresets (processOptimal drawImageScaled cancel source settings).1 ->
  assignments p = upto (sidelen settings * sidelen settings).
Proof.
  intros Hnone _. unfold processOptimal.
  set (img := croppedSource drawImageScaled source settings).
  set (n := sidelen settings * sidelen settings).
  set (sp := extractRGB img).
  set (env := {| targetPixels := targetPixelsOf drawImageScaled sp settings;
                 weights := map (fun _ => 255) (targetPixelsOf drawImageScaled sp settings);
                 envSidelen := sidelen settings;
                 envProximity := proximityImportance settings |}).
  assert (Htarget : targetPixels env = sp).
  { cbn [env targetPixels]. unfold targetPixelsOf. by rewrite Hnone. }
  assert (Hw : Forall (fun w => 0 <= w) (weights env)).
  { cbn [env weights]. apply Forall_forall. intros w Hwin.
    change (map ?g ?l) with (g <$> l) in Hwin.
    apply list_elem_of_fmap in Hwin as (? & -> & _). lia. }
  intros H.
  assert (Hid : p = donePreset source settings img (upto n));
    [| by rewrite Hid].
  revert H.
  apply (optimalLoop_identity env sp n (fun a => donePreset source settings img a) _
           (fun a => eq_refl) Htarget Hw (Z.to_nat n) 0%nat cancel 0%nat ∅ p).
  - lia.
  - intros x. rewrite elem_of_empty. lia.
Qed.

(** The four pixels of the 2x2 example, all of different colours: each
    target takes its own source although three others are free. *)
Lemma greedy_without_target_is_identity_witness :
  [0; 1; 2; 3] = upto (sidelen settingsDraw2 * sidelen settingsDraw2).
Proof.
  apply (greedy_without_target_is_identity nearestNeighbour None source2x2
           settingsDraw2
           (donePreset source2x2 settingsDraw2 (sourceImg source2x2) [0; 1; 2; 3]));
    [reflexivity | reflexivity |].
  rewrite greedyPlain2x2_done. apply list_elem_of_here.
Defined.

(** ** workers/algorithms.ts: the message protocol *)

Lemma runShape_post (m : ProgressMsg) (r : Run) :
  isInterim m -> runShape r -> runShape (post m r).
Proof.
  intros Hm. unfold runShape, post. cbn [fst snd].
  destruct (r.2).
  - intros (body & p & -> & Hbody). exists (m :: body), p.
    split; [reflexivity | by constructor].
  - intros H. by constructor.
  - intros H. by constructor.
Qed.

Lemma geneticLoop_shape env sourcePixels (f : list Pixel -> Preset) finish :
  (forall px, finish px = ([Done (f px)], Returned)) ->
  forall fuel read maxDist px g,
    runShape (geneticLoop fuel None read env sourcePixels finish maxDist px g).
Proof.
  intros Hfin fuel.
  induction fuel as [| fuel IH]; intros read maxDist px g; cbn [geneticLoop cancelledAt].
  - apply Forall_nil_2.
  - destruct (trials env maxDist (128 * length px) _) as [st |];
      [| apply Forall_nil_2].
    destruct (makeNewImage _ _ _ _) as [imageData |]; [| apply Forall_nil_2].
    apply runShape_post; [exact I |].
    destruct ((maxDist <? 4) && (swapsMade st <? 10)).
    + rewrite Hfin. exists [], (f (pixels st)). split; [reflexivity | constructor].
    + apply runShape_post; [exact I | apply IH].
Qed.

Lemma optimalLoop_shape env sourcePixels n (f : list Z -> Preset) finish :
  (forall a, finish a = ([Done (f a)], Returned)) ->
  forall targets read assigned assignments,
    runShape (optimalLoop None read env sourcePixels n finish targets assigned
                assignments)
    /\ (optimalLoop None read env sourcePixels n finish targets assigned
          assignments).2 <> OutOfFuel.
Proof.
  intros Hfin targets.
  induction targets as [| targetIdx rest IH]; intros read assigned assignments;
    cbn [optimalLoop cancelledAt].
  - rewrite Hfin. split; [| discriminate].
    exists [], (f (fillIdentity n assignments)). split; [reflexivity | constructor].
  - destruct (bestLoop env sourcePixels assigned targetIdx (upto n) (-1, None))
      as [[bestSrcIdx bestScore] |]; [| split; [apply Forall_nil_2 | discriminate]].
    destruct (if 0 <=? bestSrcIdx
              then ({[bestSrcIdx]} ∪ assigned, assignments ++ [bestSrcIdx])
              else (assigned, assignments)) as [assigned' assignments'].
    destruct (IH (S read) assigned' assignments') as [Hshape Hexit].
    destruct (targetIdx mod 100 =? 0); [| split; assumption].
    destruct (makeNewImage _ _ _ _) as [imageData |].
    + split; [| exact Hexit]. by repeat apply runShape_post.
    + split; [| discriminate]. apply runShape_post; [exact I | apply Forall_nil_2].
Qed.

(** X17.  With the cancel flag left lowered, as it is while a solver runs,
    a [process] request to the algorithm worker is answered: the log is
    [progress] and [update_preview] messages followed by exactly one final
    message, [done] or [error].  For the Genetic solver this takes the
    generations of [generationBound]. *)
Theorem onmessage_is_answered (drawImageScaled : list Z -> Z -> Z -> list Z)
    (fuel : nat) (source : UnprocessedPreset) (settings : GenerationSettings) :
  (match geneticStart drawImageScaled source settings with
   | Some st0 => generationBound (sidelen settings) (pixels st0)
   | None => 0%nat
   end <= fuel)%nat ->
  answered (onmessage drawImageScaled fuel None source settings).
Proof.
  intros Hfuel. unfold onmessage.
  assert (Hrun : forall r : Run,
            runShape r -> r.2 <> OutOfFuel ->
            answered (let '(log, exit) := r in
                      match exit with Threw => log ++ [Error] | _ => log end)).
  { intros [log exit]. unfold runShape, answered. cbn [fst snd].
    destruct exit; intros Hshape Hexit.
    - destruct Hshape as (body & p & -> & Hbody). exists body, (Done p). eauto.
    - exists log, Error. auto.
    - contradiction. }
  destruct (algorithm settings).
  - apply Hrun.
    + unfold processOptimal.
      apply (optimalLoop_shape _ _ _
               (fun a => donePreset source settings
                           (croppedSource drawImageScaled source settings) a)).
      reflexivity.
    + unfold processOptimal.
      apply (optimalLoop_shape _ _ _
               (fun a => donePreset source settings
                           (croppedSource drawImageScaled source settings) a)).
      reflexivity.
  - apply Hrun.
    + unfold processGenetic.
      destruct (geneticStart drawImageScaled source settings) as [st0 |];
        [| apply Forall_nil_2].
      apply (geneticLoop_shape _ _
               (fun px' => donePreset source settings
                             (croppedSource drawImageScaled source settings)
                             (assignmentsOf (sidelen settings) px'))).
      reflexivity.
    + unfold processGenetic.
      destruct (geneticStart drawImageScaled source settings) as [st0 |] eqn:Hstart;
        [| discriminate].
      apply geneticLoop_ends;
        [apply geneticEnv_weights | discriminate | | exact Hfuel].
      unfold geneticStart in Hstart.
      destruct (initPixels _ _) as [px |] eqn:Hinit; [| discriminate].
      injection Hstart as <-. cbn [pixels].
      eapply initPixels_nonneg; [apply geneticEnv_weights | exact Hinit].
Qed.

(** The one-pixel image, Genetic solver, three generations allowed. *)
Lemma onmessage_is_answered_witness :
  answered (onmessage nearestNeighbour 3 None source1x1 settingsSide1).
Proof.
  apply (onmessage_is_answered nearestNeighbour 3 source1x1 settingsSide1).
  vm_compute. lia.
Defined.

(** ** workers/algorithms.ts: two runs of the Genetic solver *)

Lemma index_is_Some {A} (l : list A) (i : Z) :
  0 <= i < Z.of_nat (length l) -> is_Some (JS.index l i).
Proof.
  intros Hi. unfold JS.index. destruct (Z.ltb_spec i 0); [lia |].
  apply lookup_lt_is_Some_2. lia.
Qed.

Lemma clampZ_bounds (v lo hi : Z) : lo <= hi -> lo <= JS.clampZ v lo hi <= hi.
Proof. unfold JS.clampZ. lia. Qed.

(** *** On a sized request no trial throws *)

Section GeneticTotal.

Variable env : SolverEnv.

Let S := envSidelen env.
Let n := Z.to_nat (S * S).

Hypothesis side_positive : 1 <= S.
Hypothesis targets_sized : length (targetPixels env) = n.
Hypothesis weights_sized : length (weights env) = n.

Lemma genetic_sample_within maxDist (g : SeededRNG.t) :
  let '(_, (apos, bx, by_)) := sampleTrial S maxDist n g in
  0 <= apos < S * S /\ 0 <= bx <= S - 1 /\ 0 <= by_ <= S - 1.
Proof.
  unfold sampleTrial.
  pose proof (range_bounds g 0 (Z.of_nat n)) as Ha.
  destruct (SeededRNG.range g 0 (Z.of_nat n)) as [g1 apos]. cbn [snd] in Ha.
  destruct (SeededRNG.range g1 (- maxDist) (maxDist + 1)) as [g2 rx].
  destruct (SeededRNG.range g2 (- maxDist) (maxDist + 1)) as [g3 ry].
  split; [| split; apply clampZ_bounds; lia].
  subst n. rewrite Z2Nat.id in Ha by nia. apply Ha. nia.
Qed.

Lemma swapTrial_total (px : list Pixel) (apos bx by_ : Z) :
  length px = n ->
  0 <= apos < S * S -> 0 <= bx <= S - 1 -> 0 <= by_ <= S - 1 ->
  exists px' swapped,
    swapTrial env px apos bx by_ = Some (px', swapped) /\ length px' = n.
Proof.
  intros Hlen Ha Hbx Hby.
  assert (Hb : 0 <= by_ * S + bx < S * S) by nia.
  assert (Hn : Z.of_nat n = S * S) by (subst n; rewrite Z2Nat.id; nia).
  destruct (index_is_Some px apos) as [pa Hpa]; [lia |].
  destruct (index_is_Some px (by_ * S + bx)) as [pb Hpb]; [lia |].
  destruct (index_is_Some (targetPixels env) apos) as [tA HtA]; [lia |].
  destruct (index_is_Some (targetPixels env) (by_ * S + bx)) as [tB HtB]; [lia |].
  destruct (index_is_Some (weights env) apos) as [wA HwA]; [lia |].
  destruct (index_is_Some (weights env) (by_ * S + bx)) as [wB HwB]; [lia |].
  unfold swapTrial, trialHeuristics, accepts, swapPixels. fold S.
  rewrite Hpa, HtB, HwB, Hpb, HtA, HwA. cbn [mbind option_bind].
  destruct (0 <? _).
  - eexists _, _. split; [reflexivity |].
    rewrite !length_alter, !length_insert. exact Hlen.
  - eexists _, _. split; [reflexivity | exact Hlen].
Qed.

Lemma trial_total maxDist (st : GenState) :
  length (pixels st) = n ->
  exists st', trial env maxDist st = Some st' /\ length (pixels st') = n.
Proof.
  intros Hlen. unfold trial. fold S. rewrite Hlen.
  pose proof (genetic_sample_within maxDist (rng st)) as Hs.
  destruct (sampleTrial S maxDist n (rng st)) as [g [[apos bx] by_]].
  destruct Hs as (Ha & Hbx & Hby).
  destruct (swapTrial_total (pixels st) apos bx by_ Hlen Ha Hbx Hby)
    as (px' & swapped & -> & Hlen').
  cbn [mbind option_bind]. eexists. split; [reflexivity | exact Hlen'].
Qed.

Lemma trials_total maxDist (k : nat) (st : GenState) :
  length (pixels st) = n ->
  exists st', trials env maxDist k st = Some st' /\ length (pixels st') = n.
Proof.
  revert st. induction k as [| k IH]; intros st Hlen.
  - exists st. split; [reflexivity | exact Hlen].
  - rewrite trials_S.
    destruct (trial_total maxDist st Hlen) as (st1 & -> & Hlen1).
    rewrite bind_Some. apply IH, Hlen1.
Qed.

(** A loop that starts from an array of the right length holding a
    rearrangement of the source indices does not throw. *)
Lemma geneticLoop_total sourcePixels finish :
  (forall px, (finish px).2 <> Threw) ->
  forall fuel cancel read maxDist px g,
    length px = n ->
    assignmentsOf S px ≡ₚ upto (Z.of_nat (length sourcePixels)) ->
    (geneticLoop fuel cancel read env sourcePixels finish maxDist px g).2 <> Threw.
Proof.
  intros Hfin fuel.
  induction fuel as [| fuel IH]; intros cancel read maxDist px g Hlen Hperm;
    cbn [geneticLoop]; [discriminate |].
  destruct (cancelledAt cancel read); [discriminate |].
  destruct (trials_total maxDist (128 * length px)
              {| pixels := px; rng := g; swapsMade := 0 |} Hlen) as (st & Ht & Hlen').
  rewrite Ht.
  pose proof (trials_assignments env maxDist _ _ _ Ht) as Hperm'.
  cbn [pixels] in Hperm'. fold S in Hperm'. rewrite Hperm in Hperm'.
  pose proof (makeNewImage_spec sourcePixels S S (assignmentsOf S (pixels st))) as Himg.
  fold S. destruct (makeNewImage sourcePixels _ S S) as [imageData |].
  - rewrite post_exit.
    destruct ((maxDist <? 4) && (swapsMade st <? 10)).
    + destruct (cancelledAt cancel (Datatypes.S read)); [discriminate | apply Hfin].
    + rewrite post_exit. apply IH; [exact Hlen' | exact Hperm'].
  - exfalso. destruct Himg as (s & Hs & Hnone).
    rewrite Hperm' in Hs. apply elem_of_upto in Hs.
    destruct (index_is_Some sourcePixels s Hs) as [c Hc]. congruence.
Qed.

End GeneticTotal.

(** More fuel does not change a run that ended. *)
Lemma geneticLoop_fuel env sourcePixels finish (fuel fuel' : nat) :
  (fuel <= fuel')%nat ->
  forall cancel read maxDist px g,
    (geneticLoop fuel cancel read env sourcePixels finish maxDist px g).2 <> OutOfFuel ->
    geneticLoop fuel' cancel read env sourcePixels finish maxDist px g
    = geneticLoop fuel cancel read env sourcePixels finish maxDist px g.
Proof.
  revert fuel'. induction fuel as [| fuel IH]; intros fuel' Hle cancel read maxDist px g.
  - cbn [geneticLoop]. intros H. contradiction.
  - destruct fuel' as [| fuel']; [lia |]. cbn [geneticLoop].
    destruct (cancelledAt cancel read); [reflexivity |].
    destruct (trials env maxDist (128 * length px) _) as [st |]; [| reflexivity].
    destruct (makeNewImage _ _ _ _) as [imageData |]; [| reflexivity].
    rewrite post_exit.
    destruct ((maxDist <? 4) && (swapsMade st <? 10)); [reflexivity |].
    rewrite post_exit. intros Hend. by rewrite (IH fuel' ltac:(lia) _ _ _ _ _ Hend).
Qed.

Lemma initPixels_total env sourcePixels :
  (length sourcePixels <= length (targetPixels env))%nat ->
  (length sourcePixels <= length (weights env))%nat ->
  exists px, initPixels env sourcePixels = Some px /\ length px = length sourcePixels.
Proof.
  intros Ht Hw.
  assert (Hsome : is_Some (initPixels env sourcePixels)).
  { unfold initPixels. apply mapM_is_Some, Forall_forall. intros [i rgb] Hi.
    apply elem_of_lookup_imap in Hi as (i' & rgb' & [= -> ->] & Hi).
    apply lookup_lt_Some in Hi. cbn.
    destruct (lookup_lt_is_Some_2 (targetPixels env) i' ltac:(lia)) as [t ->].
    destruct (lookup_lt_is_Some_2 (weights env) i' ltac:(lia)) as [w ->].
    cbn. eauto. }
  destruct Hsome as [px Hpx]. exists px. split; [exact Hpx |].
  unfold initPixels in Hpx. apply length_mapM in Hpx.
  rewrite length_imap in Hpx. by rewrite Hpx.
Qed.

(** With the generations of [requestBound] a request runs to its end, and
    more fuel changes nothing. *)
Lemma processGenetic_fuel drawImageScaled (fuel : nat) (cancel : option nat)
    source settings :
  (requestBound drawImageScaled source settings <= fuel)%nat ->
  (processGenetic drawImageScaled fuel cancel source settings).2 <> OutOfFuel
  /\ processGenetic drawImageScaled fuel cancel source settings
     = processGenetic drawImageScaled (requestBound drawImageScaled source settings)
         cancel source settings.
Proof.
  unfold requestBound, processGenetic.
  destruct (geneticStart drawImageScaled source settings) as [st0 |] eqn:Hstart;
    [| intros _; split; [discriminate | reflexivity]].
  intros Hfuel.
  assert (Hnn : Forall (fun p => 0 <= h p) (pixels st0)).
  { unfold geneticStart in Hstart.
    destruct (initPixels _ _) as [px |] eqn:Hinit; [| discriminate].
    injection Hstart as <-. cbn [pixels].
    eapply initPixels_nonneg; [apply geneticEnv_weights | exact Hinit]. }
  split.
  - apply geneticLoop_ends; [apply geneticEnv_weights | discriminate | exact Hnn | exact Hfuel].
  - apply geneticLoop_fuel; [exact Hfuel |].
    apply geneticLoop_ends; [apply geneticEnv_weights | discriminate | exact Hnn | apply le_n].
Qed.

(** A sized request to the Genetic solver that runs to its end posts
    interim messages and one [done]. *)
Lemma processGenetic_sized drawImageScaled (fuel : nat) source settings :
  sized drawImageScaled source settings ->
  (processGenetic drawImageScaled fuel None source settings).2 <> OutOfFuel ->
  exists body p,
    processGenetic drawImageScaled fuel None source settings
    = (body ++ [Done p], Returned)
    /\ Forall isInterim body.
Proof.
  intros (HS & Hsrc & Htgt).
  set (sp := extractRGB (croppedSource drawImageScaled source settings)) in *.
  set (env := geneticEnv drawImageScaled source settings).
  assert (Hw : length (weights env) = Z.to_nat (envSidelen env * envSidelen env)).
  { cbn [env geneticEnv weights envSidelen]. rewrite length_map. exact Htgt. }
  assert (Ht : length (targetPixels env) = Z.to_nat (envSidelen env * envSidelen env))
    by exact Htgt.
  destruct (initPixels_total env sp) as (px & Hinit & Hlen).
  { rewrite Ht. cbn [env geneticEnv envSidelen]. lia. }
  { rewrite Hw. cbn [env geneticEnv envSidelen]. lia. }
  unfold processGenetic, geneticStart. fold sp env. rewrite Hinit, bind_Some.
  cbn [pixels rng].
  set (finish := fun px' : list Pixel =>
                   ([Done (donePreset source settings
                             (croppedSource drawImageScaled source settings)
                             (assignmentsOf (sidelen settings) px'))], Returned)).
  set (run := geneticLoop fuel None 0 env sp finish (sidelen settings) px
                (SeededRNG.new (hashCode (id settings)))).
  intros Hfuel.
  assert (Hthrow : run.2 <> Threw).
  { apply (geneticLoop_total env HS Ht Hw); [discriminate | |].
    - rewrite Hlen. exact Hsrc.
    - rewrite (initPixels_assignments env sp px Hinit). reflexivity. }
  pose proof (geneticLoop_shape env sp
                (fun px' => donePreset source settings
                              (croppedSource drawImageScaled source settings)
                              (assignmentsOf (sidelen settings) px'))
                finish (fun _ => eq_refl) fuel 0%nat (sidelen settings) px
                (SeededRNG.new (hashCode (id settings)))) as Hshape.
  fold run in Hshape. destruct run as [log exit].
  unfold runShape in Hshape. cbn [fst snd] in *.
  destruct exit; [| exfalso; by apply Hthrow | exfalso; by apply Hfuel].
  destruct Hshape as (body & p & -> & Hbody). exists body, p.
  split; [reflexivity | exact Hbody].
Qed.

(** *** The worker between two requests *)

(** The answer to a [process] request at the end of a sequence of messages
    does not depend on the messages before it. *)
Lemma serve_last drawImageScaled (fuel : nat) (before : list WorkerMessage)
    (cancelled : bool) source settings :
  last (serve drawImageScaled fuel cancelled (before ++ [ProcessRequest source settings]))
  = Some (onmessage drawImageScaled fuel None source settings).
Proof.
  revert cancelled. induction before as [| msg before IH]; intros cancelled.
  - reflexivity.
  - cbn [app serve].
    destruct (handleMessage drawImageScaled fuel cancelled msg) as [cancelled' posted].
    specialize (IH cancelled').
    destruct (serve drawImageScaled fuel cancelled'
                (before ++ [ProcessRequest source settings])) as [| a l] eqn:Hs;
      [discriminate |].
    rewrite <- IH. reflexivity.
Qed.

(** C4.  Two requests to the Genetic solver with the same source and the
    same settings (identifier, target and the rest), each sent to a worker
    after any sequence of earlier requests and cancellations and each given
    the generations it needs, are answered with the same messages.  When
    the two images of the request have [S * S] pixels of bytes and the
    heuristics stay below 2^53 (where the doubles of the code compute as
    the integers do), the answer is a run of interim messages and then one
    [done], so that the two [done] messages carry the same assignments. *)
Theorem genetic_deterministic (drawImageScaled : list Z -> Z -> Z -> list Z)
    (fuel1 fuel2 : nat) (before1 before2 : list WorkerMessage)
    (source : UnprocessedPreset) (settings : GenerationSettings) :
  algorithm settings = Genetic ->
  (requestBound drawImageScaled source settings <= fuel1)%nat ->
  (requestBound drawImageScaled source settings <= fuel2)%nat ->
  last (serve drawImageScaled fuel1 false
          (before1 ++ [ProcessRequest source settings]))
  = last (serve drawImageScaled fuel2 false
            (before2 ++ [ProcessRequest source settings]))
  /\ (sized drawImageScaled source settings ->
      exactRequest drawImageScaled source settings ->
      exists body p,
        last (serve drawImageScaled fuel1 false
                (before1 ++ [ProcessRequest source settings]))
        = Some (body ++ [Done p])
        /\ Forall isInterim body).
Proof.
  intros Halg Hfuel1 Hfuel2. rewrite !serve_last.
  unfold onmessage. rewrite Halg.
  destruct (processGenetic_fuel drawImageScaled fuel1 None source settings Hfuel1)
    as [Hend1 Hsame1].
  destruct (processGenetic_fuel drawImageScaled fuel2 None source settings Hfuel2)
    as [_ Hsame2].
  split; [by rewrite Hsame1, Hsame2 |].
  intros Hsized _.
  destruct (processGenetic_sized drawImageScaled fuel1 source settings Hsized Hend1)
    as (body & p & -> & Hbody).
  exists body, p. split; [reflexivity | exact Hbody].
Qed.

(** The 2x2 example, whose run swaps pixels: sent after a cancellation,
    and sent after a request for another image with one more generation
    allowed. *)
Lemma genetic_deterministic_witness :
  exists body p,
    last (serve nearestNeighbour (requestBound nearestNeighbour source2x2 settings2x2)
            false ([CancelRequest] ++ [ProcessRequest source2x2 settings2x2]))
    = Some (body ++ [Done p])
    /\ last (serve nearestNeighbour
               (S (requestBound nearestNeighbour source2x2 settings2x2)) false
               ([ProcessRequest source1x1 settingsSide1]
                ++ [ProcessRequest source2x2 settings2x2]))
       = Some (body ++ [Done p])
    /\ Forall isInterim body.
Proof.
  destruct (genetic_deterministic nearestNeighbour
              (requestBound nearestNeighbour source2x2 settings2x2)
              (S (requestBound nearestNeighbour source2x2 settings2x2))
              [CancelRequest] [ProcessRequest source1x1 settingsSide1]
              source2x2 settings2x2 eq_refl (le_n _) (le_S _ _ (le_n _)))
    as [Hsame Hdone].
  destruct Hdone as (body & p & Hrun & Hbody).
  { repeat split; vm_compute; congruence. }
  { split; [apply bytes_12; reflexivity |].
    split; [apply bytes_12; reflexivity | vm_compute; reflexivity]. }
  exists body, p. split; [exact Hrun |]. split; [| exact Hbody].
  rewrite <- Hsame. exact Hrun.
Defined.

(** ** rendering/voronoi.ts *)

(** X18.  For every pixel the brute-force rasterizer picks a seed of least
    computed squared distance (the double the loop compares, [Infinity]
    above every other), and among several at that distance the one of
    least index. *)
Theorem renderVoronoi_nearest_first (seeds : list SeedPos) (x y : Z) :
  seeds <> [] ->
  exists sw,
    seeds !! Voronoi.nearestBrute seeds x y = Some sw
    /\ forall j sj,
         seeds !! j = Some sj ->
         distLe (Voronoi.sqDist sw x y) (Voronoi.sqDist sj x y)
         /\ ((j < Voronoi.nearestBrute seeds x y)%nat ->
             distLt (Voronoi.sqDist sw x y) (Voronoi.sqDist sj x y)).
Proof.
  intros Hne.
  destruct (nearestBrute_first seeds x y Hne) as (sw & Hw & _ & Hmin).
  exists sw. split; [exact Hw | exact Hmin].
Qed.

(** Seed 1 is nearer to pixel (4, 0) than seed 0 by [2^-60], which the
    doubles do not see: both distances are computed as 9 and seed 0 is
    kept. *)
Lemma renderVoronoi_nearest_first_witness :
  Voronoi.sqDist (7, 1 # 2 ^ 30)%Q 4 0 = Some 9%Q
  /\ Voronoi.sqDist (1, 0)%Q 4 0 = Some 9%Q
  /\ Voronoi.nearestBrute [(7, 1 # 2 ^ 30); (1, 0)]%Q 4 0 = 0%nat
  /\ exists sw,
       [(7, 1 # 2 ^ 30); (1, 0)]%Q !! Voronoi.nearestBrute [(7, 1 # 2 ^ 30); (1, 0)]%Q 4 0
       = Some sw
       /\ forall j sj,
            [(7, 1 # 2 ^ 30); (1, 0)]%Q !! j = Some sj ->
            distLe (Voronoi.sqDist sw 4 0) (Voronoi.sqDist sj 4 0)
            /\ ((j < Voronoi.nearestBrute [(7, 1 # 2 ^ 30); (1, 0)]%Q 4 0)%nat ->
                distLt (Voronoi.sqDist sw 4 0) (Voronoi.sqDist sj 4 0)).
Proof.
  split; [vm_compute; reflexivity |]. split; [vm_compute; reflexivity |].
  split; [vm_compute; reflexivity |].
  apply (renderVoronoi_nearest_first [(7, 1 # 2 ^ 30); (1, 0)]%Q 4 0). discriminate.
Defined.

Lemma clampByte_range (z : Z) : 0 <= Voronoi.clampByte z <= 255.
Proof. unfold Voronoi.clampByte. lia. Qed.

Lemma pixelBytes_opaque colors (k : nat) :
  (k < length colors)%nat ->
  exists q, Voronoi.pixelBytes colors k = Some q /\ opaquePixel q.
Proof.
  intros Hk. unfold Voronoi.pixelBytes. unfold SeedColor in *.
  match goal with |- context [?l ≫= _] => destruct l as [[[[r g] b] a] |] eqn:Hc end.
  - cbn [mbind option_bind]. eexists. split; [reflexivity |].
    eexists _, _, _. split; [reflexivity |].
    repeat split; apply clampByte_range.
  - apply lookup_ge_None in Hc. lia.
Qed.

Lemma mapM_opaque {A} (f : A -> option (list Z)) (l : list A) :
  (forall a, a ∈ l -> exists q, f a = Some q /\ opaquePixel q) ->
  exists quads,
    mapM f l = Some quads /\ length quads = length l /\ Forall opaquePixel quads.
Proof.
  induction l as [| a l IH]; intros Hall.
  - exists []. repeat split; constructor.
  - destruct (Hall a) as (q & Hq & Hop); [apply list_elem_of_here |].
    destruct IH as (quads & Hquads & Hlen & Hops).
    { intros a' Ha'. apply Hall. by apply list_elem_of_further. }
    exists (q :: quads). cbn [mapM]. rewrite Hq, Hquads. cbn.
    split; [reflexivity |]. split; [by rewrite Hlen | by constructor].
Qed.

Lemma concat_opaque (quads : list (list Z)) :
  Forall opaquePixel quads ->
  length (concat quads) = (4 * length quads)%nat
  /\ Forall (fun b => 0 <= b <= 255) (concat quads)
  /\ forall i : nat, (i < length quads)%nat -> concat quads !! (4 * i + 3)%nat = Some 255.
Proof.
  induction 1 as [| q quads (r & g & b & -> & Hr & Hg & Hb) _ (IHlen & IHbytes & IHalpha)].
  - split; [reflexivity |]. split; [constructor |]. intros i Hi. cbn in Hi. lia.
  - cbn [concat length app]. split; [lia |]. split.
    + repeat (constructor; [lia |]). exact IHbytes.
    + intros [| i] Hi; [reflexivity |].
      replace (4 * S i + 3)%nat with (S (S (S (S (4 * i + 3))))) by lia.
      cbn [lookup list_lookup]. apply IHalpha. cbn in Hi. lia.
Qed.

Lemma pixelsOf_length (width height : Z) :
  length (Voronoi.pixelsOf width height) = (Z.to_nat height * Z.to_nat width)%nat.
Proof.
  unfold Voronoi.pixelsOf. rewrite <- (upto_length height).
  induction (upto height) as [| y l IH]; [reflexivity |].
  cbn [flat_map length]. rewrite length_app, length_map, upto_length, IH. lia.
Qed.

(** X19.  With at least one seed and a colour for every seed, the
    brute-force rasterizer returns an image of [4 * width * height] bytes,
    every byte in [0, 255] and every alpha byte 255. *)
Theorem renderVoronoi_image (seeds : list SeedPos) (colors : list SeedColor)
    (width height : Z) :
  seeds <> [] ->
  (length seeds <= length colors)%nat ->
  exists data,
    Voronoi.renderVoronoi seeds colors width height = Some data
    /\ length data = (4 * (Z.to_nat height * Z.to_nat width))%nat
    /\ Forall (fun b => 0 <= b <= 255) data
    /\ forall i : nat,
         (i < Z.to_nat height * Z.to_nat width)%nat ->
         data !! (4 * i + 3)%nat = Some 255.
Proof.
  intros Hne Hcolors. unfold Voronoi.renderVoronoi.
  destruct (mapM_opaque
              (fun '(x, y) => Voronoi.pixelBytes colors (Voronoi.nearestBrute seeds x y))
              (Voronoi.pixelsOf width height)) as (quads & -> & Hlen & Hops).
  { intros [x y] _. apply pixelBytes_opaque.
    destruct (nearestBrute_first seeds x y Hne) as (sw & Hw & _).
    apply lookup_lt_Some in Hw. lia. }
  destruct (concat_opaque quads Hops) as (Hl & Hbytes & Halpha).
  rewrite pixelsOf_length in Hlen.
  eexists. split; [reflexivity |]. rewrite Hl, Hlen.
  split; [reflexivity |]. split; [exact Hbytes |].
  intros i Hi. apply Halpha. lia.
Qed.

(** A red and a blue seed on a 2x1 image. *)
Lemma renderVoronoi_image_witness :
  Voronoi.renderVoronoi [(0, 0); (1, 0)]%Q [(1, 0, 0, 1); (0, 0, 1, 1)]%Q 2 1
  = Some [255; 0; 0; 255; 0; 0; 255; 255]
  /\ exists data,
       Voronoi.renderVoronoi [(0, 0); (1, 0)]%Q [(1, 0, 0, 1); (0, 0, 1, 1)]%Q 2 1
       = Some data
       /\ length data = (4 * (Z.to_nat 1 * Z.to_nat 2))%nat
       /\ Forall (fun b => 0 <= b <= 255) data
       /\ forall i : nat,
            (i < Z.to_nat 1 * Z.to_nat 2)%nat -> data !! (4 * i + 3)%nat = Some 255.
Proof.
  split; [reflexivity |].
  apply (renderVoronoi_image [(0, 0); (1, 0)]%Q [(1, 0, 0, 1); (0, 0, 1, 1)]%Q 2 1);
    [discriminate | cbn; lia].
Defined.

(** *** The bucket grid *)

Lemma concat_insert_snoc {A} (grid : list (list A)) (k : nat) (bucket : list A) (i : A) :
  grid !! k = Some bucket ->
  concat (<[k := bucket ++ [i]]> grid) ≡ₚ concat grid ++ [i].
Proof.
  revert k. induction grid as [| b grid IH]; intros [| k] Hk; simplify_eq/=.
  - rewrite <- !app_assoc. f_equiv. apply Permutation_app_comm.
  - rewrite (IH k Hk). by rewrite app_assoc.
Qed.

Section GridFold.

(** A loop that pushes each index to the bucket [idx] names for its seed. *)
Variable idx : SeedPos -> Z.
Variable step : option (list (list nat)) -> nat * SeedPos -> option (list (list nat)).
Hypothesis step_Some : forall grid i seed,
  step (Some grid) (i, seed)
  = bucket ← JS.index grid (idx seed);
    Some (<[Z.to_nat (idx seed) := bucket ++ [i]]> grid).
Hypothesis step_None : forall p, step None p = None.

Lemma gridFold_None l : foldl step None l = None.
Proof. induction l as [| p l IH]; [reflexivity |]. cbn [foldl]. by rewrite step_None. Qed.

Lemma gridFold_partition l grid0 grid :
  foldl step (Some grid0) l = Some grid ->
  concat grid ≡ₚ concat grid0 ++ map fst l /\ length grid = length grid0.
Proof.
  revert grid0. induction l as [| [i seed] l IH]; intros grid0.
  - intros [= <-]. by rewrite app_nil_r.
  - cbn [foldl]. rewrite step_Some.
    destruct (JS.index grid0 (idx seed)) as [bucket |] eqn:Hb;
      cbn [mbind option_bind]; [| by rewrite gridFold_None].
    intros H. apply IH in H as [Hperm Hlen].
    apply index_Some in Hb as [_ Hb].
    rewrite length_insert in Hlen. split; [| exact Hlen].
    rewrite Hperm, (concat_insert_snoc _ _ _ _ Hb). cbn [map fst].
    by rewrite <- app_assoc.
Qed.

Lemma gridFold_defined l grid0 :
  Forall (fun p => 0 <= idx p.2 < Z.of_nat (length grid0)) l ->
  is_Some (foldl step (Some grid0) l).
Proof.
  revert grid0. induction l as [| [i seed] l IH]; intros grid0 Hall.
  - by eexists.
  - apply Forall_cons in Hall as [Hi Hall]. cbn [snd] in Hi.
    cbn [foldl]. rewrite step_Some. unfold JS.index.
    destruct (Z.ltb_spec (idx seed) 0); [lia |].
    destruct (lookup_lt_is_Some_2 grid0 (Z.to_nat (idx seed)) ltac:(lia))
      as [bucket ->].
    cbn [mbind option_bind]. apply IH. by rewrite length_insert.
Qed.

End GridFold.

Lemma imap_indices {A} (l : list A) : map fst (imap (fun i a => (i, a)) l) = seq 0 (length l).
Proof.
  change (map fst ?k) with (fst <$> k).
  apply list_eq. intros i. rewrite list_lookup_fmap, list_lookup_imap.
  destruct (l !! i) as [a |] eqn:Hi.
  - apply lookup_lt_Some in Hi. by rewrite lookup_seq_lt.
  - apply lookup_ge_None in Hi. by rewrite lookup_seq_ge.
Qed.

Lemma concat_replicate_nil {A} (n : nat) : concat (replicate n ([] : list A)) = [].
Proof. induction n as [| n IH]; [reflexivity | exact IH]. Qed.

(** The bucket a seed is pushed to (lines 71-75). *)
Lemma buildGrid_buckets seeds width height g :
  Voronoi.buildGrid seeds width height = Some g ->
  concat (Voronoi.buckets g) ≡ₚ seq 0 (length seeds)
  /\ length (Voronoi.buckets g)
     = Z.to_nat (Voronoi.gridRows g * Voronoi.gridCols g).
Proof.
  unfold Voronoi.buildGrid.
  match goal with |- context [foldl ?F ?a ?l] =>
    destruct (foldl F a l) as [grid |] eqn:Hfold end; [| discriminate].
  cbn [mbind option_bind]. intros [= <-]. cbn [Voronoi.buckets Voronoi.gridRows
                                                 Voronoi.gridCols].
  eapply (gridFold_partition
            (fun seed : SeedPos =>
               let cellSize := Voronoi.cellSizeOf width height (length seeds) in
               Z.min (Qfloor (seed.2 / inject_Z cellSize))
                     (Voronoi.ceilDiv height cellSize - 1)
               * Voronoi.ceilDiv width cellSize
               + Z.min (Qfloor (seed.1 / inject_Z cellSize))
                       (Voronoi.ceilDiv width cellSize - 1))) in Hfold.
  - destruct Hfold as [Hperm Hlen].
    rewrite concat_replicate_nil, app_nil_l, imap_indices in Hperm.
    rewrite length_replicate in Hlen. auto.
  - intros grid0 i seed. reflexivity.
  - intros [i seed]. reflexivity.
Qed.

(** X20.  When the grid of the optimized rasterizer is built, every seed
    index sits in exactly one bucket: the buckets, read one after the
    other, are a permutation of [0, seeds.length), and there is one bucket
    per grid cell. *)
Theorem voronoi_buckets_partition (seeds : list SeedPos) (width height : Z)
    (g : Voronoi.Grid) :
  Voronoi.buildGrid seeds width height = Some g ->
  concat (Voronoi.buckets g) ≡ₚ seq 0 (length seeds)
  /\ length (Voronoi.buckets g)
     = Z.to_nat (Voronoi.gridRows g * Voronoi.gridCols g).
Proof. apply buildGrid_buckets. Qed.

(** The sixteen seeds of the 8x8 example. *)
Lemma voronoi_buckets_partition_witness :
  Voronoi.buildGrid seeds16 8 8 = Some grid16
  /\ concat (Voronoi.buckets grid16) ≡ₚ seq 0 (length seeds16)
  /\ length (Voronoi.buckets grid16)
     = Z.to_nat (Voronoi.gridRows grid16 * Voronoi.gridCols grid16).
Proof.
  assert (H : Voronoi.buildGrid seeds16 8 8 = Some grid16) by reflexivity.
  split; [exact H |]. exact (voronoi_buckets_partition seeds16 8 8 grid16 H).
Defined.

(** X21.  On an image of at least one pixel, with at least one seed and no
    seed at a negative coordinate, building the grid does not throw: every
    seed falls on a bucket. *)
Theorem voronoi_grid_defined (seeds : list SeedPos) (width height : Z) :
  1 <= width -> 1 <= height ->
  seeds <> [] ->
  Forall (fun seed : SeedPos => (0 <= seed.1)%Q /\ (0 <= seed.2)%Q) seeds ->
  is_Some (Voronoi.buildGrid seeds width height).
Proof.
  intros Hw Hh Hne Hpos. unfold Voronoi.buildGrid.
  set (cs := Voronoi.cellSizeOf width height (length seeds)).
  set (cols := Voronoi.ceilDiv width cs). set (rows := Voronoi.ceilDiv height cs).
  assert (Hn : (0 < length seeds)%nat) by (destruct seeds; [contradiction | cbn; lia]).
  assert (Hcs : 1 <= cs).
  { unfold cs, Voronoi.cellSizeOf.
    assert (0 < (width * height + Z.of_nat (length seeds) - 1) / Z.of_nat (length seeds)).
    { apply Z.div_str_pos. nia. }
    pose proof (Z.sqrt_up_pos
                  ((width * height + Z.of_nat (length seeds) - 1)
                   / Z.of_nat (length seeds))). lia. }
  assert (Hcols : 1 <= cols).
  { unfold cols, Voronoi.ceilDiv.
    assert (0 < (width + cs - 1) / cs) by (apply Z.div_str_pos; lia). lia. }
  assert (Hrows : 1 <= rows).
  { unfold rows, Voronoi.ceilDiv.
    assert (0 < (height + cs - 1) / cs) by (apply Z.div_str_pos; lia). lia. }
  match goal with |- is_Some (?m ≫= _) =>
    assert (Hfold : is_Some m); [| destruct Hfold as [grid ->]; by eexists] end.
  apply (gridFold_defined
           (fun seed : SeedPos =>
              Z.min (Qfloor (seed.2 / inject_Z cs)) (rows - 1) * cols
              + Z.min (Qfloor (seed.1 / inject_Z cs)) (cols - 1))).
  - intros grid0 i seed. reflexivity.
  - rewrite length_replicate. apply Forall_forall. intros [i seed] Hin.
    apply elem_of_lookup_imap in Hin as (j & s' & [= -> ->] & Hj).
    cbn [snd].
    destruct (proj1 (Forall_forall _ _) Hpos s') as [Hx Hy];
      [by eapply list_elem_of_lookup_2 |].
    assert (Hfloor : forall q : Q, (0 <= q)%Q -> 0 <= Qfloor (q / inject_Z cs)).
    { intros q Hq. rewrite <- (Qfloor_Z 0). apply Qfloor_resp_le.
      change (inject_Z 0) with 0%Q. apply Qle_shift_div_l.
      - change 0%Q with (inject_Z 0). rewrite <- Zlt_Qlt. lia.
      - by rewrite Qmult_0_l. }
    pose proof (Hfloor _ Hx). pose proof (Hfloor _ Hy). nia.
Qed.

Lemma voronoi_grid_defined_witness :
  is_Some (Voronoi.buildGrid seeds16 8 8).
Proof.
  apply (voronoi_grid_defined seeds16 8 8); [lia | lia | discriminate |].
  cbv [seeds16 replicate].
  repeat (apply Forall_cons; split; [split; unfold Qle; cbn; lia |]).
  apply Forall_nil_2.
Defined.

(** *** The window scan *)

(** Every index the window scan meets comes out of a bucket. *)
Lemma windowSeeds_in_buckets (g : Voronoi.Grid) (x y : Z) (j : nat) :
  j ∈ Voronoi.windowSeeds g x y -> j ∈ concat (Voronoi.buckets g).
Proof.
  unfold Voronoi.windowSeeds. intros Hj.
  apply list_elem_of_In, in_flat_map in Hj as ([dx dy] & _ & Hj).
  apply list_elem_of_In in Hj.
  destruct ((x / Voronoi.cellSize g + dx <? 0)
            || (Voronoi.gridCols g <=? x / Voronoi.cellSize g + dx)
            || (y / Voronoi.cellSize g + dy <? 0)
            || (Voronoi.gridRows g <=? y / Voronoi.cellSize g + dy));
    [by apply elem_of_nil in Hj |].
  destruct (JS.index (Voronoi.buckets g) _) as [bucket |] eqn:Hb;
    [| by apply elem_of_nil in Hj].
  apply index_Some in Hb as [_ Hb]. cbn [default] in Hj.
  apply list_elem_of_In, in_concat. exists bucket.
  split; apply list_elem_of_In; [by eapply list_elem_of_lookup_2 | exact Hj].
Qed.

(** X22.  For a pixel of the optimized rasterizer, either every seed in
    the buckets of its window is at the computed distance [Infinity] (as
    when the window is empty) and the pixel takes seed 0, or the pixel
    takes a seed of the window that no seed of the window is nearer than,
    by the distances the loop computes. *)
Theorem voronoi_window_winner (seeds : list SeedPos) (width height : Z)
    (g : Voronoi.Grid) (x y : Z) :
  Voronoi.buildGrid seeds width height = Some g ->
  ((forall j, j ∈ Voronoi.windowSeeds g x y ->
              exists sj, seeds !! j = Some sj /\ Voronoi.sqDist sj x y = None)
   /\ Voronoi.nearestOptimized seeds g x y = 0%nat)
  \/ (Voronoi.nearestOptimized seeds g x y ∈ Voronoi.windowSeeds g x y
      /\ exists sw,
           seeds !! Voronoi.nearestOptimized seeds g x y = Some sw
           /\ forall j sj,
                j ∈ Voronoi.windowSeeds g x y -> seeds !! j = Some sj ->
                distLe (Voronoi.sqDist sw x y) (Voronoi.sqDist sj x y)).
Proof.
  intros Hgrid. apply buildGrid_buckets in Hgrid as [Hperm _].
  assert (Hvalid : forall j, j ∈ Voronoi.windowSeeds g x y -> is_Some (seeds !! j)).
  { intros j Hj. apply windowSeeds_in_buckets in Hj. rewrite Hperm in Hj.
    apply elem_of_seq in Hj. apply lookup_lt_is_Some_2. lia. }
  unfold Voronoi.nearestOptimized.
  destruct (nearestIn_winner seeds x y (Voronoi.windowSeeds g x y))
    as [[Hzero Hinf] | (Hk & sw & Hsw & _ & Hleast)].
  - left. split; [| exact Hzero]. intros j Hj.
    destruct (Hvalid j Hj) as [sj Hsj]. exists sj.
    split; [exact Hsj | exact (Hinf j sj Hj Hsj)].
  - right. split; [exact Hk |]. exists sw. split; [exact Hsw | exact Hleast].
Qed.

(** Pixel (0, 0) of the 8x8 example: its window holds seed 1 only. *)
Lemma voronoi_window_winner_witness :
  Voronoi.windowSeeds grid16 0 0 = [1%nat]
  /\ Voronoi.nearestOptimized seeds16 grid16 0 0 = 1%nat
  /\ (((forall j, j ∈ Voronoi.windowSeeds grid16 0 0 ->
                  exists sj, seeds16 !! j = Some sj /\ Voronoi.sqDist sj 0 0 = None)
       /\ Voronoi.nearestOptimized seeds16 grid16 0 0 = 0%nat)
      \/ (Voronoi.nearestOptimized seeds16 grid16 0 0 ∈ Voronoi.windowSeeds grid16 0 0
          /\ exists sw,
               seeds16 !! Voronoi.nearestOptimized seeds16 grid16 0 0 = Some sw
               /\ forall j sj,
                    j ∈ Voronoi.windowSeeds grid16 0 0 -> seeds16 !! j = Some sj ->
                    distLe (Voronoi.sqDist sw 0 0) (Voronoi.sqDist sj 0 0))).
Proof.
  split; [vm_compute; reflexivity |]. split; [vm_compute; reflexivity |].
  apply (voronoi_window_winner seeds16 8 8 grid16 0 0). vm_compute. reflexivity.
Defined.

(** ** simulation/Sim.ts *)

(** What the position writes of [preparePlay] do, and when they throw. *)
Lemma placeAt_spec (f : CellBody -> SeedPos) (cells : list CellBody)
    (positions : list SeedPos) :
  match placeAt f cells positions with
  | None => (length positions < length cells)%nat
  | Some positions' =>
      (length cells <= length positions)%nat
      /\ length positions' = length positions
      /\ (forall i c, cells !! i = Some c -> positions' !! i = Some (f c))
      /\ (forall i, (length cells <= i)%nat -> positions' !! i = positions !! i)
  end.
Proof.
  revert positions. induction cells as [| c cells IH]; intros positions.
  - cbn [placeAt]. split; [cbn; lia |]. split; [reflexivity |].
    split; [intros i c Hi; by rewrite lookup_nil in Hi | reflexivity].
  - destruct positions as [| p positions]; cbn [placeAt]; [cbn; lia |].
    specialize (IH positions).
    destruct (placeAt f cells positions) as [rest |]; cbn [mbind option_bind].
    + destruct IH as (Hle & Hlen & Hin & Hout). cbn [length].
      split; [lia |]. split; [by rewrite Hlen |]. split.
      * intros [| i] c' Hi; [by injection Hi as -> | by apply Hin].
      * intros [| i] Hi; [lia |]. apply Hout. lia.
    + cbn [length]. lia.
Qed.

(** X23.  [preparePlay(positions, r)] throws exactly when [positions] is
    shorter than the cells.  Otherwise, in either branch, the simulation is
    left playing in direction [r] with every cell at age 0 and its seed on
    the cell's source; positions beyond the cells are not touched. *)
Theorem preparePlay_lands_on_source (sim : Sim) (positions : list SeedPos) (r : bool) :
  match preparePlay sim positions r with
  | None => (length positions < length (cells sim))%nat
  | Some (sim', positions') =>
      (length (cells sim) <= length positions)%nat
      /\ reversed sim' = r
      /\ length (cells sim') = length (cells sim)
      /\ length positions' = length positions
      /\ (forall i c, cells sim' !! i = Some c ->
                      positions' !! i = Some (srcx c, srcy c) /\ age c = 0)
      /\ (forall i, (length (cells sim) <= i)%nat -> positions' !! i = positions !! i)
  end.
Proof.
  unfold preparePlay. case_bool_decide as Hdir.
  - pose proof (placeAt_spec (fun c => (srcx c, srcy c)) (cells sim) positions) as H.
    destruct (placeAt _ (cells sim) positions) as [positions' |];
      cbn [mbind option_bind]; [| exact H].
    destruct H as (Hle & Hlen & Hin & Hout). cbn [cells reversed].
    split; [exact Hle |]. split; [exact Hdir |].
    split; [by rewrite length_map |]. split; [exact Hlen |]. split; [| exact Hout].
    intros i c Hi. change (map ?g ?l) with (g <$> l) in Hi.
    rewrite list_lookup_fmap in Hi.
    destruct (cells sim !! i) as [c0 |] eqn:Hc0; [| discriminate].
    injection Hi as <-. split; [exact (Hin i c0 Hc0) | reflexivity].
  - pose proof (placeAt_spec (fun c => (dstx c, dsty c)) (cells sim) positions) as H.
    destruct (placeAt _ (cells sim) positions) as [positions' |];
      cbn [mbind option_bind]; [| exact H].
    destruct H as (Hle & Hlen & Hin & Hout). cbn [switch cells reversed].
    split; [exact Hle |].
    split; [destruct (reversed sim), r; simpl; congruence |].
    split; [by rewrite length_map |]. split; [exact Hlen |]. split; [| exact Hout].
    intros i c Hi. change (map ?g ?l) with (g <$> l) in Hi.
    rewrite list_lookup_fmap in Hi.
    destruct (cells sim !! i) as [c0 |] eqn:Hc0; [| discriminate].
    injection Hi as <-. split; [exact (Hin i c0 Hc0) | reflexivity].
Qed.

(** *** The frame of a step *)

Lemma sameBody_refl (c : CellBody) : sameBody c c.
Proof. repeat split. Qed.

Lemma sameBody_trans (c1 c2 c3 : CellBody) :
  sameBody c1 c2 -> sameBody c2 c3 -> sameBody c1 c3.
Proof.
  intros (E1 & V1 & W1 & F1 & A1 & S1) (E2 & V2 & W2 & F2 & A2 & S2).
  repeat split; congruence.
Qed.

Lemma setAcc_sameBody (ax ay : Q) (c : CellBody) : sameBody c (setAcc ax ay c).
Proof. repeat split. Qed.

Lemma sameBodies_refl (l : list CellBody) : Forall2 sameBody l l.
Proof. induction l; constructor; [apply sameBody_refl | assumption]. Qed.

Lemma sameBodies_trans (l1 l2 l3 : list CellBody) :
  Forall2 sameBody l1 l2 -> Forall2 sameBody l2 l3 -> Forall2 sameBody l1 l3.
Proof.
  intros H12. revert l3. induction H12 as [| a b l1 l2 Hab _ IH]; intros l3 H23.
  - inversion H23. constructor.
  - inversion H23 as [| b' c l2' l3' Hbc Hrest]; subst.
    constructor; [by eapply sameBody_trans | by apply IH].
Qed.

Lemma sameBodies_insert (cells : list CellBody) (i : nat) (ci c' : CellBody) :
  cells !! i = Some ci -> sameBody ci c' ->
  Forall2 sameBody cells (<[i := c']> cells).
Proof.
  revert i. induction cells as [| c cells IH]; intros [| i] Hi Hsame; simplify_eq/=.
  - constructor; [exact Hsame | apply sameBodies_refl].
  - constructor; [apply sameBody_refl | by apply IH].
Qed.

Section StepFrame.

Variable sqrt : Q -> Q.
Variable posToBits : Q -> Z.

Lemma applyNeighbourForce_sameBody c pos other pixelSize :
  sameBody c (Cell.applyNeighbourForce sqrt posToBits c pos other pixelSize).1.
Proof.
  unfold Cell.applyNeighbourForce. cbn [fst].
  repeat match goal with |- context [if ?b then _ else _] => destruct b end;
    try apply setAcc_sameBody; apply sameBody_refl.
Qed.

Lemma neighbourStep_sameBody cells positions pixelSize i s other s' :
  neighbourStep sqrt posToBits cells positions pixelSize i s other = Some s' ->
  sameBody (me s) (me s').
Proof.
  unfold neighbourStep. case_bool_decide; [intros [= <-]; apply sameBody_refl |].
  destruct (positions !! i) as [posI |]; [| discriminate].
  destruct (positions !! other) as [posOther |]; [| discriminate].
  cbn [mbind option_bind].
  pose proof (applyNeighbourForce_sameBody (me s) posI posOther pixelSize) as Hn.
  destruct (Cell.applyNeighbourForce sqrt posToBits (me s) posI posOther pixelSize)
    as [c1 weight].
  cbn [fst] in Hn.
  destruct (cells !! other) as [cellOther |]; [| discriminate].
  cbn [mbind option_bind]. intros [= <-]. cbn [me].
  destruct (strokeId c1 =? strokeId cellOther); [| exact Hn].
  eapply sameBody_trans; [exact Hn | apply setAcc_sameBody].
Qed.

Lemma scanBucket_sameBody cells positions pixelSize i bucket s s' :
  scanBucket sqrt posToBits cells positions pixelSize i bucket s = Some s' ->
  sameBody (me s) (me s').
Proof.
  unfold scanBucket. revert s.
  induction bucket as [| other bucket IH]; intros s; cbn [foldl].
  - intros [= <-]. apply sameBody_refl.
  - cbn [mbind option_bind].
    destruct (neighbourStep sqrt posToBits cells positions pixelSize i s other)
      as [s1 |] eqn:H1.
    + intros H. eapply sameBody_trans; [by eapply neighbourStep_sameBody | by apply IH].
    + intros H. exfalso. revert H. clear.
      induction bucket as [| o bucket IH]; [discriminate | exact IH].
Qed.

Lemma scanCell_sameBody grid positions gridSize pixelSize cells i cells' :
  scanCell sqrt posToBits grid positions gridSize pixelSize cells i = Some cells' ->
  Forall2 sameBody cells cells'.
Proof.
  unfold scanCell.
  destruct (cells !! i) as [ci |] eqn:Hci; [| discriminate].
  destruct (positions !! i) as [pos |]; [| discriminate].
  cbn [mbind option_bind].
  match goal with |- context [foldl ?F ?a ?l] =>
    assert (Hscan : forall offs s0 s1,
              foldl F (Some s0) offs = Some s1 -> sameBody (me s0) (me s1));
    [| destruct (foldl F a l) as [s |] eqn:Hfold; [| discriminate]] end.
  { induction offs as [| [dx dy] offs IH]; intros s0 s1; cbn [foldl].
    - intros [= <-]. apply sameBody_refl.
    - cbn [mbind option_bind].
      match goal with |- context [if ?b then _ else _] => destruct b end;
        [apply IH |].
      destruct (slot _) as [nIndex |]; cbn [mbind option_bind]; last first.
      { intros H. exfalso. revert H. clear.
        induction offs as [| [dx' dy'] offs IH]; [discriminate | exact IH]. }
      destruct (grid !! nIndex) as [bucket |]; cbn [mbind option_bind]; last first.
      { intros H. exfalso. revert H. clear.
        induction offs as [| [dx' dy'] offs IH]; [discriminate | exact IH]. }
      destruct (scanBucket sqrt posToBits cells positions pixelSize i bucket s0)
        as [s2 |] eqn:Hb; last first.
      { intros H. exfalso. revert H. clear.
        induction offs as [| [dx' dy'] offs IH]; [discriminate | exact IH]. }
      intros H. eapply sameBody_trans; [by eapply scanBucket_sameBody | by apply IH]. }
  cbn [mbind option_bind]. intros [= <-].
  apply Hscan in Hfold. cbn [me] in Hfold.
  apply (sameBodies_insert cells i ci _ Hci).
  destruct (Qltb 0 (count s)); [| exact Hfold].
  eapply sameBody_trans; [exact Hfold | apply setAcc_sameBody].
Qed.

Lemma scanCells_sameBody grid positions gridSize pixelSize l cells cells' :
  foldl (fun acc i => cs ← acc; scanCell sqrt posToBits grid positions gridSize pixelSize cs i)
        (Some cells) l = Some cells' ->
  Forall2 sameBody cells cells'.
Proof.
  revert cells. induction l as [| i l IH]; intros cells; cbn [foldl].
  - intros [= <-]. apply sameBodies_refl.
  - cbn [mbind option_bind].
    destruct (scanCell sqrt posToBits grid positions gridSize pixelSize cells i)
      as [cells1 |] eqn:H1.
    + intros H. apply IH in H. apply scanCell_sameBody in H1.
      by eapply sameBodies_trans.
    + intros H. exfalso. revert H. clear.
      induction l as [| o l IH]; [discriminate | exact IH].
Qed.

Lemma forces_sameBody (positions : list SeedPos) (sidelen pixelSize : Q)
    (cells cells1 : list CellBody) :
  mapM (fun '(i, c) =>
          pos ← positions !! i;
          Some (Cell.applyDstForce sqrt
                  (Cell.applyWallForce c pos sidelen pixelSize) pos sidelen))
       (imap (fun i c => (i, c)) cells) = Some cells1 ->
  Forall2 sameBody cells cells1.
Proof.
  intros H. apply mapM_Some in H.
  apply Forall2_same_length_lookup. split.
  - apply Forall2_length in H. by rewrite length_imap in H.
  - intros i c c1 Hc Hc1.
    destruct (Forall2_lookup_r _ _ _ i c1 H Hc1) as ([j c0] & Hj & Hf).
    rewrite list_lookup_imap, Hc in Hj. injection Hj as <- <-.
    cbn beta iota in Hf.
    destruct (positions !! i) as [pos |]; [| discriminate].
    cbn [mbind option_bind] in Hf. injection Hf as <-.
    unfold Cell.applyDstForce, Cell.applyWallForce.
    eapply sameBody_trans; apply setAcc_sameBody.
Qed.

End StepFrame.

Lemma integrate_spec (cells : list CellBody) (positions : list SeedPos) cells' positions' :
  integrate cells positions = Some (cells', positions') ->
  length cells' = length cells
  /\ (length cells <= length positions)%nat
  /\ length positions' = length positions
  /\ (forall i c pos,
        cells !! i = Some c -> positions !! i = Some pos ->
        cells' !! i = Some (Cell.update c pos).1
        /\ positions' !! i = Some (Cell.update c pos).2)
  /\ (forall i, (length cells <= i)%nat -> positions' !! i = positions !! i).
Proof.
  revert positions cells' positions'.
  induction cells as [| c cells IH]; intros positions cells' positions'.
  - cbn [integrate]. intros [= <- <-].
    split; [reflexivity |]. split; [cbn; lia |]. split; [reflexivity |].
    split; [| reflexivity]. intros i c pos Hi. by rewrite lookup_nil in Hi.
  - destruct positions as [| pos positions]; cbn [integrate]; [discriminate |].
    destruct (integrate cells positions) as [[cs ps] |] eqn:Hrest; [| discriminate].
    cbn [mbind option_bind].
    destruct (Cell.update c pos) as [c' pos'] eqn:Hup. intros [= <- <-].
    destruct (IH _ _ _ Hrest) as (Hl1 & Hle & Hl2 & Hin & Hout). cbn [length].
    split; [by rewrite Hl1 |]. split; [lia |]. split; [by rewrite Hl2 |]. split.
    + intros [| i] c0 p0 Hc Hp.
      * injection Hc as <-. injection Hp as <-. rewrite Hup. split; reflexivity.
      * by apply Hin.
    + intros [| i] Hi; [lia |]. apply Hout. lia.
Qed.

(** X24.  A step of the simulation that does not throw keeps the number of
    cells and of positions and the direction of play; in every cell it
    keeps the source, the destination, [dstForce] and [strokeId], adds one
    to [age] and leaves the acceleration at 0; the positions past the last
    cell stay as they were. *)
Theorem sim_update_frame (sqrt : Q -> Q) (posToBits : Q -> Z) (sim : Sim)
    (positions : list SeedPos) (sidelen : Q) (sim' : Sim)
    (positions' : list SeedPos) :
  update sqrt posToBits sim positions sidelen = Some (sim', positions') ->
  length (cells sim') = length (cells sim)
  /\ length positions' = length positions
  /\ reversed sim' = reversed sim
  /\ (forall i c c',
        cells sim !! i = Some c -> cells sim' !! i = Some c' ->
        endpoints c' = endpoints c /\ dstForce c' = dstForce c
        /\ strokeId c' = strokeId c /\ age c' = age c + 1
        /\ accx c' = 0%Q /\ accy c' = 0%Q)
  /\ (forall i, (length (cells sim) <= i)%nat -> positions' !! i = positions !! i).
Proof.
  unfold update.
  destruct (buildGrid _ _ _ _) as [grid |]; [| discriminate].
  cbn [mbind option_bind].
  destruct (mapM _ _) as [cells1 |] eqn:H1; [| discriminate].
  cbn [mbind option_bind].
  destruct (foldl _ _ _) as [cells2 |] eqn:H2; [| discriminate].
  cbn [mbind option_bind].
  destruct (integrate cells2 positions) as [[cells3 ps] |] eqn:H3; [| discriminate].
  cbn [mbind option_bind]. intros [= <- <-]. cbn [cells reversed].
  apply forces_sameBody in H1. apply scanCells_sameBody in H2.
  assert (H12 : Forall2 sameBody (cells sim) cells2).
  { by eapply sameBodies_trans. }
  pose proof (Forall2_length _ _ _ H12) as Hlen12.
  destruct (integrate_spec _ _ _ _ H3) as (Hl3 & Hle & Hlp & Hin & Hout).
  split; [lia |]. split; [exact Hlp |]. split; [reflexivity |]. split.
  - intros i c c' Hc Hc'.
    destruct (Forall2_lookup_l _ _ _ i c H12 Hc) as (c2 & Hc2 & Hsame).
    destruct (lookup_lt_is_Some_2 positions i) as [pos Hpos].
    { apply lookup_lt_Some in Hc'. lia. }
    destruct (Hin i c2 pos Hc2 Hpos) as [Hc3 _].
    rewrite Hc3 in Hc'. injection Hc' as <-.
    destruct Hsame as (E & _ & _ & F & A & S). unfold Cell.update. cbn [fst].
    unfold endpoints in *. cbn [srcx srcy dstx dsty dstForce strokeId age accx accy].
    repeat split; congruence.
  - intros i Hi. apply Hout. lia.
Qed.

(** A step of four moving cells, two of them within each other's personal
    space: the four seeds move. *)
Lemma sim_update_frame_witness :
  exists sim' positions',
    update sqrtModel noBits simMoving positionsMoving 2 = Some (sim', positions')
    /\ Forall2 (fun pos pos' => pos <> pos') positionsMoving positions'
    /\ length (cells sim') = length (cells simMoving)
    /\ length positions' = length positionsMoving
    /\ reversed sim' = reversed simMoving
    /\ (forall i c c',
          cells simMoving !! i = Some c -> cells sim' !! i = Some c' ->
          endpoints c' = endpoints c /\ dstForce c' = dstForce c
          /\ strokeId c' = strokeId c /\ age c' = age c + 1
          /\ accx c' = 0%Q /\ accy c' = 0%Q)
    /\ (forall i, (length (cells simMoving) <= i)%nat ->
                  positions' !! i = positionsMoving !! i).
Proof.
  eexists _, _.
  assert (Hstep : update sqrtModel noBits simMoving positionsMoving 2 = Some (_, _))
    by (vm_compute; reflexivity).
  split; [exact Hstep |].
  split; [repeat (constructor; [vm_compute; discriminate |]); constructor |].
  exact (sim_update_frame sqrtModel noBits simMoving positionsMoving 2 _ _ Hstep).
Defined.

(** *** Neighbours out of reach *)

(** X25.  In the neighbour loop of a step, a neighbour at a positive
    distance of at least the personal space changes nothing for the cell:
    no neighbour force, no share in the velocity alignment, and, the weight
    being 0, no stroke attraction even between cells of one stroke. *)
Theorem far_neighbour_has_no_effect (sqrt : Q -> Q) (posToBits : Q -> Z)
    (cells : list CellBody) (positions : list SeedPos) (pixelSize : Q)
    (i other : nat) (s : Scan) (posI posOther : SeedPos) (cellOther : CellBody) :
  other <> i ->
  positions !! i = Some posI ->
  positions !! other = Some posOther ->
  cells !! other = Some cellOther ->
  (0 < sqrt ((posOther.1 - posI.1) * (posOther.1 - posI.1)
             + (posOther.2 - posI.2) * (posOther.2 - posI.2)))%Q ->
  (pixelSize * PERSONAL_SPACE
   <= sqrt ((posOther.1 - posI.1) * (posOther.1 - posI.1)
            + (posOther.2 - posI.2) * (posOther.2 - posI.2)))%Q ->
  exists s',
    neighbourStep sqrt posToBits cells positions pixelSize i s other = Some s'
    /\ sameBody (me s) (me s')
    /\ (accx (me s') == accx (me s))%Q /\ (accy (me s') == accy (me s))%Q
    /\ (avgXvel s' == avgXvel s)%Q /\ (avgYvel s' == avgYvel s)%Q
    /\ (count s' == count s)%Q.
Proof.
  intros Hne Hi Ho Hc Hpos Hfar.
  destruct (neighbourStep sqrt posToBits cells positions pixelSize i s other)
    as [s' |] eqn:Hstep.
  - exists s'. split; [reflexivity |].
    split; [by eapply neighbourStep_sameBody |].
    unfold neighbourStep in Hstep. rewrite bool_decide_eq_false_2 in Hstep by exact Hne.
    rewrite Hi, Ho in Hstep. cbn [mbind option_bind] in Hstep.
    unfold Cell.applyNeighbourForce in Hstep.
    set (dist := sqrt _) in *.
    assert (Hnear : Qltb 0 dist && Qltb dist (pixelSize * PERSONAL_SPACE) = false).
    { apply andb_false_iff. right. by apply Qltb_ge. }
    rewrite Hnear in Hstep.
    assert (Hzero : Qeq_bool dist 0 = false).
    { apply not_true_iff_false. intros Heq. apply Qeq_bool_iff in Heq.
      rewrite Heq in Hpos. by apply Qlt_irrefl in Hpos. }
    rewrite Hzero in Hstep. rewrite Hc in Hstep. cbn [mbind option_bind] in Hstep.
    change (Qmax 0 0) with 0%Q in Hstep.
    injection Hstep as <-. cbn [me avgXvel avgYvel count].
    destruct (strokeId (me s) =? strokeId cellOther);
      unfold Cell.applyStrokeAttraction; cbn [accx accy setAcc];
      repeat split; ring.
  - exfalso. unfold neighbourStep in Hstep.
    rewrite bool_decide_eq_false_2 in Hstep by exact Hne.
    rewrite Hi, Ho in Hstep. cbn [mbind option_bind] in Hstep.
    destruct (Cell.applyNeighbourForce _ _ _ _ _ _) as [c1 weight].
    rewrite Hc in Hstep. discriminate.
Qed.

(** Two cells of one stroke, two pixels apart. *)
Lemma far_neighbour_has_no_effect_witness :
  exists s',
    neighbourStep sqrtModel noBits [cellA; cellB] [(1 # 2, 1 # 2); (5 # 2, 1 # 2)]%Q 1
      0 (freshScan cellA) 1 = Some s'
    /\ sameBody (me (freshScan cellA)) (me s')
    /\ (accx (me s') == accx (me (freshScan cellA)))%Q
    /\ (accy (me s') == accy (me (freshScan cellA)))%Q
    /\ (avgXvel s' == avgXvel (freshScan cellA))%Q
    /\ (avgYvel s' == avgYvel (freshScan cellA))%Q
    /\ (count s' == count (freshScan cellA))%Q.
Proof.
  apply (far_neighbour_has_no_effect sqrtModel noBits [cellA; cellB]
           [(1 # 2, 1 # 2); (5 # 2, 1 # 2)]%Q 1 0 1 (freshScan cellA)
           (1 # 2, 1 # 2)%Q (5 # 2, 1 # 2)%Q cellB);
    [lia | reflexivity | reflexivity | reflexivity | reflexivity | discriminate].
Defined.

(** *** [setAssignments] *)

Lemma Qfloor_quotient (k w : Z) :
  0 < w -> Qfloor (inject_Z k / inject_Z w) = k / w.
Proof.
  intros Hw. destruct w as [| p | p]; try lia.
  unfold Qdiv, Qinv, inject_Z, Qmult, Qfloor. cbn [Qnum Qden].
  rewrite Z.mul_1_r. reflexivity.
Qed.

Lemma jsRemainder_int (k w : Z) :
  0 <= k -> 0 < w ->
  (jsRemainder (inject_Z k) (inject_Z w) == inject_Z (k mod w))%Q.
Proof.
  intros Hk Hw. unfold jsRemainder, Qtruncate.
  assert (Hnn : Qltb (inject_Z k / inject_Z w) 0 = false).
  { apply Qltb_ge. apply Qle_shift_div_l.
    - change 0%Q with (inject_Z 0). by rewrite <- Zlt_Qlt.
    - rewrite Qmult_0_l. change 0%Q with (inject_Z 0). by rewrite <- Zle_Qle. }
  rewrite Hnn, Qfloor_quotient by exact Hw.
  rewrite <- inject_Z_mult. unfold Qminus. rewrite <- inject_Z_opp, <- inject_Z_plus.
  apply inject_Z_injective. pose proof (Z_div_mod_eq_full k w). lia.
Qed.

(** Where [placedCell] puts a cell when the grid width is a whole
    number. *)
Lemma placedCell_centres (w : Z) (pixelSize : Q) (d : nat) (k : Z) (prev : CellBody) :
  0 < w -> 0 <= k ->
  let c := placedCell (inject_Z w) pixelSize d k prev in
  (srcx c == (gridCentre w pixelSize k).1)%Q
  /\ (srcy c == (gridCentre w pixelSize k).2)%Q
  /\ (dstx c == (gridCentre w pixelSize (Z.of_nat d)).1)%Q
  /\ (dsty c == (gridCentre w pixelSize (Z.of_nat d)).2)%Q.
Proof.
  intros Hw Hk. unfold placedCell, gridCentre, newCellBody. cbn [srcx srcy dstx dsty fst snd].
  rewrite !Qfloor_quotient by exact Hw.
  rewrite !jsRemainder_int by lia.
  repeat split; reflexivity.
Qed.

Section AssignmentsLoop.

Variables (width pixelSize : Q).

Lemma assignLoop_snoc cells0 assignments k :
  foldl (assignStep width pixelSize) (Some cells0) (imap (fun i s => (i, s)) (assignments ++ [k]))
  = assignStep width pixelSize (foldl (assignStep width pixelSize) (Some cells0) (imap (fun i s => (i, s)) assignments))
      (length assignments, k).
Proof.
  rewrite imap_app, foldl_app. cbn [imap foldl]. by rewrite Nat.add_0_r.
Qed.

Lemma assignLoop_spec cells0 assignments :
  NoDup assignments ->
  (forall s, s ∈ assignments -> 0 <= s < Z.of_nat (length cells0)) ->
  exists cells',
    foldl (assignStep width pixelSize) (Some cells0) (imap (fun i s => (i, s)) assignments) = Some cells'
    /\ length cells' = length cells0
    /\ (forall (d : nat) k c,
          assignments !! d = Some k -> cells0 !! Z.to_nat k = Some c ->
          cells' !! Z.to_nat k = Some (placedCell width pixelSize d k c))
    /\ (forall (j : nat) c,
          Z.of_nat j ∉ assignments -> cells0 !! j = Some c -> cells' !! j = Some c).
Proof.
  induction assignments as [| k assignments IH] using rev_ind; intros Hnd Hrange.
  - exists cells0. split; [reflexivity |]. split; [reflexivity |]. split.
    + intros d k c Hd. by rewrite lookup_nil in Hd.
    + auto.
  - apply NoDup_app in Hnd as (Hnd & Hfresh & _).
    destruct IH as (cells1 & Hfold & Hlen & Hplaced & Hrest); [exact Hnd | |].
    { intros s Hs. apply Hrange, elem_of_app. by left. }
    assert (Hk : 0 <= k < Z.of_nat (length cells0)).
    { apply Hrange, elem_of_app. right. apply list_elem_of_here. }
    assert (Hknew : k ∉ assignments).
    { intros Hin. apply (Hfresh k Hin), list_elem_of_here. }
    destruct (lookup_lt_is_Some_2 cells0 (Z.to_nat k) ltac:(lia)) as [c0 Hc0].
    assert (Hprev : cells1 !! Z.to_nat k = Some c0).
    { apply Hrest; [| exact Hc0]. by rewrite Z2Nat.id by lia. }
    rewrite assignLoop_snoc, Hfold. unfold assignStep. cbn [mbind option_bind].
    unfold JS.index. destruct (Z.ltb_spec k 0); [lia |].
    rewrite Hprev. cbn [mbind option_bind].
    eexists. split; [reflexivity |]. split; [by rewrite length_insert |]. split.
    + intros d k' c Hd Hc.
      destruct (decide (d < length assignments)%nat) as [Hin | Hlast].
      * rewrite lookup_app_l in Hd by exact Hin.
        assert (k' <> k).
        { intros ->. apply Hknew. by eapply list_elem_of_lookup_2. }
        assert (0 <= k') by (apply Hrange, elem_of_app; left;
                             by eapply list_elem_of_lookup_2).
        rewrite list_lookup_insert_ne by lia. by apply Hplaced.
      * apply lookup_lt_Some in Hd as Hlt. rewrite length_app in Hlt. cbn in Hlt.
        assert (d = length assignments) as -> by lia.
        rewrite lookup_app_r, Nat.sub_diag in Hd by lia. injection Hd as <-.
        assert (c = c0) as -> by congruence.
        apply list_lookup_insert_eq. rewrite Hlen. lia.
    + intros j c Hj Hc.
      assert (Z.to_nat k <> j).
      { intros <-. apply Hj. rewrite Z2Nat.id by lia.
        apply elem_of_app. right. apply list_elem_of_here. }
      rewrite list_lookup_insert_ne by done. apply Hrest; [| exact Hc].
      intros Hin. apply Hj, elem_of_app. by left.
Qed.

End AssignmentsLoop.

(** X26.  On a grid whose width [sqrt(cells.length)] is the whole number
    [w], [setAssignments] with distinct indices of cells does not throw:
    the cell named at place [d] by [assignments[d] = k] gets the centre of
    grid cell [k] as its source and the centre of grid cell [d] as its
    destination, keeps its [dstForce], [age] and [strokeId] and comes to
    rest; cells not named stay as they were. *)
Theorem setAssignments_places (sqrt : Q -> Q) (sim : Sim) (assignments : list Z)
    (sidelen : Q) (w : Z) :
  0 < w ->
  sqrt (inject_Z (Z.of_nat (length (cells sim)))) = inject_Z w ->
  NoDup assignments ->
  (forall s, s ∈ assignments -> 0 <= s < Z.of_nat (length (cells sim))) ->
  exists sim',
    setAssignments sqrt sim assignments sidelen = Some sim'
    /\ length (cells sim') = length (cells sim)
    /\ reversed sim' = reversed sim
    /\ (forall (d : nat) k c,
          assignments !! d = Some k -> cells sim !! Z.to_nat k = Some c ->
          exists c',
            cells sim' !! Z.to_nat k = Some c'
            /\ (srcx c' == (gridCentre w (sidelen / inject_Z w) k).1)%Q
            /\ (srcy c' == (gridCentre w (sidelen / inject_Z w) k).2)%Q
            /\ (dstx c' == (gridCentre w (sidelen / inject_Z w) (Z.of_nat d)).1)%Q
            /\ (dsty c' == (gridCentre w (sidelen / inject_Z w) (Z.of_nat d)).2)%Q
            /\ dstForce c' = dstForce c /\ age c' = age c
            /\ strokeId c' = strokeId c
            /\ velx c' = 0%Q /\ vely c' = 0%Q /\ accx c' = 0%Q /\ accy c' = 0%Q)
    /\ (forall (j : nat) c,
          Z.of_nat j ∉ assignments -> cells sim !! j = Some c ->
          cells sim' !! j = Some c).
Proof.
  intros Hw Hsqrt Hnd Hrange. unfold setAssignments. rewrite Hsqrt.
  destruct (assignLoop_spec (inject_Z w) (sidelen / inject_Z w) (cells sim)
              assignments Hnd Hrange) as (cells' & Hfold & Hlen & Hplaced & Hrest).
  rewrite Hfold. cbn [mbind option_bind].
  eexists. split; [reflexivity |]. cbn [cells reversed].
  split; [exact Hlen |]. split; [reflexivity |]. split; [| exact Hrest].
  intros d k c Hd Hc. eexists. split; [by apply (Hplaced d k c) |].
  assert (Hk : 0 <= k).
  { apply (Hrange k). by eapply list_elem_of_lookup_2. }
  destruct (placedCell_centres w (sidelen / inject_Z w) d k c Hw Hk)
    as (H1 & H2 & H3 & H4).
  repeat split; assumption.
Qed.

(** The four cells of the 2x2 grid, sent round in a cycle. *)
Lemma setAssignments_places_witness :
  exists sim',
    setAssignments sqrtModel simGrid2 [1; 2; 3; 0] 2 = Some sim'
    /\ length (cells sim') = length (cells simGrid2)
    /\ reversed sim' = reversed simGrid2.
Proof.
  destruct (setAssignments_places sqrtModel simGrid2 [1; 2; 3; 0] 2 2)
    as (sim' & H1 & H2 & H3 & _).
  - lia.
  - reflexivity.
  - apply NoDup_ListNoDup. repeat (constructor; [cbn; lia |]). constructor.
  - intros s Hs. cbn [simGrid2 cells length].
    repeat (apply elem_of_cons in Hs as [-> | Hs]; [lia |]). by apply elem_of_nil in Hs.
  - exists sim'. auto.
Defined.

(** ** workers/drawing-worker.ts *)

(** X27.  A drawing request whose [myId] equals its [currentId] is never
    cancelled and never returns: however long it has run, the worker has
    posted nothing but [update_assignments] messages and is still in its
    loop, unless the set-up or a trial threw. *)
Theorem drawing_same_id_never_returns (drawImageScaled : list Z -> Z -> Z -> list Z)
    (pow099 : Q -> Q) (fuel : nat) (source : UnprocessedPreset)
    (settings : GenerationSettings) (colors : list SeedColor)
    (pixelData : list Drawing.PixelData) (id : Z) :
  (Drawing.onmessage drawImageScaled pow099 fuel source settings colors pixelData
     id id).2 <> Returned
  /\ Forall (fun m => exists a, m = UpdateAssignments a)
       (Drawing.onmessage drawImageScaled pow099 fuel source settings colors
          pixelData id id).1.
Proof.
  unfold Drawing.onmessage.
  destruct (Drawing.start _ _ _ _ _) as [st0 |]; [| split; [discriminate | constructor]].
  generalize (Drawing.pixels st0) (Drawing.rng st0) 0.
  induction fuel as [| fuel IH]; intros px g loopCount; cbn [Drawing.drawingLoop].
  - split; [discriminate | constructor].
  - rewrite Z.eqb_refl, andb_false_r.
    destruct (Drawing.trials _ _ _ _) as [st |]; [| split; [discriminate | constructor]].
    destruct (IH (Drawing.pixels st) (Drawing.rng st) (loopCount + 1)) as [Hexit Hlog].
    destruct (0 <? Drawing.swapsMade st); [| split; assumption].
    split; [exact Hexit |]. cbn [post fst]. constructor; [by eexists | exact Hlog].
Qed.

(** X28.  A drawing request whose [myId] differs from its [currentId] is
    given up at the first check of the loop: once the pixel array is set
    up, the worker posts [cancelled] and returns without a single trial. *)
Theorem drawing_stale_id_is_cancelled (drawImageScaled : list Z -> Z -> Z -> list Z)
    (pow099 : Q -> Q) (fuel : nat) (source : UnprocessedPreset)
    (settings : GenerationSettings) (colors : list SeedColor)
    (pixelData : list Drawing.PixelData) (currentId myId : Z) :
  myId <> currentId ->
  is_Some (Drawing.start drawImageScaled source settings colors pixelData) ->
  Drawing.onmessage drawImageScaled pow099 (S fuel) source settings colors pixelData
    currentId myId
  = ([Cancelled], Returned).
Proof.
  intros Hid [st0 Hstart]. unfold Drawing.onmessage. rewrite Hstart.
  cbn [Drawing.drawingLoop]. change (0 mod 100 =? 0) with true.
  destruct (Z.eqb_spec myId currentId); [contradiction | reflexivity].
Qed.

Lemma drawing_stale_id_is_cancelled_witness :
  Drawing.onmessage nearestNeighbour pow099Model 1 source1x1 settingsSide1 colors1x1
    pixelData1x1 2 1
  = ([Cancelled], Returned).
Proof.
  apply (drawing_stale_id_is_cancelled nearestNeighbour pow099Model 0 source1x1
           settingsSide1 colors1x1 pixelData1x1 2 1); [lia |].
  eexists. reflexivity.
Defined.

Lemma drawingAssignments_alter sidelen v (i : nat) (px : list Drawing.Pixel) :
  drawingAssignments sidelen (alter (Drawing.setH v) i px)
  = drawingAssignments sidelen px.
Proof.
  unfold drawingAssignments. revert i.
  induction px as [| p px IH]; intros [| i]; try reflexivity.
  cbn [alter list_alter map]. f_equal. apply IH.
Qed.

Section DrawingAssignments.

Variable pow099 : Q -> Q.
Variable s : Drawing.Session.

Lemma drawing_swapTrial_assignments px apos bx by_ px' swapped :
  Drawing.swapTrial s px apos bx by_ = Some (px', swapped) ->
  drawingAssignments (Drawing.sessSidelen s) px'
  ≡ₚ drawingAssignments (Drawing.sessSidelen s) px.
Proof.
  unfold Drawing.swapTrial.
  repeat match goal with
         | |- context [@mbind option _ _ _ _ ?x] =>
             let H := fresh "E" in
             destruct x eqn:H; cbn [mbind option_bind]; [| discriminate]
         end.
  destruct (0 <? _); intros [= <- <-]; [| reflexivity].
  rewrite !drawingAssignments_alter. unfold drawingAssignments.
  apply Permutation_map.
  match goal with
  | Ha : JS.index px apos = Some _, Hb : JS.index px _ = Some _ |- _ =>
      apply index_Some in Ha as [_ Ha]; apply index_Some in Hb as [_ Hb];
      exact (exchange_Permutation px _ _ _ _ Ha Hb)
  end.
Qed.

Lemma drawing_trial_assignments st st' :
  Drawing.trial pow099 s st = Some st' ->
  drawingAssignments (Drawing.sessSidelen s) (Drawing.pixels st')
  ≡ₚ drawingAssignments (Drawing.sessSidelen s) (Drawing.pixels st).
Proof.
  unfold Drawing.trial.
  destruct (Drawing.sampleTrial _ _ _ _ _) as [g [[apos bx] by_]].
  destruct (Drawing.tooFar _ _ _ _ _ _); [intros [= <-]; reflexivity |].
  destruct (Drawing.swapTrial s _ apos bx by_) as [[px' swapped] |] eqn:Hsw;
    [| discriminate].
  cbn [mbind option_bind]. intros [= <-]. cbn [Drawing.pixels].
  by eapply drawing_swapTrial_assignments.
Qed.

Lemma drawing_trials_assignments (k : nat) st st' :
  Drawing.trials pow099 s k st = Some st' ->
  drawingAssignments (Drawing.sessSidelen s) (Drawing.pixels st')
  ≡ₚ drawingAssignments (Drawing.sessSidelen s) (Drawing.pixels st).
Proof.
  revert st. induction k as [| k IH]; intros st; cbn [Drawing.trials].
  - intros [= <-]. reflexivity.
  - destruct (Drawing.trial pow099 s st) as [st1 |] eqn:H1; [| discriminate].
    cbn [mbind option_bind]. intros Hk.
    rewrite (IH _ Hk). by apply drawing_trial_assignments.
Qed.

Lemma drawingLoop_assignments (fuel : nat) myId currentId loopCount px g :
  Forall (fun m => forall a, m = UpdateAssignments a ->
                   a ≡ₚ drawingAssignments (Drawing.sessSidelen s) px)
    (Drawing.drawingLoop pow099 fuel s myId currentId loopCount px g).1.
Proof.
  revert loopCount px g.
  induction fuel as [| fuel IH]; intros loopCount px g; cbn [Drawing.drawingLoop].
  - constructor.
  - destruct (_ && _); [by repeat constructor |].
    destruct (Drawing.trials _ _ _ _) as [st |] eqn:Ht; [| constructor].
    apply drawing_trials_assignments in Ht. cbn [Drawing.pixels] in Ht.
    assert (Hrest : Forall (fun m => forall a, m = UpdateAssignments a ->
                              a ≡ₚ drawingAssignments (Drawing.sessSidelen s) px)
                      (Drawing.drawingLoop pow099 fuel s myId currentId (loopCount + 1)
                         (Drawing.pixels st) (Drawing.rng st)).1).
    { eapply Forall_impl; [apply IH |]. intros m Hm a Ha.
      rewrite (Hm a Ha). exact Ht. }
    destruct (0 <? Drawing.swapsMade st); [| exact Hrest].
    cbn [post fst]. constructor; [| exact Hrest].
    intros a [= <-]. exact Ht.
Qed.

Lemma drawing_initPixels_assignments sourcePixels px :
  Drawing.initPixels s sourcePixels = Some px ->
  drawingAssignments (Drawing.sessSidelen s) px
  = upto (Z.of_nat (length sourcePixels)).
Proof.
  unfold Drawing.initPixels. intros H. apply mapM_Some in H.
  pose proof (Forall2_length _ _ _ H) as Hlen. rewrite length_imap in Hlen.
  unfold drawingAssignments, upto. rewrite Nat2Z.id.
  change (map ?f ?l = map ?g ?k) with (f <$> l = g <$> k).
  apply list_eq. intros j. rewrite !list_lookup_fmap.
  destruct (sourcePixels !! j) as [rgb |] eqn:Hj.
  - pose proof (lookup_lt_Some _ _ _ Hj) as Hlt.
    destruct (Forall2_lookup_l _ _ _ j (j, rgb) H) as (p & Hp & HF).
    { rewrite list_lookup_imap, Hj. reflexivity. }
    rewrite Hp, lookup_seq_lt by exact Hlt. cbn [fmap option_fmap option_map].
    f_equal. cbn beta iota in HF.
    destruct (Drawing.sessColors s !! j) as [c |]; [| discriminate].
    destruct (Drawing.sessTarget s !! j) as [t |]; [| discriminate].
    destruct (Drawing.sessWeights s !! j) as [w |]; [| discriminate].
    injection HF as <-. cbn [Drawing.srcX Drawing.srcY].
    pose proof (Z_div_mod_eq_full (Z.of_nat j) (Drawing.sessSidelen s)). lia.
  - apply lookup_ge_None in Hj.
    rewrite (lookup_ge_None_2 px j) by lia.
    rewrite (lookup_ge_None_2 (seq 0 (length sourcePixels)) j)
      by (rewrite length_seq; lia).
    reflexivity.
Qed.

End DrawingAssignments.

(** X29.  For a positive side, every [update_assignments] message of the
    drawing worker carries a permutation of the indices of the pixels of
    the buffer [applyCropScale] returned; when that buffer has [3 * S * S]
    bytes this is a permutation of [0, S * S). *)
Theorem drawing_updates_are_permutations
    (drawImageScaled : list Z -> Z -> Z -> list Z) (pow099 : Q -> Q) (fuel : nat)
    (source : UnprocessedPreset) (settings : GenerationSettings)
    (colors : list SeedColor) (pixelData : list Drawing.PixelData)
    (currentId myId : Z) (a : list Z) :
  0 < sidelen settings ->
  UpdateAssignments a
  ∈ (Drawing.onmessage drawImageScaled pow099 fuel source settings colors pixelData
       currentId myId).1 ->
  a ≡ₚ upto (Z.of_nat (length (extractRGB (croppedSource drawImageScaled source
                                             settings))))
  /\ (length (croppedSource drawImageScaled source settings)
      = Z.to_nat (sidelen settings * sidelen settings * 3) ->
      isPermutationOf (sidelen settings * sidelen settings) a).
Proof.
  intros HS Hin.
  assert (Hp : a ≡ₚ upto (Z.of_nat (length (extractRGB
                 (croppedSource drawImageScaled source settings))))).
  { revert Hin. unfold Drawing.onmessage, Drawing.start.
    destruct (Drawing.initPixels _ _) as [px |] eqn:Hinit; cbn [mbind option_bind];
      [| intros H; by apply elem_of_nil in H].
    cbn [Drawing.pixels Drawing.rng]. intros Hin.
    pose proof (drawingLoop_assignments pow099
                  (Drawing.session drawImageScaled source settings colors pixelData)
                  fuel myId currentId 0 px (SeededRNG.new 12345)) as HF.
    rewrite Forall_forall in HF. rewrite (HF _ Hin a eq_refl).
    apply drawing_initPixels_assignments in Hinit. rewrite Hinit. reflexivity. }
  split; [exact Hp |].
  intros Hlen. unfold isPermutationOf. rewrite Hp.
  destruct (extractRGB_triples (Z.to_nat (sidelen settings * sidelen settings))
              (croppedSource drawImageScaled source settings)) as [_ ->]; [lia |].
  rewrite Z2Nat.id by nia. reflexivity.
Qed.

Lemma drawing2x2_run :
  Drawing.onmessage nearestNeighbour pow099Model 1 source2x2 settingsDraw2 colors2x2
    pixelData2x2 1 1
  = ([UpdateAssignments [3; 1; 2; 0]], OutOfFuel).
Proof. vm_compute. reflexivity. Qed.

Lemma drawing_updates_are_permutations_witness :
  [3; 1; 2; 0]
  ≡ₚ upto (Z.of_nat (length (extractRGB (croppedSource nearestNeighbour source2x2
                                           settingsDraw2))))
  /\ (length (croppedSource nearestNeighbour source2x2 settingsDraw2)
      = Z.to_nat (sidelen settingsDraw2 * sidelen settingsDraw2 * 3) ->
      isPermutationOf (sidelen settingsDraw2 * sidelen settingsDraw2) [3; 1; 2; 0]).
Proof.
  apply (drawing_updates_are_permutations nearestNeighbour pow099Model 1 source2x2
           settingsDraw2 colors2x2 pixelData2x2 1 1 [3; 1; 2; 0]); [reflexivity |].
  rewrite drawing2x2_run. apply list_elem_of_here.
Defined.
